(** * Provably-fair Plinko engine: a shallow embedding of [server/src/game/engine.ts]

    The engine derives a 32-bit seed from a hex digest, drives a Xorshift32
    generator, builds a triangular field of peg biases from the first draws
    and walks a ball through the field with the following draws.

    JavaScript numbers are IEEE 754 binary64 values; they are modelled by the
    standard library's [spec_float] with the operations of [SpecFloat] at
    precision 53 and maximal exponent 1024 (round to nearest, ties to even).
    Integers that the code keeps inside 32 bits are modelled by [Z] with the
    ToInt32 / ToUint32 conversions of the language written out. *)

From Stdlib Require Import ZArith QArith Qround Qpower List String Ascii Bool Lia.
From Stdlib Require Import SpecFloat.
Import ListNotations.
Open Scope Z_scope.

(** ** JavaScript numbers *)

Module JS.

Definition number := spec_float.

Definition prec : Z := 53.
Definition emax : Z := 1024.

Definition add : number -> number -> number := SFadd prec emax.
Definition sub : number -> number -> number := SFsub prec emax.
Definition mul : number -> number -> number := SFmul prec emax.
Definition div : number -> number -> number := SFdiv prec emax.

(** [a < b] and [a > b] of the language; both are false on NaN. *)
Definition ltb (a b : number) : bool := SFltb a b.
Definition gtb (a b : number) : bool := SFltb b a.
Definition leb (a b : number) : bool := SFleb a b.

(** The number denoted by an integer (exact below 2^53). *)
Definition of_Z (z : Z) : number := binary_normalize prec emax z 0 false.

(** The number denoted by the decimal literal [m / 10^k]: the binary64 value
    nearest to it, which is the correctly rounded quotient of the two exactly
    representable integers. *)
Definition dec (m : Z) (k : Z) : number := div (of_Z m) (of_Z (10 ^ k)).

(** ToUint32 and ToInt32 on integral numbers. *)
Definition ToUint32 (z : Z) : Z := z mod 2 ^ 32.
Definition ToInt32 (z : Z) : Z :=
  let u := z mod 2 ^ 32 in if u <? 2 ^ 31 then u else u - 2 ^ 32.

(** [x << k], [x >>> k] and [x ^ y] for a shift count [0 <= k < 32]. *)
Definition shl (x k : Z) : Z := ToInt32 (Z.shiftl (ToInt32 x) k).
Definition shru (x k : Z) : Z := Z.shiftr (ToUint32 x) k.
Definition xor (x y : Z) : Z := Z.lxor (ToInt32 x) (ToInt32 y).

(** [Math.round]: the integral number closest to [x], ties going towards
    +infinity; zeros, infinities and NaN are returned unchanged, and a result
    of zero keeps the sign of [x]. *)
Definition Math_round (x : number) : number :=
  match x with
  | S754_finite s m e =>
      if 0 <=? e then x
      else
        let v := if s then Z.neg m else Z.pos m in
        let n := (v + 2 ^ (- e - 1)) / 2 ^ (- e) in
        if n =? 0 then S754_zero s else of_Z n
  | _ => x
  end.

End JS.

(** ** Exceptions *)

Inductive error : Type := RangeError | TypeError.

Inductive result (A : Type) : Type :=
| Ok : A -> result A
| Throw : error -> result A.
Arguments Ok {A} _.
Arguments Throw {A} _.

Definition bind {A B : Type} (x : result A) (f : A -> result B) : result B :=
  match x with
  | Ok a => f a
  | Throw e => Throw e
  end.

Notation "'let*' x ':=' c 'in' k" := (bind c (fun x => k))
  (at level 10, x pattern, c at level 100, k at level 200).

(** ** The Xorshift32 generator *)

Module Xorshift32.

Record t : Type := mk { state : Z }.

(** [constructor(seed)]: [this.state = seed >>> 0], and 1 when that is 0.
    The seed is an integral number, as [readUInt32BE] returns. *)
Definition new (seed : Z) : t :=
  let s := JS.shru seed 0 in
  if s =? 0 then mk 1 else mk s.

(** The three xorshift statements of [nextFloat] followed by [x >>> 0]. *)
Definition advance (s : Z) : Z :=
  let x := s in
  let x := JS.xor x (JS.shl x 13) in
  let x := JS.xor x (JS.shru x 17) in
  let x := JS.xor x (JS.shl x 5) in
  JS.shru x 0.

Definition two32 : JS.number := JS.of_Z 4294967296.

(** [nextFloat()]: the returned number and the generator after the call. *)
Definition nextFloat (g : t) : JS.number * t :=
  let s' := advance (state g) in
  (JS.div (JS.of_Z (JS.shru s' 0)) two32, mk s').

End Xorshift32.

(** ** SHA-256 and hexadecimal strings

    [crypto.createHash('sha256').update(data).digest('hex')] of the platform,
    written out after FIPS 180-4.  A [string] stands for the UTF-8 bytes of
    the JavaScript string. *)

Module SHA256.

Definition w32 (z : Z) : Z := z mod 2 ^ 32.
Definition rotr (n x : Z) : Z := Z.lor (Z.shiftr x n) (w32 (Z.shiftl x (32 - n))).
Definition Ch (x y z : Z) : Z :=
  Z.lxor (Z.land x y) (Z.land (Z.lxor x 4294967295) z).
Definition Maj (x y z : Z) : Z :=
  Z.lxor (Z.land x y) (Z.lxor (Z.land x z) (Z.land y z)).
Definition bsig0 (x : Z) : Z := Z.lxor (rotr 2 x) (Z.lxor (rotr 13 x) (rotr 22 x)).
Definition bsig1 (x : Z) : Z := Z.lxor (rotr 6 x) (Z.lxor (rotr 11 x) (rotr 25 x)).
Definition ssig0 (x : Z) : Z := Z.lxor (rotr 7 x) (Z.lxor (rotr 18 x) (Z.shiftr x 3)).
Definition ssig1 (x : Z) : Z := Z.lxor (rotr 17 x) (Z.lxor (rotr 19 x) (Z.shiftr x 10)).

(** The constants of the standard: the first 32 bits of the fractional parts
    of the cube roots ([K]) and of the square roots ([H0]) of the first
    primes. *)
Definition is_prime (n : nat) : bool :=
  forallb (fun d => negb (Nat.eqb (n mod d) 0)) (seq 2 (n - 2)).

Definition primes (n : nat) : list Z :=
  map Z.of_nat (firstn n (filter is_prime (seq 2 310))).

(** The integer cube root of [n], found bit by bit from bit [bits - 1] down. *)
Fixpoint cube_root (bits : nat) (n r : Z) : Z :=
  match bits with
  | O => r
  | S b =>
      let c := r + 2 ^ Z.of_nat b in
      cube_root b n (if c * c * c <=? n then c else r)
  end.

Definition K : list Z :=
  Eval vm_compute in map (fun p => cube_root 36 (p * 2 ^ 96) 0 mod 2 ^ 32) (primes 64).

Definition H0 : list Z :=
  Eval vm_compute in map (fun p => Z.sqrt (p * 2 ^ 64) mod 2 ^ 32) (primes 8).

(** Big-endian bytes of a word, most significant first. *)
Fixpoint be_bytes (n : nat) (z : Z) : list Z :=
  match n with
  | O => []
  | S k => (Z.shiftr z (8 * Z.of_nat k)) mod 256 :: be_bytes k z
  end.

Definition pad (msg : list Z) : list Z :=
  let l := Z.of_nat (List.length msg) in
  let zeros := Z.to_nat ((55 - l) mod 64) in
  (msg ++ [128] ++ repeat 0 zeros ++ be_bytes 8 (8 * l))%list.

Fixpoint words (n : nat) (bs : list Z) : list Z :=
  match n, bs with
  | S k, a :: b :: c :: d :: rest =>
      (a * 2 ^ 24 + b * 2 ^ 16 + c * 2 ^ 8 + d) :: words k rest
  | _, _ => []
  end.

(** Message schedule: [n] more words appended to the words so far. *)
Fixpoint schedule (n : nat) (w : list Z) : list Z :=
  match n with
  | O => w
  | S k =>
      let t := List.length w in
      let at_ (i : nat) := nth (t - i) w 0 in
      schedule k (w ++ [w32 (ssig1 (at_ 2%nat) + at_ 7%nat + ssig0 (at_ 15%nat) + at_ 16%nat)])%list
  end.

Definition round (v : list Z) (kw : Z * Z) : list Z :=
  match v with
  | [a; b; c; d; e; f; g; h] =>
      let t1 := h + bsig1 e + Ch e f g + fst kw + snd kw in
      let t2 := bsig0 a + Maj a b c in
      [w32 (t1 + t2); a; b; c; w32 (d + t1); e; f; g]
  | _ => v
  end.

Fixpoint add_words (a b : list Z) : list Z :=
  match a, b with
  | x :: a', y :: b' => w32 (x + y) :: add_words a' b'
  | _, _ => []
  end.

Definition compress (h : list Z) (block : list Z) : list Z :=
  let w := schedule 48 (words 16 block) in
  add_words h (fold_left round (combine K w) h).

Fixpoint blocks (n : nat) (bs : list Z) (h : list Z) : list Z :=
  match n with
  | O => h
  | S k => blocks k (skipn 64 bs) (compress h (firstn 64 bs))
  end.

Definition digest (msg : list Z) : list Z :=
  let p := pad msg in
  blocks (List.length p / 64) p H0.

Definition hexdigit (z : Z) : ascii :=
  ascii_of_N (Z.to_N (if z <? 10 then 48 + z else 87 + z)).

Fixpoint hex_word (n : nat) (z : Z) (k : string) : string :=
  match n with
  | O => k
  | S j => String (hexdigit ((Z.shiftr z (4 * Z.of_nat j)) mod 16)) (hex_word j z k)
  end.

Fixpoint hex_words (ws : list Z) : string :=
  match ws with
  | [] => EmptyString
  | w :: rest => hex_word 8 w (hex_words rest)
  end.

Definition bytes_of_string (s : string) : list Z :=
  map (fun c => Z.of_N (N_of_ascii c)) (list_ascii_of_string s).

End SHA256.

Definition sha256 (data : string) : string :=
  SHA256.hex_words (SHA256.digest (SHA256.bytes_of_string data)).

Definition generateCommit (serverSeed nonce : string) : string :=
  sha256 (serverSeed ++ ":" ++ nonce)%string.

Definition generateCombinedSeed (serverSeed clientSeed nonce : string) : string :=
  sha256 (serverSeed ++ ":" ++ clientSeed ++ ":" ++ nonce)%string.

(** [Buffer.from(s, 'hex')], as the platform documents it: pairs of
    hexadecimal characters are decoded and the data is truncated at the first
    pair that is not one (a trailing single character is dropped); no
    exception is raised on a string.  A character outside ASCII ends the
    decoding in both the UTF-16 string and its UTF-8 bytes, so that the bytes
    decoded are the same. *)
Module Buffer.

Definition unhex (c : ascii) : option Z :=
  let n := Z.of_N (N_of_ascii c) in
  if (48 <=? n) && (n <=? 57) then Some (n - 48)
  else if (97 <=? n) && (n <=? 102) then Some (n - 87)
  else if (65 <=? n) && (n <=? 70) then Some (n - 55)
  else None.

Fixpoint hex_decode (s : string) : list Z :=
  match s with
  | String a (String b rest) =>
      match unhex a, unhex b with
      | Some x, Some y => (16 * x + y) :: hex_decode rest
      | _, _ => []
      end
  | _ => []
  end.

Definition from_hex (s : string) : result (list Z) := Ok (hex_decode s).

(** [buf.readUInt32BE(0)]: a RangeError when fewer than 4 bytes are there. *)
Definition readUInt32BE (buf : list Z) : result Z :=
  match buf with
  | b0 :: b1 :: b2 :: b3 :: _ => Ok (b0 * 2 ^ 24 + b1 * 2 ^ 16 + b2 * 2 ^ 8 + b3)
  | _ => Throw RangeError
  end.

End Buffer.

(** ** The game engine *)

Definition ROWS : nat := 12.
Definition DROP_COLUMNS : nat := 13.

Record Peg : Type := mkPeg { leftBias : JS.number }.

Definition PegMap : Type := list (list Peg).

Inductive Move : Type := Left | Right.

(** The [path] and [binIndex] of a [PathResult]; its [pegMap] and
    [pegMapHash] are those of the engine, which [run] does not change. *)
Record PathResult : Type := mkPathResult { path : list Move; binIndex : nat }.

(** What [createGameEngine] returns: the peg map and the generator that the
    closure [run] keeps using.  The field [pegMapHash], the digest of
    [JSON.stringify(pegMap)], is computed once at creation and plays no part
    in the walk; it is left out. *)
Record Engine : Type := mkEngine { pegMap : PegMap; prng : Xorshift32.t }.

(** [try { body } catch { handler }] *)
Definition try_catch {A : Type} (body handler : result A) : result A :=
  match body with
  | Ok a => Ok a
  | Throw _ => handler
  end.

(** [a[i]] followed by a property access: a TypeError when [a[i]] is
    undefined. *)
Definition index {A : Type} (a : list A) (i : nat) : result A :=
  match nth_error a i with
  | Some x => Ok x
  | None => Throw TypeError
  end.

(** The bytes the seed is read from (step 1 of [createGameEngine]). *)
Definition seedBuffer (combinedSeedHex : string) : result (list Z) :=
  try_catch
    (let* buffer := Buffer.from_hex combinedSeedHex in
     if (List.length buffer <? 4)%nat
     then Buffer.from_hex (sha256 combinedSeedHex)
     else Ok buffer)
    (Buffer.from_hex (sha256 combinedSeedHex)).

Definition seedInt (combinedSeedHex : string) : result Z :=
  let* buffer := seedBuffer combinedSeedHex in
  Buffer.readUInt32BE buffer.

(** The body of the inner loop of step 2, from the draw to the stored bias. *)
Definition unroundedBias (rnd : JS.number) : JS.number :=
  JS.add (JS.dec 5 1) (JS.mul (JS.sub rnd (JS.dec 5 1)) (JS.dec 2 1)).

Definition roundedBias (leftBias : JS.number) : JS.number :=
  JS.div (JS.Math_round (JS.mul leftBias (JS.of_Z 1000000))) (JS.of_Z 1000000).

(** [for (c = 0; c <= r; c++)]: [n] pegs pushed onto a row. *)
Fixpoint genRow (n : nat) (g : Xorshift32.t) : list Peg * Xorshift32.t :=
  match n with
  | O => ([], g)
  | S k =>
      let (rnd, g1) := Xorshift32.nextFloat g in
      let peg := mkPeg (roundedBias (unroundedBias rnd)) in
      let (rest, g2) := genRow k g1 in
      (peg :: rest, g2)
  end.

(** [for (r = ...; r < ROWS; r++)]: [n] rows pushed, the first being row [r]. *)
Fixpoint genRows (r n : nat) (g : Xorshift32.t) : PegMap * Xorshift32.t :=
  match n with
  | O => ([], g)
  | S k =>
      let (rowPegs, g1) := genRow (S r) g in
      let (rest, g2) := genRows (S r) k g1 in
      (rowPegs :: rest, g2)
  end.

Definition createGameEngine (combinedSeedHex : string) : result Engine :=
  let* seed := seedInt combinedSeedHex in
  let g := Xorshift32.new seed in
  let (pm, g') := genRows 0 ROWS g in
  Ok (mkEngine pm g').

(** The local variables of [run] that the loop changes. *)
Record walk : Type := mkWalk { w_path : list Move; w_pos : nat; w_prng : Xorshift32.t }.

(** One iteration of the loop of [run], at row [r]. *)
Definition step (pm : PegMap) (dropColumn : JS.number) (r : nat) (w : walk)
  : result walk :=
  let pegIndex := Nat.min (w_pos w) r in
  let* row := index pm r in
  let* peg := index row pegIndex in
  let adj := JS.mul (JS.sub dropColumn (JS.of_Z (Z.of_nat ROWS / 2))) (JS.dec 1 2) in
  let biasPrime := JS.add (leftBias peg) adj in
  let biasPrime := if JS.ltb biasPrime (JS.of_Z 0) then JS.of_Z 0 else biasPrime in
  let biasPrime := if JS.gtb biasPrime (JS.of_Z 1) then JS.of_Z 1 else biasPrime in
  let (rnd, g') := Xorshift32.nextFloat (w_prng w) in
  if JS.ltb rnd biasPrime
  then Ok (mkWalk (w_path w ++ [Left]) (w_pos w) g')
  else Ok (mkWalk (w_path w ++ [Right]) (w_pos w + 1) g').

(** [n] iterations of the loop, starting at row [r]. *)
Fixpoint loop (pm : PegMap) (dropColumn : JS.number) (r n : nat) (w : walk)
  : result walk :=
  match n with
  | O => Ok w
  | S k =>
      let* w' := step pm dropColumn r w in
      loop pm dropColumn (S r) k w'
  end.

(** [engine.run(dropColumn)]: the result, and the engine after the call. *)
Definition run (e : Engine) (dropColumn : JS.number) : result (PathResult * Engine) :=
  let* w := loop (pegMap e) dropColumn 0 ROWS (mkWalk [] 0 (prng e)) in
  Ok (mkPathResult (w_path w) (w_pos w), mkEngine (pegMap e) (w_prng w)).

(** ** Notions used to state the properties *)

(** The generator after [n] draws. *)
Fixpoint skip (n : nat) (g : Xorshift32.t) : Xorshift32.t :=
  match n with
  | O => g
  | S k => skip k (snd (Xorshift32.nextFloat g))
  end.

(** Draw number [n], counted from 0, of the stream that starts at [g]. *)
Definition draw (n : nat) (g : Xorshift32.t) : JS.number :=
  fst (Xorshift32.nextFloat (skip n g)).

Definition rights (m : Move) : nat :=
  match m with
  | Left => 0
  | Right => 1
  end.

(** The number of [Right] entries of a path. *)
Fixpoint countRight (p : list Move) : nat :=
  match p with
  | [] => 0
  | m :: p' => rights m + countRight p'
  end.

(** [clamp(x, lo, hi)] *)
Definition clamp (x lo hi : JS.number) : JS.number :=
  if JS.ltb x lo then lo else if JS.gtb x hi then hi else x.

(** [adj = (dropColumn - floor(12 / 2)) * 0.01] *)
Definition adjustment (dropColumn : JS.number) : JS.number :=
  JS.mul (JS.sub dropColumn (JS.of_Z 6)) (JS.dec 1 2).

(** The decision of a row as the rule of the walk words it: [Left] when the
    draw is below the clamped, adjusted bias of the peg, [Right] otherwise. *)
Definition decision (bias dropColumn rnd : JS.number) : Move :=
  if JS.ltb rnd (clamp (JS.add bias (adjustment dropColumn)) (JS.of_Z 0) (JS.of_Z 1))
  then Left else Right.

Definition pegAt (pm : PegMap) (r c : nat) : option Peg :=
  match nth_error pm r with
  | Some row => nth_error row c
  | None => None
  end.

(** The number of draws that rows [r], ..., [r + n - 1] of the field take. *)
Fixpoint offset (r n : nat) : nat :=
  match n with
  | O => 0
  | S k => S r + offset (S r) k
  end.

(** The stored bias of the peg built from draw [d]. *)
Definition pegOf (d : JS.number) : Peg := mkPeg (roundedBias (unroundedBias d)).

(** A field with at least [r + 1] pegs in each of its rows [r < ROWS]. *)
Definition wide_enough (pm : PegMap) : Prop :=
  forall r, (r < ROWS)%nat ->
    exists row, nth_error pm r = Some row /\ (r < List.length row)%nat.

(** The exact value of a finite number, as a rational. *)
Definition Qvalue (x : JS.number) : Q :=
  match x with
  | S754_finite s m e => (inject_Z (if s then Z.neg m else Z.pos m) * (2 # 1) ^ e)%Q
  | _ => 0%Q
  end.

(** A number printed with [k] decimals: the integer nearest to [x * 10^k]. *)
Definition decimals (k : Z) (x : JS.number) : Z :=
  Qfloor (Qvalue x * inject_Z (10 ^ k) + (1 # 2))%Q.

(** A string of an even number of hexadecimal characters. *)
Fixpoint valid_hex (s : string) : bool :=
  match s with
  | EmptyString => true
  | String a (String b rest) =>
      match Buffer.unhex a, Buffer.unhex b with
      | Some _, Some _ => valid_hex rest
      | _, _ => false
      end
  | String _ EmptyString => false
  end.

(** [0 <= dropColumn <= 12] *)
Definition in_range (dropColumn : JS.number) : bool :=
  JS.leb (JS.of_Z 0) dropColumn && JS.leb dropColumn (JS.of_Z 12).

(** The combined seed of the test vector ([VECTORS.expectedCombined]). *)
Definition expectedCombined : string :=
  "e1dddf77de27d395ea2be2ed49aa2a59bd6bf12ee8d350c16c008abd406c07e0".

(** Reduction to an unsigned 32-bit word. *)
Definition u32 (z : Z) : Z := z mod 2 ^ 32.

(** [x ^= x << k] and [x ^= x >>> k] on unsigned 32-bit words. *)
Definition xor_shl (k x : Z) : Z := u32 (Z.lxor x (Z.shiftl x k)).
Definition xor_shr (k x : Z) : Z := u32 (Z.lxor x (Z.shiftr x k)).

(** The advance function as three statements with unsigned 32-bit
    wrap-around: [x ^= x << 13; x ^= x >>> 17; x ^= x << 5]. *)
Definition xorshift32 (x : Z) : Z := xor_shl 5 (xor_shr 17 (xor_shl 13 x)).

(** The inverse of [xorshift32] on 32-bit words: over GF(2), with [L] the
    left shift, [1 + L^5] is undone by [(1 + L^5) (1 + L^10) (1 + L^20)],
    [1 + R^17] by itself and [1 + L^13] by [(1 + L^13) (1 + L^26)]. *)
Definition unxorshift32 (y : Z) : Z :=
  xor_shl 26 (xor_shl 13 (xor_shr 17 (xor_shl 20 (xor_shl 10 (xor_shl 5 y))))).

(** A function that commutes with exclusive or. *)
Definition xor_linear (f : Z -> Z) : Prop :=
  forall a b, f (Z.lxor a b) = Z.lxor (f a) (f b).

(** The linear map over GF(2) given by the images [cols] of the bits
    [i], [i + 1], ... *)
Fixpoint apply_columns (cols : list Z) (i : Z) (y : Z) : Z :=
  match cols with
  | [] => 0
  | c :: rest => Z.lxor (if Z.testbit y i then c else 0) (apply_columns rest (i + 1) y)
  end.

(** The columns of the inverse of [x |-> x xor xorshift32 x] on 32-bit
    words. *)
Definition fixpoint_columns : list Z :=
  [ 2456421193; 645318041; 1313818681; 1280725041; 1214537761; 1073741825;
    2147483650; 3502817351; 1901674701; 3803349402; 3351756863; 2408546430;
    522125564; 4009148859; 260538430; 3485974591; 2676981886; 1058996476;
    2935407035; 2408022078; 521076860; 4007051451; 264733246; 3477587007;
    2660206718; 1025446140; 2868306363; 2273820734; 252674172; 3470246075;
    2645524854; 3912565156 ].

(** The generator state after [n] draws is the [n]-fold advance. *)
Fixpoint iterate (n : nat) (f : Z -> Z) (x : Z) : Z :=
  match n with
  | O => x
  | S k => iterate k f (f x)
  end.

(** ** Rounding, on integers

    [rne m n] is the integer nearest to [m / 2^n], ties going to the even
    one (for [n >= 1]). *)
Definition rne (m n : Z) : Z :=
  let q := m / 2 ^ n in
  let r := m mod 2 ^ n in
  let h := 2 ^ (n - 1) in
  if r <? h then q else if h <? r then q + 1 else if Z.even q then q else q + 1.

(** The mantissa and exponent that rounding [m * 2^e] to 53 bits gives, for a
    mantissa [m] of 53 bits or more and a result in the normal range. *)
Definition round_pair (m e : Z) : Z * Z :=
  let n := Zdigits2 m - 53 in
  if n <=? 0 then (m, e)
  else
    let q := rne m n in
    if q <? 2 ^ 53 then (q, e + n) else (2 ^ 52, e + n + 1).

(** The same value with a mantissa of at least 53 bits. *)
Definition norm_pair (m e : Z) : Z * Z :=
  let d := Zdigits2 m in
  if d <? 53 then (m * 2 ^ (53 - d), e - (53 - d)) else (m, e).

(** The order of positive normal numbers given by mantissa and exponent. *)
Definition le_pair (a b : Z * Z) : Prop :=
  snd a < snd b \/ (snd a = snd b /\ fst a <= fst b).

(** A positive normal binary64 number. *)
Definition normal (m : positive) (e : Z) : Prop :=
  2 ^ 52 <= Z.pos m < 2 ^ 53 /\ -1074 <= e <= 971.

(** The mantissa after the first shift and rounding, and its exponent. *)
Definition first_round (m e : Z) (l : location) : Z * Z :=
  let '(rec, e1) := shr_fexp 53 1024 m e l in
  (round_nearest_even (shr_m rec) (loc_of_shr_record rec), e1).

(** Rounding to the nearest integer, ties going away from zero. *)
Definition round_half_away (x : JS.number) : JS.number :=
  match x with
  | S754_finite s m e =>
      if 0 <=? e then x
      else
        let a := (Z.pos m + 2 ^ (- e - 1)) / 2 ^ (- e) in
        if a =? 0 then S754_zero s else JS.of_Z (if s then - a else a)
  | _ => x
  end.
(** ** Powers of the advance function

    The advance function is linear over GF(2); its powers are computed on
    the matrices of columns by repeated squaring. *)

(** The columns of a linear map on 32-bit words: the images of the bits. *)
Definition columns_of (f : Z -> Z) : list Z :=
  map (fun i => f (2 ^ Z.of_nat i)) (seq 0 32).

(** The columns of the map with columns [a] after the map with columns [b]. *)
Definition compose_columns (a b : list Z) : list Z := map (apply_columns a 0) b.

(** The columns of the [n]-th power of the map with columns [t]. *)
Fixpoint power_columns (t : list Z) (n : positive) : list Z :=
  match n with
  | xH => t
  | xO p => let s := power_columns t p in compose_columns s s
  | xI p => let s := power_columns t p in compose_columns t (compose_columns s s)
  end.

(** The columns of [x |-> x xor m x]. *)
Definition plus_identity (m : list Z) : list Z :=
  map (fun c => Z.lxor (fst c) (snd c)) (combine (columns_of (fun x => x)) m).

(** The number of nonzero 32-bit words, and its prime factors. *)
Definition period : Z := 2 ^ 32 - 1.
Definition period_primes : list Z := [3; 5; 17; 257; 65537].

(** [m] fixes no word but 0: the map [x |-> x xor m x] is undone by its
    power [2^32 - 2], which is checked on the 32 bits. *)
Definition fixes_only_zero (m : list Z) : bool :=
  let inv := power_columns (plus_identity m) (Z.to_pos (2 ^ 32 - 2)) in
  forallb (fun i => apply_columns inv 0 (Z.lxor (2 ^ Z.of_nat i) (apply_columns m 0 (2 ^ Z.of_nat i)))
                    =? 2 ^ Z.of_nat i)
          (seq 0 32).

(** [p] has no divisor [k] with [2 <= k < 2 + n]. *)
Definition no_divisor_below (p : Z) (n : nat) : bool :=
  forallb (fun k => negb (p mod Z.of_nat k =? 0)) (seq 2 n).

(** Primality by trial division up to the square root. *)
Definition prime_by_trial (p : Z) : bool :=
  (1 <? p) && no_divisor_below p (Z.to_nat (Z.sqrt p) - 1).

(** ** Hexadecimal strings *)

(** One of the characters [0-9a-f]. *)
Definition lower_hex (c : ascii) : bool :=
  let n := Z.of_N (N_of_ascii c) in
  ((48 <=? n) && (n <=? 57)) || ((97 <=? n) && (n <=? 102)).

(** The big-endian bytes of a list of 32-bit words. *)
Definition bytes_of_words (ws : list Z) : list Z := flat_map (SHA256.be_bytes 4) ws.

(** The engine that [createGameEngine] builds from the seed integer. *)
Definition engineOfSeed (seed : Z) : Engine :=
  let g := Xorshift32.new seed in
  mkEngine (fst (genRows 0 ROWS g)) (skip 78 g).

(** ** Successive runs and the paytable *)

(** Calls of [run] on one engine, one after the other, with the drop
    columns of the list (as the tests do in a loop). *)
Fixpoint runs (e : Engine) (dropColumns : list JS.number)
  : result (list PathResult * Engine) :=
  match dropColumns with
  | [] => Ok ([], e)
  | dc :: rest =>
      let* (res, e1) := run e dc in
      let* (rs, e2) := runs e1 rest in
      Ok (res :: rs, e2)
  end.

(** The table [multipliers] of the start route, and
    [multipliers[result.binIndex]] ([None] for [undefined]). *)
Definition multipliers : list JS.number :=
  [ JS.of_Z 10; JS.of_Z 5; JS.of_Z 2; JS.of_Z 1; JS.dec 5 1; JS.dec 2 1; JS.dec 2 1;
    JS.dec 2 1; JS.dec 5 1; JS.of_Z 1; JS.of_Z 2; JS.of_Z 5; JS.of_Z 10 ].

Definition payoutMultiplier (binIndex : nat) : option JS.number :=
  nth_error multipliers binIndex.

(** * The routes ([server/src/routes.ts])

    The handlers are asynchronous: between two [await]s other requests are
    served.  A handler is modelled by the tasks it goes through, one per
    database call it awaits; [receive] runs a handler up to its first
    [await], and [step] performs the awaited call on the store and runs the
    handler up to the next [await] or to its response.

    What the handlers take from the platform and from the libraries beyond
    the code of the repository is left open in [Platform]. *)

Module Routes.

Class Platform : Type := {
  (** [z.number().int()] accepts the number. *)
  zodInt : JS.number -> bool;
  (** The database client accepts the number for an INTEGER column. *)
  prismaInt : JS.number -> bool;
  (** [Number(text)] *)
  toNumber : string -> JS.number;
  (** The text of a number in [JSON.stringify]. *)
  numberToJSON : JS.number -> string
}.

(** ** JSON texts *)

Definition quote : string := String (ascii_of_nat 34) EmptyString.

Fixpoint join (sep : string) (items : list string) : string :=
  match items with
  | [] => EmptyString
  | [x] => x
  | x :: rest => (x ++ sep ++ join sep rest)%string
  end.

Definition JSON_array (items : list string) : string :=
  ("[" ++ join "," items ++ "]")%string.

(** A string without characters to escape. *)
Definition JSON_string (s : string) : string := (quote ++ s ++ quote)%string.

Definition moveName (m : Move) : string :=
  match m with
  | Left => "Left"
  | Right => "Right"
  end.

(** [JSON.stringify(result.path)] *)
Definition stringifyPath (p : list Move) : string :=
  JSON_array (map (fun m => JSON_string (moveName m)) p).

(** [JSON.stringify(pegMap)] and the [pegMapHash] of [createGameEngine]. *)
Definition stringifyPegMap `{Platform} (pm : PegMap) : string :=
  JSON_array
    (map (fun row =>
            JSON_array
              (map (fun peg =>
                      ("{" ++ JSON_string "leftBias" ++ ":" ++ numberToJSON (leftBias peg) ++ "}")%string)
                   row))
         pm).

Definition pegMapHash `{Platform} (pm : PegMap) : string := sha256 (stringifyPegMap pm).

(** [buf.toString('hex')] *)
Definition toHex (bytes : list Z) : string :=
  fold_right (fun b k => SHA256.hex_word 2 b k) EmptyString bytes.

(** ** The table of rounds *)

Module Round.

Record t : Type := mk {
  id : string;
  createdAt : Z;
  status : string;
  nonce : string;
  commitHex : string;
  serverSeed : option string;
  clientSeed : option string;
  combinedSeed : option string;
  pegMapHash : option string;
  rows : Z;
  dropColumn : option JS.number;
  binIndex : option nat;
  payoutMultiplier : option JS.number;
  betCents : option JS.number;
  pathJson : option string;
  revealedAt : option Z
}.

End Round.

Definition Store : Type := list Round.t.

(** [prisma.round.findUnique({ where: { id } })] *)
Definition findUnique (db : Store) (id : string) : option Round.t :=
  find (fun r => (Round.id r =? id)%string) db.

(** [prisma.round.create({ data })]: [None] when the call throws, the id
    being taken. *)
Definition create (db : Store) (r : Round.t) : option Store :=
  match findUnique db (Round.id r) with
  | Some _ => None
  | None => Some (db ++ [r])%list
  end.

(** [prisma.round.update({ where: { id }, data })]: the row after the
    update and the store; [None] when the call throws, no row having the
    id. *)
Fixpoint update (db : Store) (id : string) (data : Round.t -> Round.t)
  : option (Round.t * Store) :=
  match db with
  | [] => None
  | r :: rest =>
      if (Round.id r =? id)%string then Some (data r, data r :: rest)
      else
        match update rest id data with
        | Some (u, rest') => Some (u, r :: rest')
        | None => None
        end
  end.

(** ** Requests and responses *)

Inductive JSValue : Type :=
| JSUndefined
| JSNull
| JSBoolean (b : bool)
| JSNumber (n : JS.number)
| JSString (s : string)
| JSObject.

(** The three properties of [req.body] that the start route reads. *)
Record StartBody : Type := mkStartBody {
  body_clientSeed : JSValue;
  body_betCents : JSValue;
  body_dropColumn : JSValue
}.

(** What [StartRoundSchema.parse] returns. *)
Module StartRound.

Record t : Type := mk { clientSeed : string; betCents : JS.number; dropColumn : JS.number }.

End StartRound.

(** [StartRoundSchema.parse(req.body)]: [None] when it throws a ZodError.
    The bounds on [dropColumn] reject what is not a number, and
    [zodInt] what is not finite. *)
Definition StartRoundSchema_parse `{Platform} (body : option StartBody)
  : option StartRound.t :=
  match body with
  | Some b =>
      match body_clientSeed b, body_betCents b, body_dropColumn b with
      | JSString cs, JSNumber bc, JSNumber dc =>
          if (1 <=? String.length cs)%nat
             && (zodInt bc && JS.leb (JS.of_Z 1) bc)
             && (JS.leb (JS.of_Z 0) dc && JS.leb dc (JS.of_Z 12))
          then Some (StartRound.mk cs bc dc)
          else None
      | _, _, _ => None
      end
  | None => None
  end.

Inductive Request : Type :=
| PostCommit
| PostStart (id : string) (body : option StartBody)
| PostReveal (id : string)
| GetRound (id : string)
| GetVerify (serverSeed clientSeed nonce dropColumn : option string).

(** The JSON bodies of the responses; [ErrorJson] is
    [res.status(status).json({ error, ... })], any [details] left out. *)
Inductive Response : Type :=
| CommitJson (roundId commitHex nonce : string)
| StartJson (roundId pegMapHash : string) (binIndex : nat)
            (payoutMultiplier : option JS.number) (path : list Move)
| RevealJson (serverSeed clientSeed : option string) (nonce : string)
             (combinedSeed : option string)
| RoundJson (round : Round.t)
| VerifyJson (valid : bool) (commitHex combinedSeed pegMapHash : string)
             (binIndex : nat) (path : list Move)
| ErrorJson (status : Z) (error : string).

(** [next(error)]: the error middleware of [index.ts]. *)
Definition ServerError : Response := ErrorJson 500 "Something went wrong!".

(** [!text] for a text that may be undefined or null. *)
Definition falsy (text : option string) : bool :=
  match text with
  | None => true
  | Some s => (s =? EmptyString)%string
  end.

(** ** GET /verify *)

(** A query parameter read as a text ([x as string] in a template). *)
Definition text (x : option string) : string :=
  match x with
  | Some s => s
  | None => "undefined"
  end.

Definition undefined (x : option string) : bool :=
  match x with
  | Some _ => false
  | None => true
  end.

Definition verify `{Platform} (serverSeed clientSeed nonce dropColumn : option string)
  : Response :=
  if falsy serverSeed || falsy clientSeed || falsy nonce || undefined dropColumn
  then ErrorJson 400 "Missing parameters"
  else
    let dropColNum := toNumber (text dropColumn) in
    let commitHex := generateCommit (text serverSeed) (text nonce) in
    let combinedSeed :=
      generateCombinedSeed (text serverSeed) (text clientSeed) (text nonce) in
    match
      (let* engine := createGameEngine combinedSeed in
       let* (result, _) := run engine dropColNum in
       Ok (VerifyJson true commitHex combinedSeed (pegMapHash (pegMap engine))
                      (binIndex result) (path result)))
    with
    | Ok response => response
    | Throw _ => ServerError
    end.

(** ** The handlers that use the store *)

(** What the platform supplies while a handler runs: the bytes of
    [crypto.randomBytes(32)] and [crypto.randomBytes(8)], the id that the
    database client gives a new row, and the time. *)
Record Env : Type := mkEnv {
  randomBytes32 : list Z;
  randomBytes8 : list Z;
  newId : string;
  now : Z
}.

(** A handler at an [await]: the database call it waits for and what it
    keeps in its local variables. *)
Inductive Task : Type :=
| CommitCreate (serverSeed nonce commitHex : string)
| CommitRepair (roundId serverSeed nonce commitHex : string)
| StartFind (id : string) (body : StartRound.t)
| StartUpdate (id : string) (body : StartRound.t) (combinedSeed pegMapHash : string)
              (result : PathResult) (payoutMultiplier : option JS.number)
| RevealFind (id : string)
| RevealUpdate (id : string) (revealedAt : Z)
| RoundFind (id : string).

Inductive Stage : Type :=
| Pending (t : Task)
| Done (r : Response).

(** A handler from the arrival of its request to its first [await]. *)
Definition receive `{Platform} (env : Env) (rq : Request) : Stage :=
  match rq with
  | PostCommit =>
      let serverSeed := toHex (randomBytes32 env) in
      let nonce := toHex (randomBytes8 env) in
      Pending (CommitCreate serverSeed nonce (generateCommit serverSeed nonce))
  | PostStart id body =>
      match StartRoundSchema_parse body with
      | Some b => Pending (StartFind id b)
      | None => Done (ErrorJson 400 "Invalid request data")
      end
  | PostReveal id => Pending (RevealFind id)
  | GetRound id => Pending (RoundFind id)
  | GetVerify serverSeed clientSeed nonce dropColumn =>
      Done (verify serverSeed clientSeed nonce dropColumn)
  end.

(** The row that [create] is given by the commit route, with the defaults
    of the table. *)
Definition newRound (env : Env) (serverSeed nonce commitHex : string) : Round.t :=
  Round.mk (newId env) (now env) "CREATED" nonce commitHex (Some serverSeed)
           None None None 12 None None None None None None.

(** The [data] of the update of the start route; an undefined
    [payoutMultiplier] leaves the column as it is. *)
Definition startData (body : StartRound.t) (combinedSeed pegMapHash : string)
    (result : PathResult) (payoutMultiplier : option JS.number) (r : Round.t) : Round.t :=
  Round.mk (Round.id r) (Round.createdAt r) "STARTED" (Round.nonce r) (Round.commitHex r)
           (Round.serverSeed r)
           (Some (StartRound.clientSeed body)) (Some combinedSeed) (Some pegMapHash)
           (Round.rows r)
           (Some (StartRound.dropColumn body)) (Some (binIndex result))
           (match payoutMultiplier with
            | Some m => Some m
            | None => Round.payoutMultiplier r
            end)
           (Some (StartRound.betCents body)) (Some (stringifyPath (path result)))
           (Round.revealedAt r).

Definition revealData (revealedAt : Z) (r : Round.t) : Round.t :=
  Round.mk (Round.id r) (Round.createdAt r) "REVEALED" (Round.nonce r) (Round.commitHex r)
           (Round.serverSeed r) (Round.clientSeed r) (Round.combinedSeed r)
           (Round.pegMapHash r) (Round.rows r) (Round.dropColumn r) (Round.binIndex r)
           (Round.payoutMultiplier r) (Round.betCents r) (Round.pathJson r)
           (Some revealedAt).

Definition repairData (serverSeed : string) (r : Round.t) : Round.t :=
  Round.mk (Round.id r) (Round.createdAt r) (Round.status r) (Round.nonce r)
           (Round.commitHex r) (Some serverSeed) (Round.clientSeed r)
           (Round.combinedSeed r) (Round.pegMapHash r) (Round.rows r) (Round.dropColumn r)
           (Round.binIndex r) (Round.payoutMultiplier r) (Round.betCents r)
           (Round.pathJson r) (Round.revealedAt r).

(** [safeRound] of the route GET /rounds/:id. *)
Definition safeRound (r : Round.t) : Round.t :=
  if (Round.status r =? "REVEALED")%string then r
  else
    Round.mk (Round.id r) (Round.createdAt r) (Round.status r) (Round.nonce r)
             (Round.commitHex r) None (Round.clientSeed r) None (Round.pegMapHash r)
             (Round.rows r) (Round.dropColumn r) (Round.binIndex r)
             (Round.payoutMultiplier r) (Round.betCents r) (Round.pathJson r)
             (Round.revealedAt r).

(** The awaited call of a task on the store, and the handler up to its next
    [await] or to its response. *)
Definition step `{Platform} (env : Env) (db : Store) (t : Task) : Store * Stage :=
  match t with
  | CommitCreate serverSeed nonce commitHex =>
      match create db (newRound env serverSeed nonce commitHex) with
      | None => (db, Done ServerError)
      | Some db' =>
          if falsy (Some serverSeed)
          then (db', Pending (CommitRepair (newId env) serverSeed nonce commitHex))
          else (db', Done (CommitJson (newId env) commitHex nonce))
      end
  | CommitRepair roundId serverSeed nonce commitHex =>
      match update db roundId (repairData serverSeed) with
      | None => (db, Done ServerError)
      | Some (_, db') => (db', Done (CommitJson roundId commitHex nonce))
      end
  | StartFind id body =>
      match findUnique db id with
      | None => (db, Done (ErrorJson 404 "Round not found"))
      | Some round =>
          if negb (Round.status round =? "CREATED")%string
          then (db, Done (ErrorJson 400 "Round already started or finished"))
          else if falsy (Round.serverSeed round)
          then (db, Done (ErrorJson 500
                 "Server seed missing internally. Please try starting a new round."))
          else
            let combinedSeed :=
              generateCombinedSeed (text (Round.serverSeed round))
                                   (StartRound.clientSeed body) (Round.nonce round) in
            match
              (let* engine := createGameEngine combinedSeed in
               let* (result, _) := run engine (StartRound.dropColumn body) in
               Ok (StartUpdate id body combinedSeed (pegMapHash (pegMap engine)) result
                               (payoutMultiplier (binIndex result))))
            with
            | Ok task => (db, Pending task)
            | Throw _ => (db, Done ServerError)
            end
      end
  | StartUpdate id body combinedSeed pegMapHash result payoutMultiplier =>
      if prismaInt (StartRound.dropColumn body) && prismaInt (StartRound.betCents body)
      then
        match update db id (startData body combinedSeed pegMapHash result payoutMultiplier) with
        | None => (db, Done ServerError)
        | Some (updated, db') =>
            (db', Done (StartJson (Round.id updated) pegMapHash (binIndex result)
                                  payoutMultiplier (path result)))
        end
      else (db, Done ServerError)
  | RevealFind id =>
      match findUnique db id with
      | None => (db, Done (ErrorJson 404 "Round not found"))
      | Some round =>
          if (Round.status round =? "CREATED")%string
          then (db, Done (ErrorJson 400 "Round not started yet"))
          else (db, Pending (RevealUpdate id (now env)))
      end
  | RevealUpdate id revealedAt =>
      match update db id (revealData revealedAt) with
      | None => (db, Done ServerError)
      | Some (updated, db') =>
          (db', Done (RevealJson (Round.serverSeed updated) (Round.clientSeed updated)
                                 (Round.nonce updated) (Round.combinedSeed updated)))
      end
  | RoundFind id =>
      match findUnique db id with
      | None => (db, Done (ErrorJson 404 "Round not found"))
      | Some round => (db, Done (RoundJson (safeRound round)))
      end
  end.

(** A handler run from the arrival of its request to its response with no
    other request in between. *)
Fixpoint finish `{Platform} (fuel : nat) (env : Env) (db : Store) (s : Stage)
  : Store * Stage :=
  match fuel, s with
  | S k, Pending t => let (db', s') := step env db t in finish k env db' s'
  | _, _ => (db, s)
  end.

Definition serve `{Platform} (env : Env) (db : Store) (rq : Request) : Store * Stage :=
  finish 2 env db (receive env rq).

(** ** The server *)

(** The store and the handlers that wait at an [await]. *)
Record Server : Type := mkServer { store : Store; tasks : list Task }.

(** One transition, with the response that is sent, if any: a request
    arrives and its handler reaches its first [await] or answers at once, or
    the awaited call of a waiting handler is performed.  The bytes of
    [crypto.randomBytes(n)] are [n]. *)
Inductive transition `{Platform} : Server -> option Response -> Server -> Prop :=
| arrives (env : Env) (rq : Request) (t : Task) (db : Store) (ts : list Task) :
    List.length (randomBytes32 env) = 32%nat ->
    List.length (randomBytes8 env) = 8%nat ->
    receive env rq = Pending t ->
    transition (mkServer db ts) None (mkServer db (t :: ts))
| answers (env : Env) (rq : Request) (r : Response) (db : Store) (ts : list Task) :
    receive env rq = Done r ->
    transition (mkServer db ts) (Some r) (mkServer db ts)
| proceeds (env : Env) (db db' : Store) (ts1 ts2 : list Task) (t t' : Task) :
    step env db t = (db', Pending t') ->
    transition (mkServer db (ts1 ++ t :: ts2)) None (mkServer db' (ts1 ++ t' :: ts2))
| responds (env : Env) (db db' : Store) (ts1 ts2 : list Task) (t : Task) (r : Response) :
    step env db t = (db', Done r) ->
    transition (mkServer db (ts1 ++ t :: ts2)) (Some r) (mkServer db' (ts1 ++ ts2)).

(** The states of a server that starts with an empty table. *)
Inductive reachable `{Platform} : Server -> Prop :=
| at_start : reachable (mkServer [] [])
| after (sv sv' : Server) (sent : option Response) :
    reachable sv -> transition sv sent sv' -> reachable sv'.

(** ** What a stored round must satisfy *)

(** The commit of the round is the digest of its server seed and nonce. *)
Definition committed (r : Round.t) : Prop :=
  exists serverSeed,
    Round.serverSeed r = Some serverSeed /\
    serverSeed <> EmptyString /\ Round.nonce r <> EmptyString /\
    Round.commitHex r = generateCommit serverSeed (Round.nonce r).

(** The outcome stored with the round is the one that a new engine computes
    from the stored seeds and drop column. *)
Definition outcomeStored `{Platform} (r : Round.t) : Prop :=
  exists serverSeed clientSeed dropColumn engine result engine',
    Round.serverSeed r = Some serverSeed /\
    Round.clientSeed r = Some clientSeed /\ clientSeed <> EmptyString /\
    Round.dropColumn r = Some dropColumn /\ in_range dropColumn = true /\
    Round.combinedSeed r
    = Some (generateCombinedSeed serverSeed clientSeed (Round.nonce r)) /\
    createGameEngine (generateCombinedSeed serverSeed clientSeed (Round.nonce r))
    = Ok engine /\
    run engine dropColumn = Ok (result, engine') /\
    Round.pegMapHash r = Some (pegMapHash (pegMap engine)) /\
    Round.binIndex r = Some (binIndex result) /\
    Round.payoutMultiplier r = payoutMultiplier (binIndex result) /\
    Round.pathJson r = Some (stringifyPath (path result)).

Definition sound `{Platform} (r : Round.t) : Prop :=
  committed r /\
  (Round.status r = "CREATED"%string \/
   ((Round.status r = "STARTED"%string \/ Round.status r = "REVEALED"%string) /\
    outcomeStored r)).

(** From one store to a later one: every round is still there, with the
    nonce, the commit and the server seed it had, and a round that had left
    the status CREATED has not come back to it. *)
Definition keeps (db db' : Store) : Prop :=
  forall id r, findUnique db id = Some r ->
    exists r',
      findUnique db' id = Some r' /\
      Round.nonce r' = Round.nonce r /\
      Round.commitHex r' = Round.commitHex r /\
      Round.serverSeed r' = Round.serverSeed r /\
      (Round.status r <> "CREATED"%string -> Round.status r' <> "CREATED"%string).

(** What the local variables of a waiting handler satisfy. *)
Definition waits `{Platform} (db : Store) (t : Task) : Prop :=
  match t with
  | CommitCreate serverSeed nonce commitHex =>
      serverSeed <> EmptyString /\ nonce <> EmptyString /\
      commitHex = generateCommit serverSeed nonce
  | CommitRepair _ _ _ _ => False
  | StartFind _ body =>
      StartRound.clientSeed body <> EmptyString /\
      in_range (StartRound.dropColumn body) = true
  | StartUpdate id body combinedSeed hash result payout =>
      StartRound.clientSeed body <> EmptyString /\
      in_range (StartRound.dropColumn body) = true /\
      exists r serverSeed engine engine',
        findUnique db id = Some r /\
        Round.serverSeed r = Some serverSeed /\
        combinedSeed
        = generateCombinedSeed serverSeed (StartRound.clientSeed body) (Round.nonce r) /\
        createGameEngine combinedSeed = Ok engine /\
        run engine (StartRound.dropColumn body) = Ok (result, engine') /\
        hash = pegMapHash (pegMap engine) /\
        payout = payoutMultiplier (binIndex result)
  | RevealFind _ => True
  | RevealUpdate id _ =>
      exists r, findUnique db id = Some r /\ Round.status r <> "CREATED"%string
  | RoundFind _ => True
  end.

(** The invariant of the server. *)
Definition invariant `{Platform} (sv : Server) : Prop :=
  Forall sound (store sv) /\ Forall (waits (store sv)) (tasks sv).

(** ** An example to run the routes on

    A platform whose [Number] reads decimal digits and whose numbers print
    as [0.dddddd] without trailing zeros (the text of the numbers
    [N / 1000000] below 1), the values it supplies for one round, and a
    request body. *)

Fixpoint digitsValue (acc : Z) (s : string) : option Z :=
  match s with
  | EmptyString => Some acc
  | String c rest =>
      let n := Z.of_N (N_of_ascii c) in
      if (48 <=? n) && (n <=? 57) then digitsValue (10 * acc + (n - 48)) rest else None
  end.

Fixpoint digitsOf (n : nat) (z : Z) (k : string) : string :=
  match n with
  | O => k
  | S j => digitsOf j (z / 10) (String (ascii_of_N (Z.to_N (48 + z mod 10))) k)
  end.

Fixpoint stripZeros (s : string) : string :=
  match s with
  | EmptyString => EmptyString
  | String c rest =>
      match stripZeros rest with
      | EmptyString => if (N_of_ascii c =? 48)%N then EmptyString else String c EmptyString
      | r => String c r
      end
  end.

Definition sixDecimals (x : JS.number) : string :=
  ("0." ++ stripZeros (digitsOf 6 (decimals 6 x) EmptyString))%string.

(** [Number.isInteger] *)
Definition isInteger (x : JS.number) : bool :=
  match x with
  | S754_zero _ => true
  | S754_finite _ m e => (0 <=? e) || (Z.pos m mod 2 ^ (- e) =? 0)
  | _ => false
  end.

Definition examplePlatform : Platform :=
  {| zodInt := isInteger;
     prismaInt := fun n =>
       isInteger n && JS.leb (JS.of_Z (-2147483648)) n && JS.leb n (JS.of_Z 2147483647);
     toNumber := fun s =>
       match s, digitsValue 0 s with
       | String _ _, Some z => JS.of_Z z
       | _, _ => S754_nan
       end;
     numberToJSON := sixDecimals |}.

Definition exampleEnv : Env := mkEnv (repeat 171 32) (repeat 205 8) "round-1" 1767225600.

Definition exampleBody : option StartBody :=
  Some (mkStartBody (JSString "candidate-hello") (JSNumber (JS.of_Z 100))
                    (JSNumber (JS.of_Z 6))).

(** The store after the commit route has been served on an empty table. *)
Definition exampleCommitted : Store :=
  Eval vm_compute in fst (@serve examplePlatform exampleEnv [] PostCommit).

(** The store after the start route has been served on it. *)
Definition exampleStarted : Store :=
  Eval vm_compute in
    fst (@serve examplePlatform exampleEnv exampleCommitted (PostStart "round-1" exampleBody)).

(** The store and the response after the reveal route has been served on
    it. *)
Definition exampleRevealed : Store :=
  Eval vm_compute in
    fst (@serve examplePlatform exampleEnv exampleStarted (PostReveal "round-1")).

Definition exampleServerSeed : string := Eval vm_compute in toHex (randomBytes32 exampleEnv).

Definition exampleNonce : string := Eval vm_compute in toHex (randomBytes8 exampleEnv).

Definition exampleCommit : string :=
  Eval vm_compute in generateCommit exampleServerSeed exampleNonce.

Definition exampleCombined : string :=
  Eval vm_compute in generateCombinedSeed exampleServerSeed "candidate-hello" exampleNonce.

(** The round of the example when it is created, started and revealed. *)
Definition exampleRoundCreated : Round.t :=
  Eval vm_compute in newRound exampleEnv exampleServerSeed exampleNonce exampleCommit.

Definition exampleRoundStarted : Round.t :=
  Eval vm_compute in
    match findUnique exampleStarted "round-1" with
    | Some r => r
    | None => exampleRoundCreated
    end.

Definition exampleRoundRevealed : Round.t :=
  Eval vm_compute in revealData (now exampleEnv) exampleRoundStarted.

(** The body of the example, parsed, and a second one. *)
Definition exampleParsed : StartRound.t :=
  StartRound.mk "candidate-hello" (JS.of_Z 100) (JS.of_Z 6).

Definition exampleSecond : StartRound.t :=
  StartRound.mk "another-seed" (JS.of_Z 250) (JS.of_Z 3).

End Routes.

(** * Properties *)

(** ** 32-bit words *)

Lemma u32_range (z : Z) : 0 <= u32 z < 2 ^ 32.
Proof. unfold u32. apply Z.mod_pos_bound. lia. Qed.

Lemma u32_small (z : Z) : 0 <= z < 2 ^ 32 -> u32 z = z.
Proof. unfold u32. apply Z.mod_small. Qed.

Lemma u32_idem (z : Z) : u32 (u32 z) = u32 z.
Proof. apply u32_small, u32_range. Qed.

Lemma u32_lxor (a b : Z) : u32 (Z.lxor a b) = Z.lxor (u32 a) (u32 b).
Proof.
  unfold u32. rewrite <- !Z.land_ones by lia.
  apply Z.bits_inj'. intros n Hn.
  rewrite Z.land_spec, !Z.lxor_spec, !Z.land_spec.
  destruct (Z.testbit a n), (Z.testbit b n), (Z.testbit (Z.ones 32) n); reflexivity.
Qed.

Lemma u32_shiftl (a k : Z) : 0 <= k -> u32 (Z.shiftl (u32 a) k) = u32 (Z.shiftl a k).
Proof.
  intros Hk. unfold u32. rewrite !Z.shiftl_mul_pow2 by exact Hk.
  apply Z.mul_mod_idemp_l. lia.
Qed.

Lemma shiftr_u32_range (a k : Z) : 0 <= k -> 0 <= Z.shiftr (u32 a) k < 2 ^ 32.
Proof.
  intros Hk. pose proof (u32_range a) as [H0 H1].
  rewrite Z.shiftr_div_pow2 by exact Hk. split.
  - apply Z.div_pos; [exact H0 | apply Z.pow_pos_nonneg; lia].
  - apply Z.le_lt_trans with (u32 a); [|exact H1].
    apply Z.div_le_upper_bound; [apply Z.pow_pos_nonneg; lia|].
    assert (0 < 2 ^ k) by (apply Z.pow_pos_nonneg; lia). nia.
Qed.

Lemma ToUint32_u32 (z : Z) : JS.ToUint32 z = u32 z.
Proof. reflexivity. Qed.

Lemma ToInt32_u32 (z : Z) : u32 (JS.ToInt32 z) = u32 z.
Proof.
  unfold JS.ToInt32. fold (u32 z). pose proof (u32_range z).
  destruct (u32 z <? 2 ^ 31); [apply u32_idem|].
  unfold u32 at 1.
  replace (u32 z - 2 ^ 32) with (u32 z + (-1) * 2 ^ 32) by lia.
  rewrite Z.mod_add by lia. apply u32_idem.
Qed.

(** The operators of the language agree, modulo 2^32, with the operations
    on unsigned words. *)
Lemma u32_js_xor (x y : Z) : u32 (JS.xor x y) = Z.lxor (u32 x) (u32 y).
Proof. unfold JS.xor. now rewrite u32_lxor, !ToInt32_u32. Qed.

Lemma u32_js_shl (x k : Z) : 0 <= k -> u32 (JS.shl x k) = u32 (Z.shiftl (u32 x) k).
Proof.
  intros Hk. unfold JS.shl. rewrite ToInt32_u32.
  rewrite <- (u32_shiftl (JS.ToInt32 x)) by exact Hk.
  now rewrite ToInt32_u32.
Qed.

Lemma js_shru (x k : Z) : JS.shru x k = Z.shiftr (u32 x) k.
Proof. reflexivity. Qed.

Lemma js_shru_0 (x : Z) : JS.shru x 0 = u32 x.
Proof. rewrite js_shru. apply Z.shiftr_0_r. Qed.

Lemma xor_shl_u32 (k x : Z) : 0 <= k -> xor_shl k (u32 x) = xor_shl k x.
Proof.
  intros Hk. unfold xor_shl. rewrite !u32_lxor, u32_idem.
  now rewrite u32_shiftl.
Qed.

(** [advance] is the unsigned 32-bit xorshift of the state. *)
Lemma advance_xorshift32 (s : Z) : Xorshift32.advance s = xorshift32 (u32 s).
Proof.
  unfold Xorshift32.advance, xorshift32.
  rewrite js_shru_0, u32_js_xor, u32_js_shl by lia.
  set (x2 := JS.xor _ (JS.shru _ 17)).
  assert (H2 : u32 x2 = xor_shr 17 (xor_shl 13 (u32 s))).
  { subst x2. rewrite u32_js_xor, js_shru.
    set (x1 := JS.xor s (JS.shl s 13)).
    assert (H1 : u32 x1 = xor_shl 13 (u32 s)).
    { subst x1. rewrite u32_js_xor, u32_js_shl by lia.
      unfold xor_shl. now rewrite u32_lxor, !u32_idem. }
    rewrite H1. unfold xor_shr.
    rewrite u32_lxor.
    rewrite (u32_small (xor_shl 13 (u32 s))) by apply u32_range.
    reflexivity. }
  rewrite H2. clear H2 x2.
  set (y := xor_shr 17 (xor_shl 13 (u32 s))).
  unfold xor_shl. rewrite u32_lxor.
  rewrite (u32_small y) by apply u32_range.
  reflexivity.
Qed.

Lemma xorshift32_range (x : Z) : 0 <= xorshift32 x < 2 ^ 32.
Proof. apply u32_range. Qed.

Lemma advance_range (s : Z) : 0 <= Xorshift32.advance s < 2 ^ 32.
Proof. rewrite advance_xorshift32. apply xorshift32_range. Qed.

(** The constructor: the seed modulo 2^32, and 1 in place of 0. *)
Lemma new_state (seed : Z) :
  Xorshift32.state (Xorshift32.new seed) = if u32 seed =? 0 then 1 else u32 seed.
Proof.
  unfold Xorshift32.new. rewrite js_shru_0.
  now destruct (u32 seed =? 0).
Qed.

Lemma new_state_range (seed : Z) :
  1 <= Xorshift32.state (Xorshift32.new seed) < 2 ^ 32.
Proof.
  rewrite new_state. pose proof (u32_range seed).
  destruct (u32 seed =? 0) eqn:E; [lia|]. apply Z.eqb_neq in E. lia.
Qed.

(** ** Xorshift as a linear map over GF(2) *)

Ltac lxor_bits :=
  apply Z.bits_inj'; intros ?n ?Hn; rewrite ?Z.lxor_spec;
  repeat match goal with
         | |- context [Z.testbit ?a ?n] => destruct (Z.testbit a n)
         end;
  reflexivity.

Lemma lxor_swap (a b c d : Z) :
  Z.lxor (Z.lxor a b) (Z.lxor c d) = Z.lxor (Z.lxor a c) (Z.lxor b d).
Proof. lxor_bits. Qed.

Lemma xor_linear_0 (f : Z -> Z) : xor_linear f -> f 0 = 0.
Proof.
  intros Hf. specialize (Hf 0 0). rewrite Z.lxor_0_l in Hf.
  rewrite Hf at 1. apply Z.lxor_nilpotent.
Qed.

Lemma xor_linear_id : xor_linear (fun x => x).
Proof. intros a b; reflexivity. Qed.

Lemma xor_linear_compose (f g : Z -> Z) :
  xor_linear f -> xor_linear g -> xor_linear (fun x => f (g x)).
Proof. intros Hf Hg a b. now rewrite Hg, Hf. Qed.

Lemma xor_linear_lxor (f g : Z -> Z) :
  xor_linear f -> xor_linear g -> xor_linear (fun x => Z.lxor (f x) (g x)).
Proof. intros Hf Hg a b. rewrite Hf, Hg. apply lxor_swap. Qed.

Lemma xor_shl_linear (k : Z) : xor_linear (xor_shl k).
Proof.
  intros a b. unfold xor_shl.
  rewrite Z.shiftl_lxor, lxor_swap. apply u32_lxor.
Qed.

Lemma xor_shr_linear (k : Z) : xor_linear (xor_shr k).
Proof.
  intros a b. unfold xor_shr.
  rewrite Z.shiftr_lxor, lxor_swap. apply u32_lxor.
Qed.

Lemma xorshift32_linear : xor_linear xorshift32.
Proof.
  intros a b. unfold xorshift32.
  now rewrite xor_shl_linear, xor_shr_linear, xor_shl_linear.
Qed.

Lemma unxorshift32_linear : xor_linear unxorshift32.
Proof.
  intros a b. unfold unxorshift32.
  now rewrite !xor_shl_linear, xor_shr_linear, !xor_shl_linear.
Qed.

Lemma apply_columns_linear (cols : list Z) (i : Z) : xor_linear (apply_columns cols i).
Proof.
  revert i; induction cols as [|c cols IH]; intros i a b; cbn [apply_columns].
  - reflexivity.
  - rewrite IH, Z.lxor_spec, <- lxor_swap. f_equal.
    destruct (Z.testbit a i), (Z.testbit b i); cbn [xorb];
      rewrite ?Z.lxor_nilpotent, ?Z.lxor_0_l, ?Z.lxor_0_r; reflexivity.
Qed.

Lemma lxor_high_bit (y : Z) (n : Z) :
  0 <= n -> 0 <= y < 2 ^ n -> Z.lxor y (2 ^ n) = y + 2 ^ n.
Proof.
  intros Hn Hy. symmetry. apply Z.add_nocarry_lxor.
  apply Z.bits_inj'. intros m Hm. rewrite Z.land_spec, Z.bits_0.
  rewrite Z.pow2_bits_eqb by exact Hn.
  destruct (Z.eqb_spec n m) as [->|Hne]; [|apply andb_false_r].
  rewrite andb_true_r.
  destruct (Z.eq_dec y 0) as [->|Hy0]; [apply Z.bits_0|].
  apply Z.bits_above_log2; [lia|].
  apply Z.log2_lt_pow2; lia.
Qed.

(** Two linear maps that agree on the powers of two below [2^n] agree on
    every word below [2^n]. *)
Lemma linear_agree (f g : Z -> Z) :
  xor_linear f -> xor_linear g ->
  forall n : nat,
    (forall i, (i < n)%nat -> f (2 ^ Z.of_nat i) = g (2 ^ Z.of_nat i)) ->
    forall x, 0 <= x < 2 ^ Z.of_nat n -> f x = g x.
Proof.
  intros Hf Hg. induction n as [|n IH]; intros Hb x Hx.
  - assert (x = 0) by (cbn in Hx; lia). subst.
    now rewrite (xor_linear_0 f Hf), (xor_linear_0 g Hg).
  - rewrite Nat2Z.inj_succ, Z.pow_succ_r in Hx by lia.
    destruct (Z.lt_ge_cases x (2 ^ Z.of_nat n)) as [Hlt|Hge].
    + apply IH; [intros i Hi; apply Hb; lia | lia].
    + replace x with ((x - 2 ^ Z.of_nat n) + 2 ^ Z.of_nat n) by lia.
      rewrite <- lxor_high_bit by lia.
      rewrite Hf, Hg. f_equal.
      * apply IH; [intros i Hi; apply Hb; lia | lia].
      * apply Hb. lia.
Qed.

Lemma basis_checked (f g : Z -> Z) (n : nat) :
  forallb (fun i => f (2 ^ Z.of_nat i) =? g (2 ^ Z.of_nat i)) (seq 0 n) = true ->
  forall i, (i < n)%nat -> f (2 ^ Z.of_nat i) = g (2 ^ Z.of_nat i).
Proof.
  intros H i Hi. rewrite forallb_forall in H.
  apply Z.eqb_eq, H, in_seq. lia.
Qed.

Lemma unxorshift32_xorshift32 (x : Z) :
  0 <= x < 2 ^ 32 -> unxorshift32 (xorshift32 x) = x.
Proof.
  exact (linear_agree (fun x => unxorshift32 (xorshift32 x)) (fun x => x)
           (xor_linear_compose _ _ unxorshift32_linear xorshift32_linear)
           xor_linear_id 32
           (basis_checked (fun x => unxorshift32 (xorshift32 x)) (fun x => x) 32
              ltac:(vm_compute; reflexivity)) x).
Qed.

Lemma xorshift32_unxorshift32 (y : Z) :
  0 <= y < 2 ^ 32 -> xorshift32 (unxorshift32 y) = y.
Proof.
  exact (linear_agree (fun x => xorshift32 (unxorshift32 x)) (fun x => x)
           (xor_linear_compose _ _ xorshift32_linear unxorshift32_linear)
           xor_linear_id 32
           (basis_checked (fun x => xorshift32 (unxorshift32 x)) (fun x => x) 32
              ltac:(vm_compute; reflexivity)) y).
Qed.

Lemma xorshift32_injective (x y : Z) :
  0 <= x < 2 ^ 32 -> 0 <= y < 2 ^ 32 -> xorshift32 x = xorshift32 y -> x = y.
Proof.
  intros Hx Hy H.
  rewrite <- (unxorshift32_xorshift32 x Hx), <- (unxorshift32_xorshift32 y Hy).
  now rewrite H.
Qed.

Lemma xorshift32_zero : xorshift32 0 = 0.
Proof. reflexivity. Qed.

Lemma xorshift32_nonzero (x : Z) : 0 < x < 2 ^ 32 -> 0 < xorshift32 x < 2 ^ 32.
Proof.
  intros Hx. pose proof (xorshift32_range x) as Hr.
  destruct (Z.eq_dec (xorshift32 x) 0) as [E|E]; [|lia].
  exfalso. assert (x = 0); [|lia].
  apply xorshift32_injective; [lia | lia | now rewrite xorshift32_zero].
Qed.

(** No word other than 0 is mapped to itself. *)
Lemma xorshift32_fixpoint (x : Z) :
  0 <= x < 2 ^ 32 -> xorshift32 x = x -> x = 0.
Proof.
  intros Hx Hfix.
  pose (g := fun x => apply_columns fixpoint_columns 0 (Z.lxor x (xorshift32 x))).
  assert (Hg : xor_linear g).
  { apply (xor_linear_compose (apply_columns fixpoint_columns 0)
             (fun x => Z.lxor x (xorshift32 x))).
    - apply apply_columns_linear.
    - apply (xor_linear_lxor (fun x => x) xorshift32 xor_linear_id xorshift32_linear). }
  assert (Hid : g x = x).
  { exact (linear_agree g (fun x => x) Hg xor_linear_id 32
             (basis_checked g (fun x => x) 32 ltac:(vm_compute; reflexivity)) x Hx). }
  rewrite <- Hid. unfold g. rewrite Hfix, Z.lxor_nilpotent.
  reflexivity.
Qed.

(** The states of a generator stay nonzero 32-bit words. *)
Lemma iterate_advance_range (n : nat) (s : Z) :
  0 < s < 2 ^ 32 -> 0 < iterate n Xorshift32.advance s < 2 ^ 32.
Proof.
  revert s; induction n as [|n IH]; intros s Hs; cbn [iterate]; [exact Hs|].
  apply IH. rewrite advance_xorshift32, u32_small by lia.
  apply xorshift32_nonzero, Hs.
Qed.

Lemma skip_state (n : nat) (g : Xorshift32.t) :
  Xorshift32.state (skip n g) = iterate n Xorshift32.advance (Xorshift32.state g).
Proof.
  revert g; induction n as [|n IH]; intros g; cbn [skip iterate]; [reflexivity|].
  now rewrite IH.
Qed.

(** ** Binary64 rounding *)

Lemma digits2_size (p : positive) : digits2_pos p = Pos.size p.
Proof. induction p as [p IH|p IH|]; cbn; now rewrite ?IH. Qed.

Lemma Zdigits2_bounds (m : Z) :
  0 < m -> 2 ^ (Zdigits2 m - 1) <= m < 2 ^ Zdigits2 m.
Proof.
  destruct m as [|p|p]; try lia. intros _. cbn [Zdigits2].
  rewrite digits2_size. split.
  - pose proof (Pos.size_le p) as H.
    assert (E : Z.pos (2 ^ Pos.size p) = 2 * 2 ^ (Z.pos (Pos.size p) - 1)).
    { rewrite Pos2Z.inj_pow. rewrite <- Z.pow_succ_r by lia. f_equal. lia. }
    apply Pos2Z.pos_le_pos in H. rewrite E in H. lia.
  - pose proof (Pos.size_gt p) as H.
    apply Pos2Z.pos_lt_pos in H. now rewrite Pos2Z.inj_pow in H.
Qed.

Lemma Zdigits2_pos (m : Z) : 0 < m -> 0 < Zdigits2 m.
Proof. destruct m; cbn; lia. Qed.

Lemma Zdigits2_unique (m d : Z) :
  2 ^ (d - 1) <= m < 2 ^ d -> 0 < m -> Zdigits2 m = d.
Proof.
  intros [Hlo Hhi] Hm.
  pose proof (Zdigits2_bounds m Hm) as [Hl Hh].
  pose proof (Zdigits2_pos m Hm) as Hd.
  assert (0 < d).
  { destruct (Z.lt_ge_cases 0 d) as [|Hn]; [assumption|].
    destruct (Z.eq_dec d 0) as [->|]; [cbn in Hhi; lia|].
    rewrite Z.pow_neg_r in Hhi by lia. lia. }
  destruct (Z.lt_trichotomy (Zdigits2 m) d) as [Hlt|[Heq|Hgt]]; [|exact Heq|].
  - assert (2 ^ Zdigits2 m <= 2 ^ (d - 1)) by (apply Z.pow_le_mono_r; lia). lia.
  - assert (2 ^ d <= 2 ^ (Zdigits2 m - 1)) by (apply Z.pow_le_mono_r; lia). lia.
Qed.

Lemma Zdigits2_mul_pow2 (m k : Z) :
  0 < m -> 0 <= k -> Zdigits2 (m * 2 ^ k) = Zdigits2 m + k.
Proof.
  intros Hm Hk. pose proof (Zdigits2_bounds m Hm) as [Hl Hh].
  pose proof (Zdigits2_pos m Hm) as Hd.
  assert (0 < 2 ^ k) by (apply Z.pow_pos_nonneg; lia).
  apply Zdigits2_unique; [|nia].
  replace (Zdigits2 m + k - 1) with ((Zdigits2 m - 1) + k) by lia.
  rewrite !Z.pow_add_r by lia. nia.
Qed.

(** *** Shifting right with a round bit and a sticky bit *)

Lemma shr_1_nonneg (m : Z) (r s : bool) :
  0 <= m ->
  shr_1 (Build_shr_record m r s) = Build_shr_record (m / 2) (Z.odd m) (r || s).
Proof.
  intros Hm. destruct m as [|p|p]; [reflexivity| |lia].
  destruct p as [p|p|]; cbn [shr_1]; rewrite <- Z.div2_div; reflexivity.
Qed.

Lemma iter_pos_nat {A : Type} (f : A -> A) (p : positive) (x : A) :
  iter_pos f p x = Nat.iter (Pos.to_nat p) f x.
Proof.
  revert x; induction p as [p IH|p IH|]; intros x; cbn [iter_pos].
  - rewrite !IH, Pos2Nat.inj_xI.
    replace (S (2 * Pos.to_nat p)) with (Pos.to_nat p + (Pos.to_nat p + 1))%nat by lia.
    rewrite !Nat.iter_add. reflexivity.
  - rewrite !IH, Pos2Nat.inj_xO.
    replace (2 * Pos.to_nat p)%nat with (Pos.to_nat p + Pos.to_nat p)%nat by lia.
    rewrite Nat.iter_add. reflexivity.
  - reflexivity.
Qed.

(** After [k + 1] shifts: the quotient, the last bit shifted out, and whether
    anything below it (or the bits given at the start) was set. *)
Lemma shr_iter (k : nat) (m : Z) (r s : bool) :
  0 <= m ->
  Nat.iter (S k) shr_1 (Build_shr_record m r s)
  = Build_shr_record (m / 2 ^ (Z.of_nat k + 1))
                     (Z.odd (m / 2 ^ Z.of_nat k))
                     (r || s || negb (m mod 2 ^ Z.of_nat k =? 0)).
Proof.
  intros Hm. induction k as [|k IH].
  - cbn [Nat.iter]. rewrite shr_1_nonneg by exact Hm.
    cbn [Z.of_nat Z.add]. rewrite Z.pow_0_r, Z.pow_1_r, Z.div_1_r, Z.mod_1_r.
    cbn. now rewrite orb_false_r.
  - rewrite Nat.iter_succ, IH.
    assert (Hp : 0 < 2 ^ Z.of_nat k) by (apply Z.pow_pos_nonneg; lia).
    assert (Hp1 : 0 < 2 ^ (Z.of_nat k + 1)) by (apply Z.pow_pos_nonneg; lia).
    rewrite shr_1_nonneg by (apply Z.div_pos; lia).
    rewrite Nat2Z.inj_succ. unfold Z.succ.
    f_equal.
    + rewrite Z.div_div by lia.
      now rewrite (Z.pow_add_r 2 (Z.of_nat k + 1) 1), Z.pow_1_r by lia.
    + assert (E : negb (m mod 2 ^ (Z.of_nat k + 1) =? 0)
                  = Z.odd (m / 2 ^ Z.of_nat k) || negb (m mod 2 ^ Z.of_nat k =? 0)).
      { rewrite (Z.pow_add_r 2 (Z.of_nat k) 1), Z.pow_1_r by lia.
        rewrite Z.rem_mul_r by lia.
        pose proof (Z.mod_pos_bound m (2 ^ Z.of_nat k) Hp) as Hr.
        pose proof (Z.bit0_mod (m / 2 ^ Z.of_nat k)) as Hb.
        rewrite Z.bit0_odd in Hb. rewrite <- Hb.
        destruct (Z.odd (m / 2 ^ Z.of_nat k)); cbn [Z.b2z orb].
        - apply negb_true_iff, Z.eqb_neq. lia.
        - now rewrite Z.mul_0_r, Z.add_0_r. }
      rewrite E.
      destruct r, s, (Z.odd (m / 2 ^ Z.of_nat k)), (negb (m mod 2 ^ Z.of_nat k =? 0));
        reflexivity.
Qed.

(** *** Rounding to nearest, ties to even, on integers *)

Section Rne.

Variables m n : Z.
Hypothesis Hm : 0 <= m.
Hypothesis Hn : 1 <= n.

Local Lemma half_pos : 0 < 2 ^ (n - 1).
Proof. apply Z.pow_pos_nonneg; lia. Qed.

Local Lemma pow_n : 2 ^ n = 2 * 2 ^ (n - 1).
Proof. rewrite <- Z.pow_succ_r by lia. f_equal. lia. Qed.

Local Lemma div_mod_n :
  m = 2 * 2 ^ (n - 1) * (m / 2 ^ n) + m mod 2 ^ n /\
  0 <= m mod 2 ^ n < 2 * 2 ^ (n - 1).
Proof.
  pose proof half_pos. rewrite pow_n. split.
  - apply Z.div_mod. lia.
  - apply Z.mod_pos_bound. lia.
Qed.

Lemma rne_cases :
  (rne m n = m / 2 ^ n /\ m mod 2 ^ n <= 2 ^ (n - 1)) \/
  (rne m n = m / 2 ^ n + 1 /\ 2 ^ (n - 1) <= m mod 2 ^ n).
Proof.
  unfold rne.
  destruct (Z.ltb_spec (m mod 2 ^ n) (2 ^ (n - 1))); [left; lia|].
  destruct (Z.ltb_spec (2 ^ (n - 1)) (m mod 2 ^ n)); [right; lia|].
  destruct (Z.even (m / 2 ^ n)); [left|right]; lia.
Qed.

Lemma rne_near :
  2 * 2 ^ (n - 1) * rne m n - 2 ^ (n - 1) <= m
  <= 2 * 2 ^ (n - 1) * rne m n + 2 ^ (n - 1).
Proof.
  destruct div_mod_n as [E Hr]. pose proof half_pos.
  destruct rne_cases as [[-> H1]|[-> H1]]; lia.
Qed.

Lemma rne_upper (k : Z) : 2 * m < (2 * k + 1) * 2 ^ n -> rne m n <= k.
Proof. rewrite pow_n. pose proof rne_near. pose proof half_pos. nia. Qed.

Lemma rne_lower (k : Z) : (2 * k - 1) * 2 ^ n < 2 * m -> k <= rne m n.
Proof. rewrite pow_n. pose proof rne_near. pose proof half_pos. nia. Qed.

Lemma rne_exact (k : Z) : m = k * 2 ^ n -> rne m n = k.
Proof.
  intros E. pose proof half_pos. unfold rne.
  assert (Hq : m / 2 ^ n = k) by (subst m; apply Z.div_mul; rewrite pow_n; lia).
  assert (Hr : m mod 2 ^ n = 0) by (subst m; apply Z.mod_mul; rewrite pow_n; lia).
  rewrite Hq, Hr. destruct (Z.ltb_spec 0 (2 ^ (n - 1))); [reflexivity | lia].
Qed.

Lemma rne_tie (q : Z) :
  m = 2 * 2 ^ (n - 1) * q + 2 ^ (n - 1) -> rne m n = if Z.even q then q else q + 1.
Proof.
  intros E. pose proof half_pos. unfold rne.
  assert (Hq : m / 2 ^ n = q).
  { rewrite pow_n. symmetry.
    apply (Z.div_unique m (2 * 2 ^ (n - 1)) q (2 ^ (n - 1))); lia. }
  assert (Hr : m mod 2 ^ n = 2 ^ (n - 1)).
  { rewrite pow_n. symmetry.
    apply (Z.mod_unique m (2 * 2 ^ (n - 1)) q (2 ^ (n - 1))); lia. }
  rewrite Hq, Hr, !Z.ltb_irrefl. reflexivity.
Qed.

Lemma rne_upper_tie (k : Z) :
  2 * m = (2 * k + 1) * 2 ^ n -> Z.even k = true -> rne m n = k.
Proof.
  rewrite pow_n. intros E Hk. rewrite (rne_tie k) by nia. now rewrite Hk.
Qed.

Lemma rne_lower_tie (k : Z) :
  2 * m = (2 * k - 1) * 2 ^ n -> Z.even k = true -> rne m n = k.
Proof.
  rewrite pow_n. intros E Hk. rewrite (rne_tie (k - 1)) by nia.
  replace (k - 1) with (Z.pred k) by lia.
  rewrite Z.even_pred, <- Z.negb_even, Hk. cbn. lia.
Qed.

(** What the round bit and the sticky bit decide is [rne]. *)
Lemma round_shr_exact :
  round_nearest_even
    (shr_m (Nat.iter (Z.to_nat n) shr_1 (Build_shr_record m false false)))
    (loc_of_shr_record (Nat.iter (Z.to_nat n) shr_1 (Build_shr_record m false false)))
  = rne m n.
Proof.
  replace (Z.to_nat n) with (S (Z.to_nat (n - 1))) by lia.
  rewrite shr_iter by exact Hm.
  rewrite Z2Nat.id by lia. replace (n - 1 + 1) with n by lia.
  cbn [orb shr_m].
  destruct div_mod_n as [E Hr]. pose proof half_pos as HP.
  set (P := 2 ^ (n - 1)) in *.
  assert (Hsplit : m mod 2 ^ n = m mod P + P * ((m / P) mod 2)).
  { rewrite pow_n. fold P. rewrite (Z.mul_comm 2 P). apply Z.rem_mul_r; lia. }
  pose proof (Z.mod_pos_bound m P HP) as HrP.
  pose proof (Z.bit0_mod (m / P)) as Hb. rewrite Z.bit0_odd in Hb.
  rewrite <- Hb in Hsplit. unfold rne. fold P. rewrite Hsplit.
  destruct (Z.odd (m / P)); cbn [Z.b2z loc_of_shr_record].
  - destruct (Z.eqb_spec (m mod P) 0) as [E0|E0]; cbn [negb loc_of_shr_record round_nearest_even].
    + rewrite E0. replace (0 + P * 1) with P by lia. now rewrite !Z.ltb_irrefl.
    + destruct (Z.ltb_spec (m mod P + P * 1) P); [lia|].
      destruct (Z.ltb_spec P (m mod P + P * 1)); [reflexivity | lia].
  - destruct (Z.ltb_spec (m mod P + P * 0) P); [|lia].
    now destruct (negb (m mod P =? 0)).
Qed.

End Rne.

Lemma round_nearest_even_bounds (x : Z) (l : location) :
  x <= round_nearest_even x l <= x + 1.
Proof. destruct l as [|[]]; cbn; try lia. destruct (Z.even x); lia. Qed.

Lemma loc_of_record_of_loc (m : Z) (l : location) :
  loc_of_shr_record (shr_record_of_loc m l) = l /\ shr_m (shr_record_of_loc m l) = m.
Proof. destruct l as [|[]]; split; reflexivity. Qed.

Lemma shr_iter_m (k : nat) (rec : shr_record) :
  0 <= shr_m rec -> shr_m (Nat.iter k shr_1 rec) = shr_m rec / 2 ^ Z.of_nat k.
Proof.
  intros H. destruct k as [|k]; [cbn; now rewrite Z.div_1_r|].
  destruct rec as [m r s]. cbn [shr_m] in H. rewrite shr_iter by exact H.
  cbn [shr_m]. f_equal. f_equal. lia.
Qed.

(** *** [binary_round_aux] in the normal range *)

Lemma fexp_normal (x : Z) : -1074 <= x - 53 -> fexp 53 1024 x = x - 53.
Proof. unfold fexp, emin. lia. Qed.

Lemma shr_fexp_normal (m e : Z) (l : location) :
  0 < m -> -1074 <= Zdigits2 m + e - 53 ->
  shr_fexp 53 1024 m e l
  = if Zdigits2 m - 53 <=? 0 then (shr_record_of_loc m l, e)
    else (Nat.iter (Z.to_nat (Zdigits2 m - 53)) shr_1 (shr_record_of_loc m l),
          e + (Zdigits2 m - 53)).
Proof.
  intros Hm Hr. unfold shr_fexp. rewrite fexp_normal by exact Hr.
  replace (Zdigits2 m + e - 53 - e) with (Zdigits2 m - 53) by lia.
  unfold shr. destruct (Zdigits2 m - 53) as [|p|p] eqn:E; try reflexivity.
  destruct (Z.leb_spec (Z.pos p) 0); [lia|].
  now rewrite iter_pos_nat.
Qed.

Lemma first_round_bounds (m e : Z) (l : location) :
  0 < m -> 53 <= Zdigits2 m -> -1074 <= Zdigits2 m + e - 53 ->
  let n := Zdigits2 m - 53 in
  snd (first_round m e l) = e + n /\
  m / 2 ^ n <= fst (first_round m e l) <= m / 2 ^ n + 1 /\
  2 ^ 52 <= m / 2 ^ n < 2 ^ 53.
Proof.
  intros Hm Hd Hr n. unfold first_round. rewrite shr_fexp_normal by assumption.
  fold n. pose proof (Zdigits2_bounds m Hm) as [Hlo Hhi].
  assert (Hpn : 0 < 2 ^ n) by (apply Z.pow_pos_nonneg; lia).
  assert (Hq : 2 ^ 52 <= m / 2 ^ n < 2 ^ 53).
  { replace (Zdigits2 m - 1) with (52 + n) in Hlo by lia.
    replace (Zdigits2 m) with (53 + n) in Hhi by lia.
    rewrite Z.pow_add_r in Hlo, Hhi by lia. split.
    - apply Z.div_le_lower_bound; lia.
    - apply Z.div_lt_upper_bound; lia. }
  destruct (Z.leb_spec n 0) as [Hn|Hn].
  - assert (n = 0) by lia. cbn [fst snd].
    destruct (loc_of_record_of_loc m l) as [-> ->].
    replace n with 0 in * by lia. rewrite Z.pow_0_r, Z.div_1_r in *.
    split; [lia|]. split; [apply round_nearest_even_bounds | exact Hq].
  - cbn [fst snd]. split; [reflexivity|]. split; [|exact Hq].
    set (rec := Nat.iter (Z.to_nat n) shr_1 (shr_record_of_loc m l)).
    assert (E : shr_m rec = m / 2 ^ n).
    { subst rec. destruct (loc_of_record_of_loc m l) as [_ E0].
      rewrite shr_iter_m by (rewrite E0; lia).
      now rewrite Z2Nat.id, E0 by lia. }
    rewrite <- E. apply round_nearest_even_bounds.
Qed.

Lemma first_round_exact (m e : Z) :
  0 < m -> 54 <= Zdigits2 m -> -1074 <= Zdigits2 m + e - 53 ->
  first_round m e loc_Exact = (rne m (Zdigits2 m - 53), e + (Zdigits2 m - 53)).
Proof.
  intros Hm Hd Hr. unfold first_round. rewrite shr_fexp_normal by assumption.
  destruct (Z.leb_spec (Zdigits2 m - 53) 0); [lia|].
  cbn [shr_record_of_loc]. f_equal. apply round_shr_exact; lia.
Qed.

Lemma first_round_short (m e : Z) (l : location) :
  0 < m -> Zdigits2 m <= 53 -> -1074 <= Zdigits2 m + e - 53 ->
  first_round m e l = (round_nearest_even m l, e).
Proof.
  intros Hm Hd Hr. unfold first_round. rewrite shr_fexp_normal by assumption.
  destruct (Z.leb_spec (Zdigits2 m - 53) 0); [|lia].
  now destruct (loc_of_record_of_loc m l) as [-> ->].
Qed.

(** The second shift: nothing for a 53-bit mantissa, one exact shift for 2^53. *)
Lemma second_shift (q e : Z) :
  2 ^ 52 <= q <= 2 ^ 53 -> -1074 <= e ->
  shr_fexp 53 1024 q e loc_Exact
  = if q <? 2 ^ 53 then (Build_shr_record q false false, e)
    else (Build_shr_record (2 ^ 52) false false, e + 1).
Proof.
  intros Hq He.
  destruct (Z.ltb_spec q (2 ^ 53)) as [Hlt|Hge].
  - assert (Hd : Zdigits2 q = 53) by (apply Zdigits2_unique; lia).
    rewrite shr_fexp_normal by lia. rewrite Hd. reflexivity.
  - assert (q = 9007199254740992) by lia. subst q.
    rewrite shr_fexp_normal by (change (Zdigits2 9007199254740992) with 54; lia).
    reflexivity.
Qed.

Lemma binary_round_aux_unfold (s : bool) (m e : Z) (l : location) :
  binary_round_aux 53 1024 s m e l
  = let '(q1, e1) := first_round m e l in
    let '(rec, e2) := shr_fexp 53 1024 q1 e1 loc_Exact in
    match shr_m rec with
    | 0 => S754_zero s
    | Z.pos p => if e2 <=? 1024 - 53 then S754_finite s p e2 else S754_infinity s
    | Z.neg _ => S754_nan
    end.
Proof.
  unfold binary_round_aux, first_round.
  destruct (shr_fexp 53 1024 m e l) as [rec1 e1]. reflexivity.
Qed.

(** The result of [binary_round_aux] on a mantissa of at least 53 bits, in
    the normal range: a normal number whose exponent is that of the input
    mantissa cut to 53 bits, or one more with mantissa 2^52 when rounding
    carries. *)
Lemma binary_round_aux_normal (s : bool) (m e : Z) (l : location) :
  0 < m -> 53 <= Zdigits2 m ->
  -1074 <= Zdigits2 m + e - 53 -> Zdigits2 m + e <= 1023 ->
  exists (q : positive) (e' : Z),
    binary_round_aux 53 1024 s m e l = S754_finite s q e' /\
    normal q e' /\
    ((e' = e + Zdigits2 m - 53 /\
      m / 2 ^ (Zdigits2 m - 53) <= Z.pos q <= m / 2 ^ (Zdigits2 m - 53) + 1 /\
      Z.pos q = fst (first_round m e l)) \/
     (e' = e + Zdigits2 m - 52 /\ Z.pos q = 2 ^ 52 /\
      fst (first_round m e l) = 2 ^ 53)).
Proof.
  intros Hm Hd Hr Ho.
  destruct (first_round_bounds m e l Hm Hd Hr) as (He1 & Hq1 & Hq0).
  rewrite binary_round_aux_unfold.
  destruct (first_round m e l) as [q1 e1]. cbn [fst snd] in *.
  rewrite second_shift by lia.
  destruct (Z.ltb_spec q1 (2 ^ 53)) as [Hlt|Hge]; cbn [shr_m].
  - destruct q1 as [|q|q]; try lia.
    destruct (Z.leb_spec e1 (1024 - 53)); [|lia].
    exists q, e1. split; [reflexivity|]. split; [split; lia|].
    left. split; [lia|]. split; [lia | reflexivity].
  - change (2 ^ 52) with (Z.pos 4503599627370496).
    destruct (Z.leb_spec (e1 + 1) (1024 - 53)); [|lia].
    exists 4503599627370496%positive, (e1 + 1). split; [reflexivity|].
    split; [split; lia|]. right. split; [lia|]. split; [reflexivity | lia].
Qed.

(** With an exact input the result is [round_pair]. *)
Lemma binary_round_aux_exact (s : bool) (m e : Z) :
  0 < m -> 53 <= Zdigits2 m ->
  -1074 <= Zdigits2 m + e - 53 -> Zdigits2 m + e <= 1023 ->
  exists (q : positive) (e' : Z),
    binary_round_aux 53 1024 s m e loc_Exact = S754_finite s q e' /\
    normal q e' /\ round_pair m e = (Z.pos q, e').
Proof.
  intros Hm Hd Hr Ho.
  destruct (binary_round_aux_normal s m e loc_Exact Hm Hd Hr Ho)
    as (q & e' & Hres & Hnorm & Hcase).
  exists q, e'. split; [exact Hres|]. split; [exact Hnorm|].
  unfold round_pair.
  destruct (Z.leb_spec (Zdigits2 m - 53) 0) as [Hn|Hn].
  - rewrite first_round_short in Hcase by (assumption || lia). cbn [fst round_nearest_even] in Hcase.
    destruct Hnorm as [Hq _].
    destruct Hcase as [(E1 & _ & E2)|(_ & _ & E2)].
    + f_equal; lia.
    + subst m. change (Zdigits2 (2 ^ 53)) with 54 in Hn. lia.
  - rewrite first_round_exact in Hcase by (assumption || lia). cbn [fst] in Hcase.
    destruct Hnorm as [Hq _].
    destruct Hcase as [(E1 & _ & E2)|(E1 & E2 & E3)].
    + rewrite <- E2. destruct (Z.ltb_spec (Z.pos q) (2 ^ 53)); [|lia]. f_equal; lia.
    + rewrite E3. rewrite Z.ltb_irrefl. f_equal; lia.
Qed.

(** *** Normalising, then rounding *)

Lemma iter_xO (p d : positive) : Z.pos (Pos.iter xO p d) = Z.pos p * 2 ^ Z.pos d.
Proof.
  induction d as [|d IH] using Pos.peano_ind.
  - cbn. lia.
  - rewrite Pos.iter_succ, Pos2Z.inj_xO, IH, Pos2Z.inj_succ, Z.pow_succ_r by lia. lia.
Qed.

Lemma binary_round_norm (s : bool) (mx : positive) (ex : Z) :
  -1074 <= Zdigits2 (Z.pos mx) + ex - 53 ->
  binary_round 53 1024 s mx ex
  = binary_round_aux 53 1024 s (fst (norm_pair (Z.pos mx) ex))
                     (snd (norm_pair (Z.pos mx) ex)) loc_Exact.
Proof.
  intros Hr. unfold binary_round, norm_pair, shl_align.
  change (Z.pos (digits2_pos mx)) with (Zdigits2 (Z.pos mx)).
  rewrite fexp_normal by exact Hr.
  destruct (Zdigits2 (Z.pos mx) + ex - 53 - ex) as [|p|p] eqn:E.
  - destruct (Z.ltb_spec (Zdigits2 (Z.pos mx)) 53); [lia | reflexivity].
  - destruct (Z.ltb_spec (Zdigits2 (Z.pos mx)) 53); [lia | reflexivity].
  - destruct (Z.ltb_spec (Zdigits2 (Z.pos mx)) 53); [|lia].
    cbn [fst snd]. rewrite iter_xO.
    replace (53 - Zdigits2 (Z.pos mx)) with (Z.pos p) by lia.
    f_equal. lia.
Qed.

Lemma norm_pair_digits (m e : Z) :
  0 < m -> 53 <= Zdigits2 (fst (norm_pair m e)) /\ 0 < fst (norm_pair m e) /\
           Zdigits2 (fst (norm_pair m e)) + snd (norm_pair m e)
           = Z.max 53 (Zdigits2 m) + (e - Z.max 0 (53 - Zdigits2 m)).
Proof.
  intros Hm. unfold norm_pair. pose proof (Zdigits2_pos m Hm).
  destruct (Z.ltb_spec (Zdigits2 m) 53); cbn [fst snd].
  - rewrite Zdigits2_mul_pow2 by lia.
    assert (0 < 2 ^ (53 - Zdigits2 m)) by (apply Z.pow_pos_nonneg; lia).
    split; [lia|]. split; [nia | lia].
  - split; [lia|]. split; [lia | lia].
Qed.

Lemma round_pair_short (m e : Z) : Zdigits2 m = 53 -> round_pair m e = (m, e).
Proof. intros H. unfold round_pair. now rewrite H. Qed.

(** The number denoted by an integer below 2^53 is that integer. *)
Lemma of_Z_normal (z : Z) :
  0 < z < 2 ^ 53 ->
  exists q : positive,
    JS.of_Z z = S754_finite false q (Zdigits2 z - 53) /\
    Z.pos q = z * 2 ^ (53 - Zdigits2 z) /\
    normal q (Zdigits2 z - 53).
Proof.
  intros Hz. pose proof (Zdigits2_bounds z ltac:(lia)) as [Hlo Hhi].
  pose proof (Zdigits2_pos z ltac:(lia)) as Hd.
  assert (Hd53 : Zdigits2 z <= 53).
  { destruct (Z.le_gt_cases (Zdigits2 z) 53); [assumption|].
    assert (2 ^ 53 <= 2 ^ (Zdigits2 z - 1)) by (apply Z.pow_le_mono_r; lia). lia. }
  destruct z as [|p|p]; try lia.
  unfold JS.of_Z, binary_normalize, JS.prec, JS.emax.
  rewrite binary_round_norm by lia.
  set (np := norm_pair (Z.pos p) 0).
  assert (Hnp : np = (Z.pos p * 2 ^ (53 - Zdigits2 (Z.pos p)), Zdigits2 (Z.pos p) - 53)).
  { subst np. unfold norm_pair.
    destruct (Z.ltb_spec (Zdigits2 (Z.pos p)) 53); [f_equal; lia|].
    replace (Zdigits2 (Z.pos p)) with 53 by lia. cbn [Z.sub Z.opp Z.add Z.pos_sub].
    f_equal. lia. }
  rewrite Hnp; cbn [fst snd].
  assert (Hdm : Zdigits2 (Z.pos p * 2 ^ (53 - Zdigits2 (Z.pos p))) = 53)
    by (rewrite Zdigits2_mul_pow2 by lia; lia).
  assert (0 < 2 ^ (53 - Zdigits2 (Z.pos p))) by (apply Z.pow_pos_nonneg; lia).
  destruct (binary_round_aux_exact false (Z.pos p * 2 ^ (53 - Zdigits2 (Z.pos p)))
              (Zdigits2 (Z.pos p) - 53)) as (q & e' & Hres & Hnorm & Hrp);
    [nia | lia | lia | lia |].
  rewrite round_pair_short in Hrp by exact Hdm.
  injection Hrp as Hq He. subst e'.
  exists q. split; [exact Hres|]. split; [symmetry; exact Hq | exact Hnorm].
Qed.

(** *** Bounds through rounding *)

Lemma round_pair_cases (m e : Z) :
  0 < m -> 53 <= Zdigits2 m ->
  let n := Zdigits2 m - 53 in
  (n = 0 /\ round_pair m e = (m, e)) \/
  (1 <= n /\ 2 ^ 52 <= rne m n < 2 ^ 53 /\ round_pair m e = (rne m n, e + n)) \/
  (1 <= n /\ rne m n = 2 ^ 53 /\ round_pair m e = (2 ^ 52, e + n + 1)).
Proof.
  intros Hm Hd n. unfold round_pair. fold n.
  destruct (Z.leb_spec n 0) as [Hn|Hn]; [left; split; [lia | reflexivity]|].
  right. pose proof (Zdigits2_bounds m Hm) as [Hlo Hhi].
  replace (Zdigits2 m - 1) with (52 + n) in Hlo by lia.
  replace (Zdigits2 m) with (53 + n) in Hhi by lia.
  rewrite Z.pow_add_r in Hlo, Hhi by lia.
  assert (Hpn : 0 < 2 ^ n) by (apply Z.pow_pos_nonneg; lia).
  assert (H1 : 2 ^ 52 <= rne m n) by (apply rne_lower; lia).
  assert (H2 : rne m n <= 2 ^ 53) by (apply rne_upper; lia).
  destruct (Z.ltb_spec (rne m n) (2 ^ 53)); [left | right];
    (split; [lia|]); split; (lia || reflexivity).
Qed.

Section Bracket.

Variables m e mb eb c : Z.
Hypothesis Hm : 0 < m.
Hypothesis Hd : 53 <= Zdigits2 m.
Hypothesis Hce : c <= e.
Hypothesis Hcb : c <= eb.

Local Lemma m_range :
  2 ^ 52 * 2 ^ (Zdigits2 m - 53) <= m < 2 ^ 53 * 2 ^ (Zdigits2 m - 53).
Proof.
  pose proof (Zdigits2_bounds m Hm) as [Hlo Hhi].
  assert (E1 : 2 ^ (Zdigits2 m - 1) = 2 ^ 52 * 2 ^ (Zdigits2 m - 53))
    by (rewrite <- Z.pow_add_r by lia; f_equal; lia).
  assert (E2 : 2 ^ Zdigits2 m = 2 ^ 53 * 2 ^ (Zdigits2 m - 53))
    by (rewrite <- Z.pow_add_r by lia; f_equal; lia).
  lia.
Qed.

Local Lemma scale_pos :
  0 < 2 ^ (e - c) /\ 0 < 2 ^ (eb - c) /\ 0 < 2 ^ (Zdigits2 m - 53).
Proof. repeat split; apply Z.pow_pos_nonneg; lia. Qed.

(** A value below the midpoint above [(mb, eb)], or at it when [mb] is even,
    rounds to at most [(mb, eb)]. *)
Lemma round_pair_upper :
  2 ^ 52 <= mb < 2 ^ 53 ->
  2 * m * 2 ^ (e - c) <= (2 * mb + 1) * 2 ^ (eb - c) ->
  (2 * m * 2 ^ (e - c) = (2 * mb + 1) * 2 ^ (eb - c) -> Z.even mb = true) ->
  le_pair (round_pair m e) (mb, eb).
Proof.
  intros Hmb H Htie. pose proof m_range as Hmr.
  destruct scale_pos as (HA & HB & Hn).
  pose proof (round_pair_cases m e Hm Hd) as Hc. cbv zeta in Hc.
  set (n := Zdigits2 m - 53) in *. assert (H0n : 0 <= n) by (unfold n; lia).
  destruct (Z.lt_trichotomy (e + n) eb) as [Hlt|[Heq|Hgt]].
  - destruct Hc as [(_ & ->)|[(_ & _ & ->)|(_ & _ & ->)]];
      unfold le_pair; cbn [fst snd]; lia.
  - assert (EB : 2 ^ (eb - c) = 2 ^ n * 2 ^ (e - c)).
    { rewrite <- Z.pow_add_r by lia. f_equal. lia. }
    rewrite EB in H, Htie.
    assert (H' : 2 * m <= (2 * mb + 1) * 2 ^ n) by nia.
    assert (Htie' : 2 * m = (2 * mb + 1) * 2 ^ n -> Z.even mb = true)
      by (intros E; apply Htie; nia).
    destruct Hc as [(E0 & ->)|[(H1 & Hr & ->)|(H1 & Hr & ->)]];
      unfold le_pair; cbn [fst snd]; right.
    + rewrite E0, Z.pow_0_r in *. lia.
    + split; [lia|].
      destruct (Z.eq_dec (2 * m) ((2 * mb + 1) * 2 ^ n)) as [E|E].
      * assert (Hk : rne m n = mb) by (apply rne_upper_tie; try lia; auto). lia.
      * apply rne_upper; lia.
    + exfalso.
      destruct (Z.eq_dec (2 * m) ((2 * mb + 1) * 2 ^ n)) as [E|E].
      * assert (Hk : rne m n = mb) by (apply rne_upper_tie; try lia; auto). lia.
      * assert (rne m n <= mb) by (apply rne_upper; lia). lia.
  - exfalso.
    assert (EA : 2 ^ (e - c) * 2 ^ n = 2 ^ (e + n - eb) * 2 ^ (eb - c)).
    { rewrite <- !Z.pow_add_r by lia. f_equal. lia. }
    assert (2 <= 2 ^ (e + n - eb)).
    { change 2 with (2 ^ 1) at 1. apply Z.pow_le_mono_r; lia. }
    nia.
Qed.

(** A value above the midpoint below [(mb, eb)], or at it when [mb] is even,
    rounds to at least [(mb, eb)]. *)
Lemma round_pair_lower :
  2 ^ 52 < mb < 2 ^ 53 ->
  (2 * mb - 1) * 2 ^ (eb - c) <= 2 * m * 2 ^ (e - c) ->
  (2 * m * 2 ^ (e - c) = (2 * mb - 1) * 2 ^ (eb - c) -> Z.even mb = true) ->
  le_pair (mb, eb) (round_pair m e).
Proof.
  intros Hmb H Htie. pose proof m_range as Hmr.
  destruct scale_pos as (HA & HB & Hn).
  pose proof (round_pair_cases m e Hm Hd) as Hc. cbv zeta in Hc.
  set (n := Zdigits2 m - 53) in *. assert (H0n : 0 <= n) by (unfold n; lia).
  destruct (Z.lt_trichotomy (e + n) eb) as [Hlt|[Heq|Hgt]].
  - exfalso.
    assert (EB : 2 ^ (eb - c) = 2 ^ (eb - e - n) * (2 ^ n * 2 ^ (e - c))).
    { rewrite <- !Z.pow_add_r by lia. f_equal. lia. }
    assert (HK : 2 <= 2 ^ (eb - e - n)).
    { change 2 with (2 ^ 1) at 1. apply Z.pow_le_mono_r; lia. }
    rewrite EB in H.
    set (A := 2 ^ (e - c)) in *. set (N := 2 ^ n) in *.
    set (K := 2 ^ (eb - e - n)) in *.
    assert (H1 : 2 * m * A < 2 ^ 54 * (N * A)) by nia.
    assert (H2 : 2 * (N * A) <= K * (N * A)) by nia.
    assert (H3 : (2 ^ 53 + 1) * (K * (N * A)) <= (2 * mb - 1) * (K * (N * A))).
    { apply Z.mul_le_mono_nonneg_r; nia. }
    lia.
  - assert (EB : 2 ^ (eb - c) = 2 ^ n * 2 ^ (e - c)).
    { rewrite <- Z.pow_add_r by lia. f_equal. lia. }
    rewrite EB in H, Htie.
    assert (H' : (2 * mb - 1) * 2 ^ n <= 2 * m) by nia.
    assert (Htie' : 2 * m = (2 * mb - 1) * 2 ^ n -> Z.even mb = true)
      by (intros E; apply Htie; nia).
    destruct Hc as [(E0 & ->)|[(H1 & Hr & ->)|(H1 & Hr & ->)]];
      unfold le_pair; cbn [fst snd].
    + right. rewrite E0, Z.pow_0_r in *. lia.
    + right. split; [lia|].
      destruct (Z.eq_dec (2 * m) ((2 * mb - 1) * 2 ^ n)) as [E|E].
      * assert (Hk : rne m n = mb) by (apply rne_lower_tie; try lia; auto). lia.
      * apply rne_lower; lia.
    + left. lia.
  - destruct Hc as [(E0 & ->)|[(H1 & _ & ->)|(H1 & _ & ->)]];
      unfold le_pair; cbn [fst snd]; lia.
Qed.

End Bracket.

(** ** Operations on normal numbers *)

Lemma leb_normal (m1 : positive) (e1 : Z) (m2 : positive) (e2 : Z) :
  JS.leb (S754_finite false m1 e1) (S754_finite false m2 e2) = true
  <-> le_pair (Z.pos m1, e1) (Z.pos m2, e2).
Proof.
  unfold JS.leb, SFleb, SFcompare, le_pair; cbn [fst snd].
  destruct (Z.compare_spec e1 e2) as [E|E|E].
  - rewrite Pos.compare_cont_spec. cbn [Pos.switch_Eq].
    destruct (Pos.compare_spec m1 m2) as [E'|E'|E']; split; intros H;
      try reflexivity; try discriminate; try lia.
  - split; [intros _; lia | reflexivity].
  - split; [discriminate | lia].
Qed.

Lemma ltb_normal (m1 : positive) (e1 : Z) (m2 : positive) (e2 : Z) :
  JS.ltb (S754_finite false m1 e1) (S754_finite false m2 e2) = true
  <-> e1 < e2 \/ (e1 = e2 /\ Z.pos m1 < Z.pos m2).
Proof.
  unfold JS.ltb, SFltb, SFcompare.
  destruct (Z.compare_spec e1 e2) as [E|E|E].
  - rewrite Pos.compare_cont_spec. cbn [Pos.switch_Eq].
    destruct (Pos.compare_spec m1 m2) as [E'|E'|E']; split; intros H;
      try reflexivity; try discriminate; try lia.
  - split; [intros _; lia | reflexivity].
  - split; [discriminate | lia].
Qed.

Lemma normal_digits (q : positive) (e : Z) : normal q e -> Zdigits2 (Z.pos q) = 53.
Proof. intros [H _]. apply Zdigits2_unique; lia. Qed.

Lemma norm_pair_value (m e : Z) :
  0 < m ->
  exists k, 0 <= k /\ fst (norm_pair m e) = m * 2 ^ k /\ snd (norm_pair m e) = e - k /\
            Zdigits2 (fst (norm_pair m e)) = Zdigits2 m + k /\
            53 <= Zdigits2 m + k.
Proof.
  intros Hm. unfold norm_pair. pose proof (Zdigits2_pos m Hm).
  destruct (Z.ltb_spec (Zdigits2 m) 53); cbn [fst snd].
  - exists (53 - Zdigits2 m). rewrite Zdigits2_mul_pow2 by lia.
    repeat split; lia.
  - exists 0. rewrite Z.pow_0_r, Z.mul_1_r, Z.sub_0_r, Z.add_0_r. repeat split; lia.
Qed.

(** [binary_round] on a positive mantissa, in the normal range: the result
    is normal, it is the rounding of the normalised input, and its exponent
    is that of the leading bit or one more. *)
Lemma binary_round_normal (s : bool) (mx : positive) (ex : Z) :
  -1074 <= Zdigits2 (Z.pos mx) + ex - 53 -> Zdigits2 (Z.pos mx) + ex <= 1023 ->
  exists (q : positive) (e' : Z),
    binary_round 53 1024 s mx ex = S754_finite s q e' /\
    normal q e' /\
    round_pair (fst (norm_pair (Z.pos mx) ex)) (snd (norm_pair (Z.pos mx) ex))
    = (Z.pos q, e') /\
    Zdigits2 (Z.pos mx) + ex - 53 <= e' <= Zdigits2 (Z.pos mx) + ex - 52.
Proof.
  intros Hr Ho. rewrite binary_round_norm by exact Hr.
  destruct (norm_pair_value (Z.pos mx) ex ltac:(lia)) as (k & Hk & Hm' & He' & Hd' & Hd53).
  set (m' := fst (norm_pair (Z.pos mx) ex)) in *.
  set (e' := snd (norm_pair (Z.pos mx) ex)) in *.
  assert (Hpos : 0 < m').
  { rewrite Hm'. assert (0 < 2 ^ k) by (apply Z.pow_pos_nonneg; lia). nia. }
  destruct (binary_round_aux_normal s m' e' loc_Exact) as (q & e2 & Hres & Hnorm & Hcase);
    [exact Hpos | lia | lia | lia |].
  destruct (binary_round_aux_exact s m' e') as (q' & e2' & Hres' & _ & Hrp);
    [exact Hpos | lia | lia | lia |].
  rewrite Hres in Hres'. injection Hres' as <- <-.
  exists q, e2. split; [exact Hres|]. split; [exact Hnorm|]. split; [exact Hrp|].
  destruct Hcase as [(E & _)|(E & _)]; lia.
Qed.

(** *** Division of normal numbers *)

Lemma div_eucl_div_mod (a b : Z) : Z.div_eucl a b = (a / b, a mod b).
Proof. unfold Z.div, Z.modulo. now destruct (Z.div_eucl a b). Qed.

Lemma div_core_normal (q1 : positive) (e1 : Z) (q2 : positive) (e2 : Z) :
  normal q1 e1 -> normal q2 e2 -> -1074 <= e1 - e2 - 53 ->
  SFdiv_core_binary 53 1024 (Z.pos q1) e1 (Z.pos q2) e2
  = ((Z.pos q1 * 2 ^ 53) / Z.pos q2, e1 - e2 - 53,
     new_location (Z.pos q2) ((Z.pos q1 * 2 ^ 53) mod Z.pos q2)).
Proof.
  intros H1 H2 Hr. unfold SFdiv_core_binary.
  rewrite (normal_digits q1 e1 H1), (normal_digits q2 e2 H2).
  replace (53 + e1 - (53 + e2)) with (e1 - e2) by lia.
  rewrite fexp_normal by lia.
  rewrite Z.min_l by lia.
  replace (e1 - e2 - (e1 - e2 - 53)) with 53 by lia.
  rewrite Z.shiftl_mul_pow2 by lia.
  now rewrite div_eucl_div_mod.
Qed.

(** *** The value of a draw *)

(** The number [z / 4294967296] for a nonzero 32-bit word [z]: the division
    is exact. *)
Lemma draw_value (z : Z) :
  0 < z < 2 ^ 32 ->
  exists q : positive,
    JS.div (JS.of_Z z) Xorshift32.two32 = S754_finite false q (Zdigits2 z - 85) /\
    Z.pos q = z * 2 ^ (53 - Zdigits2 z) /\
    normal q (Zdigits2 z - 85) /\
    1 <= Zdigits2 z <= 32.
Proof.
  intros Hz.
  destruct (of_Z_normal z ltac:(lia)) as (q & Hof & Hq & Hnorm).
  pose proof (Zdigits2_pos z ltac:(lia)) as Hd1.
  assert (Hd32 : Zdigits2 z <= 32).
  { pose proof (Zdigits2_bounds z ltac:(lia)) as [Hlo _].
    destruct (Z.le_gt_cases (Zdigits2 z) 32); [assumption|].
    assert (2 ^ 32 <= 2 ^ (Zdigits2 z - 1)) by (apply Z.pow_le_mono_r; lia). lia. }
  rewrite Hof.
  change Xorshift32.two32 with (S754_finite false 4503599627370496 (-20)).
  unfold JS.div, SFdiv, JS.prec, JS.emax.
  rewrite div_core_normal; [|exact Hnorm|split; [split; reflexivity|lia]|lia].
  change (Z.pos 4503599627370496) with (2 ^ 52).
  replace (Z.pos q * 2 ^ 53) with (2 * Z.pos q * 2 ^ 52)
    by (change (2 ^ 53) with (2 * 2 ^ 52); lia).
  rewrite Z.div_mul, Z.mod_mul by lia.
  change (new_location (2 ^ 52) 0) with loc_Exact. cbn [xorb].
  assert (Hd : Zdigits2 (2 * Z.pos q) = 54).
  { destruct Hnorm as [Hr _]. apply Zdigits2_unique; lia. }
  destruct (binary_round_aux_exact false (2 * Z.pos q) (Zdigits2 z - 53 - -20 - 53))
    as (q' & e' & Hres & Hnorm' & Hrp); [lia | lia | lia | lia |].
  rewrite Hres.
  unfold round_pair in Hrp. rewrite Hd in Hrp.
  change (54 - 53) with 1 in Hrp. change (1 <=? 0) with false in Hrp. cbv iota in Hrp.
  assert (Hrne : rne (2 * Z.pos q) 1 = Z.pos q) by (apply rne_exact; lia).
  rewrite Hrne in Hrp.
  destruct Hnorm as [Hr He].
  destruct (Z.ltb_spec (Z.pos q) (2 ^ 53)); [|lia].
  injection Hrp as E1 E2. assert (q' = q) by lia. subst q'.
  exists q. replace (Zdigits2 z - 85) with e' by lia.
  split; [reflexivity|]. split; [exact Hq|]. split; [exact Hnorm' | lia].
Qed.

(** *** Sums, differences and products *)

Lemma Zdigits2_le (m k : Z) : 0 < m -> m < 2 ^ k -> Zdigits2 m <= k.
Proof.
  intros Hm Hk. pose proof (Zdigits2_bounds m Hm) as [Hlo _].
  pose proof (Zdigits2_pos m Hm).
  destruct (Z.le_gt_cases (Zdigits2 m) k); [assumption|].
  assert (0 <= k).
  { destruct (Z.le_gt_cases 0 k); [assumption|]. rewrite Z.pow_neg_r in Hk; lia. }
  assert (2 ^ k <= 2 ^ (Zdigits2 m - 1)) by (apply Z.pow_le_mono_r; lia). lia.
Qed.

Lemma shl_align_fst (mx : positive) (ex ex' : Z) :
  ex' <= ex -> Z.pos (fst (shl_align mx ex ex')) = Z.pos mx * 2 ^ (ex - ex').
Proof.
  intros H. unfold shl_align.
  destruct (ex' - ex) as [|p|p] eqn:E; cbn [fst]; try lia.
  - replace (ex - ex') with 0 by lia. cbn. lia.
  - rewrite iter_xO. f_equal. f_equal. lia.
Qed.

(** The sum or difference [T * 2^ez] that [SFadd] and [SFsub] hand to
    [binary_normalize], when it is not zero and lies in the normal range. *)
Lemma binary_normalize_normal (T ez : Z) :
  T <> 0 ->
  -1074 <= Zdigits2 (Z.abs T) + ez - 53 -> Zdigits2 (Z.abs T) + ez <= 1023 ->
  exists (q : positive) (e' : Z),
    binary_normalize 53 1024 T ez false = S754_finite (T <? 0) q e' /\
    normal q e' /\
    round_pair (fst (norm_pair (Z.abs T) ez)) (snd (norm_pair (Z.abs T) ez))
    = (Z.pos q, e') /\
    Zdigits2 (Z.abs T) + ez - 53 <= e' <= Zdigits2 (Z.abs T) + ez - 52.
Proof.
  intros HT Hr Ho. destruct T as [|p|p]; [congruence| |]; cbn [binary_normalize Z.abs] in *.
  - destruct (binary_round_normal false p ez Hr Ho) as (q & e' & H1 & H2 & H3 & H4).
    now exists q, e'.
  - destruct (binary_round_normal true p ez Hr Ho) as (q & e' & H1 & H2 & H3 & H4).
    now exists q, e'.
Qed.

Section NormBracket.

Variables m e mb eb c : Z.
Hypothesis Hm : 0 < m.
Hypothesis Hce : c + 52 <= e.
Hypothesis Hcb : c <= eb.

Local Lemma norm_scaled :
  exists k, 0 <= k <= 52 /\ fst (norm_pair m e) = m * 2 ^ k /\
            snd (norm_pair m e) = e - k /\
            2 ^ (e - c) = 2 ^ k * 2 ^ (e - k - c) /\
            0 < fst (norm_pair m e) /\ 53 <= Zdigits2 (fst (norm_pair m e)).
Proof.
  destruct (norm_pair_value m e Hm) as (k & Hk & H1 & H2 & H3 & H4).
  pose proof (Zdigits2_pos m Hm).
  assert (Hk52 : k <= 52).
  { unfold norm_pair in H2. destruct (Z.ltb_spec (Zdigits2 m) 53); cbn [snd] in H2; lia. }
  exists k. split; [lia|]. split; [exact H1|]. split; [exact H2|]. split.
  - rewrite <- Z.pow_add_r by lia. f_equal. lia.
  - assert (0 < 2 ^ k) by (apply Z.pow_pos_nonneg; lia). split; [nia | lia].
Qed.

Lemma norm_round_upper :
  2 ^ 52 <= mb < 2 ^ 53 ->
  2 * m * 2 ^ (e - c) <= (2 * mb + 1) * 2 ^ (eb - c) ->
  (2 * m * 2 ^ (e - c) = (2 * mb + 1) * 2 ^ (eb - c) -> Z.even mb = true) ->
  le_pair (round_pair (fst (norm_pair m e)) (snd (norm_pair m e))) (mb, eb).
Proof.
  intros Hmb H Htie.
  destruct norm_scaled as (k & Hk & H1 & H2 & H3 & H4 & H5).
  rewrite H3 in H, Htie.
  apply (round_pair_upper _ _ mb eb c); try assumption; try lia;
    rewrite H1, H2.
  - nia.
  - intros E. apply Htie. nia.
Qed.

Lemma norm_round_lower :
  2 ^ 52 < mb < 2 ^ 53 ->
  (2 * mb - 1) * 2 ^ (eb - c) <= 2 * m * 2 ^ (e - c) ->
  (2 * m * 2 ^ (e - c) = (2 * mb - 1) * 2 ^ (eb - c) -> Z.even mb = true) ->
  le_pair (mb, eb) (round_pair (fst (norm_pair m e)) (snd (norm_pair m e))).
Proof.
  intros Hmb H Htie.
  destruct norm_scaled as (k & Hk & H1 & H2 & H3 & H4 & H5).
  rewrite H3 in H, Htie.
  apply (round_pair_lower _ _ mb eb c); try assumption; try lia;
    rewrite H1, H2.
  - nia.
  - intros E. apply Htie. nia.
Qed.

End NormBracket.

(** The product of two normal numbers, in the normal range. *)
Lemma mul_normal (s1 : bool) (q1 : positive) (e1 : Z) (s2 : bool) (q2 : positive) (e2 : Z) :
  normal q1 e1 -> normal q2 e2 -> -1074 <= e1 + e2 + 52 -> e1 + e2 <= 917 ->
  exists (q : positive) (e' : Z),
    JS.mul (S754_finite s1 q1 e1) (S754_finite s2 q2 e2) = S754_finite (xorb s1 s2) q e' /\
    normal q e' /\
    round_pair (Z.pos q1 * Z.pos q2) (e1 + e2) = (Z.pos q, e') /\
    e1 + e2 + 52 <= e' <= e1 + e2 + 54 /\
    0 < Z.pos q1 * Z.pos q2 /\ 53 <= Zdigits2 (Z.pos q1 * Z.pos q2).
Proof.
  intros [H1 _] [H2 _] Hr Ho.
  assert (Hp : 2 ^ 104 <= Z.pos q1 * Z.pos q2 < 2 ^ 106).
  { change (2 ^ 104) with (2 ^ 52 * 2 ^ 52). change (2 ^ 106) with (2 ^ 53 * 2 ^ 53). nia. }
  assert (Hd : 105 <= Zdigits2 (Z.pos q1 * Z.pos q2) <= 106).
  { pose proof (Zdigits2_bounds (Z.pos q1 * Z.pos q2) ltac:(lia)) as [Hlo Hhi]. split.
    - destruct (Z.le_gt_cases 105 (Zdigits2 (Z.pos q1 * Z.pos q2))); [assumption|].
      assert (2 ^ Zdigits2 (Z.pos q1 * Z.pos q2) <= 2 ^ 104).
      { apply Z.pow_le_mono_r; lia. }
      lia.
    - apply Zdigits2_le; lia. }
  destruct (binary_round_aux_normal (xorb s1 s2) (Z.pos q1 * Z.pos q2) (e1 + e2) loc_Exact)
    as (q & e' & Hres & Hnorm & Hcase); [lia | lia | lia | lia |].
  destruct (binary_round_aux_exact (xorb s1 s2) (Z.pos q1 * Z.pos q2) (e1 + e2))
    as (q' & e2' & Hres' & _ & Hrp); [lia | lia | lia | lia |].
  rewrite Hres in Hres'. injection Hres' as <- <-.
  exists q, e'. split; [exact Hres|]. split; [exact Hnorm|]. split; [exact Hrp|].
  split; [destruct Hcase as [(E & _)|(E & _)]; lia | lia].
Qed.

(** ** The bias of a peg, step by step *)

Lemma dec_5_1 : JS.dec 5 1 = S754_finite false 4503599627370496 (-53).
Proof. vm_compute. reflexivity. Qed.

Lemma dec_2_1 : JS.dec 2 1 = S754_finite false 7205759403792794 (-55).
Proof. vm_compute. reflexivity. Qed.

Lemma dec_4_1 : JS.dec 4 1 = S754_finite false 7205759403792794 (-54).
Proof. vm_compute. reflexivity. Qed.

Lemma dec_6_1 : JS.dec 6 1 = S754_finite false 5404319552844595 (-53).
Proof. vm_compute. reflexivity. Qed.

Lemma of_Z_million : JS.of_Z 1000000 = S754_finite false 8589934592000000 (-33).
Proof. vm_compute. reflexivity. Qed.

Lemma of_Z_1 : JS.of_Z 1 = S754_finite false 4503599627370496 (-52).
Proof. vm_compute. reflexivity. Qed.

Lemma of_Z_0 : JS.of_Z 0 = S754_zero false.
Proof. reflexivity. Qed.

(** [d - 0.5] for a draw [d]: zero, or at most 0.5 in magnitude. *)
Lemma sub_half_bound (qd : positive) (ed : Z) :
  normal qd ed -> -84 <= ed <= -53 ->
  JS.sub (S754_finite false qd ed) (JS.dec 5 1) = S754_zero false \/
  exists st qt et,
    JS.sub (S754_finite false qd ed) (JS.dec 5 1) = S754_finite st qt et /\
    normal qt et /\ le_pair (Z.pos qt, et) (2 ^ 52, -53) /\ -137 <= et.
Proof.
  intros [Hq _] He. rewrite dec_5_1.
  unfold JS.sub, SFsub, JS.prec, JS.emax. cbn [cond_Zopp].
  rewrite Z.min_l by lia. rewrite !shl_align_fst by lia.
  rewrite Z.sub_diag, Z.pow_0_r, Z.mul_1_r.
  change (Z.pos 4503599627370496) with (2 ^ 52).
  set (K := 2 ^ (-53 - ed)).
  assert (HK : 1 <= K) by (unfold K; change 1 with (2 ^ 0); apply Z.pow_le_mono_r; lia).
  set (T := Z.pos qd - 2 ^ 52 * K).
  destruct (Z.eq_dec T 0) as [E|HT]; [rewrite E; left; reflexivity|right].
  assert (Habs : 0 < Z.abs T < 2 ^ 52 * K) by lia.
  assert (HKe : 2 ^ 52 * K = 2 ^ (-1 - ed)).
  { unfold K. rewrite <- Z.pow_add_r by lia. f_equal. lia. }
  assert (Hd : 1 <= Zdigits2 (Z.abs T) <= -1 - ed).
  { split; [pose proof (Zdigits2_pos (Z.abs T)); lia|].
    apply Zdigits2_le; [lia|]. rewrite <- HKe. lia. }
  destruct (binary_normalize_normal T ed HT) as (q & e' & Hres & Hnorm & Hrp & Hexp);
    [lia | lia |].
  exists (T <? 0), q, e'. split; [exact Hres|]. split; [exact Hnorm|]. split; [|lia].
  rewrite <- Hrp.
  apply (norm_round_upper (Z.abs T) ed (2 ^ 52) (-53) (ed - 52)); try lia.
  - replace (ed - (ed - 52)) with 52 by lia.
    replace (-53 - (ed - 52)) with (-1 - ed) by lia. rewrite <- HKe. lia.
  - replace (ed - (ed - 52)) with 52 by lia.
    replace (-53 - (ed - 52)) with (-1 - ed) by lia. rewrite <- HKe. lia.
Qed.

(** Times 0.2: at most half of the number 0.2 in magnitude. *)
Lemma mul_fifth_bound (st : bool) (qt : positive) (et : Z) :
  normal qt et -> le_pair (Z.pos qt, et) (2 ^ 52, -53) -> -137 <= et ->
  exists qu eu,
    JS.mul (S754_finite st qt et) (JS.dec 2 1) = S754_finite st qu eu /\
    normal qu eu /\ le_pair (Z.pos qu, eu) (7205759403792794, -56) /\ -140 <= eu.
Proof.
  intros Hn Hle He. rewrite dec_2_1.
  assert (Het : et <= -53) by (unfold le_pair in Hle; cbn [fst snd] in Hle; lia).
  destruct (mul_normal st qt et false 7205759403792794 (-55) Hn)
    as (q & e' & Hres & Hnorm & Hrp & Hexp & Hpos & Hdig);
    [unfold normal; lia | lia | lia |].
  rewrite xorb_false_r in Hres.
  exists q, e'. split; [exact Hres|]. split; [exact Hnorm|]. split; [|lia].
  rewrite <- Hrp.
  unfold le_pair in Hle; cbn [fst snd] in Hle. destruct Hn as [Hq _].
  set (K := 2 ^ (-1 - et)).
  assert (HqK : Z.pos qt <= K).
  { destruct Hle as [Hlt|[-> Hle]]; [|exact Hle].
    assert (2 ^ 53 <= K) by (apply Z.pow_le_mono_r; lia). lia. }
  apply (round_pair_upper _ _ 7205759403792794 (-56) (et + -55)); try lia.
  - replace (et + -55 - (et + -55)) with 0 by lia.
    replace (-56 - (et + -55)) with (-1 - et) by lia. fold K. nia.
  - replace (et + -55 - (et + -55)) with 0 by lia.
    replace (-56 - (et + -55)) with (-1 - et) by lia. fold K. nia.
Qed.

(** Plus 0.5: between the numbers 0.4 and 0.6. *)
Lemma add_half_bound (su : bool) (qu : positive) (eu : Z) :
  normal qu eu -> le_pair (Z.pos qu, eu) (7205759403792794, -56) -> -140 <= eu ->
  exists qx ex,
    JS.add (JS.dec 5 1) (S754_finite su qu eu) = S754_finite false qx ex /\
    normal qx ex /\
    le_pair (7205759403792794, -54) (Z.pos qx, ex) /\
    le_pair (Z.pos qx, ex) (5404319552844595, -53).
Proof.
  intros [Hq _] Hle He. rewrite dec_5_1.
  unfold le_pair in Hle; cbn [fst snd] in Hle.
  assert (Heu : eu <= -56) by lia.
  unfold JS.add, SFadd, JS.prec, JS.emax. cbn [cond_Zopp].
  rewrite Z.min_r by lia. rewrite !shl_align_fst by lia.
  rewrite Z.sub_diag, Z.pow_0_r, Z.mul_1_r.
  change (Z.pos 4503599627370496) with (2 ^ 52).
  set (K := 2 ^ (-56 - eu)).
  assert (HK : 1 <= K) by (unfold K; change 1 with (2 ^ 0); apply Z.pow_le_mono_r; lia).
  assert (HK8 : 2 ^ (-53 - eu) = 8 * K).
  { unfold K. change 8 with (2 ^ 3). rewrite <- Z.pow_add_r by lia. f_equal. lia. }
  rewrite HK8.
  assert (HqK : Z.pos qu <= 7205759403792794 * K).
  { destruct Hle as [Hlt|[E Hle]].
    - assert (2 <= K) by (unfold K; change 2 with (2 ^ 1); apply Z.pow_le_mono_r; lia). lia.
    - assert (K = 1) by (unfold K; rewrite E; reflexivity). lia. }
  set (S := 2 ^ 52 * (8 * K) + (if su then - Z.pos qu else Z.pos qu)).
  assert (HS : 2 ^ 55 * K - 7205759403792794 * K <= S <= 2 ^ 55 * K + 7205759403792794 * K).
  { unfold S. change (2 ^ 55) with (2 ^ 52 * 8). destruct su; lia. }
  assert (HSabs : Z.abs S = S) by lia.
  assert (HKe : 2 ^ 56 * K = 2 ^ (- eu)).
  { unfold K. rewrite <- Z.pow_add_r by lia. f_equal. lia. }
  assert (Hd : 1 <= Zdigits2 S <= - eu).
  { split; [pose proof (Zdigits2_pos S); lia|].
    apply Zdigits2_le; [lia|]. rewrite <- HKe. lia. }
  destruct (binary_normalize_normal S eu) as (q & e' & Hres & Hnorm & Hrp & Hexp);
    [lia | rewrite HSabs; lia | rewrite HSabs; lia |].
  rewrite HSabs in Hrp.
  replace (S <? 0) with false in Hres by (symmetry; apply Z.ltb_ge; lia).
  exists q, e'. split; [exact Hres|]. split; [exact Hnorm|].
  rewrite <- Hrp.
  assert (E52 : 2 ^ (eu - (eu - 52)) = 2 ^ 52) by (f_equal; lia).
  split.
  - apply (norm_round_lower S eu 7205759403792794 (-54) (eu - 52)); try lia.
    + rewrite E52. replace (-54 - (eu - 52)) with (54 + (-56 - eu)) by lia.
      rewrite Z.pow_add_r by lia. fold K. lia.
    + intros _. reflexivity.
  - apply (norm_round_upper S eu 5404319552844595 (-53) (eu - 52)); try lia.
    + rewrite E52. replace (-53 - (eu - 52)) with (55 + (-56 - eu)) by lia.
      rewrite Z.pow_add_r by lia. fold K. lia.
    + rewrite E52. replace (-53 - (eu - 52)) with (55 + (-56 - eu)) by lia.
      rewrite Z.pow_add_r by lia. fold K. lia.
Qed.

(** The bias before rounding lies between the numbers 0.4 and 0.6. *)
Lemma unroundedBias_bound (qd : positive) (ed : Z) :
  normal qd ed -> -84 <= ed <= -53 ->
  exists qx ex,
    unroundedBias (S754_finite false qd ed) = S754_finite false qx ex /\
    normal qx ex /\
    le_pair (7205759403792794, -54) (Z.pos qx, ex) /\
    le_pair (Z.pos qx, ex) (5404319552844595, -53).
Proof.
  intros Hn He. unfold unroundedBias.
  destruct (sub_half_bound qd ed Hn He) as [E|(st & qt & et & E & Hnt & Hle & Het)];
    rewrite E.
  - exists 4503599627370496%positive, (-53).
    split; [vm_compute; reflexivity|]. split; [unfold normal; lia|].
    unfold le_pair; cbn [fst snd]. split; lia.
  - destruct (mul_fifth_bound st qt et Hnt Hle Het) as (qu & eu & E2 & Hnu & Hleu & Heu).
    rewrite E2. apply add_half_bound; assumption.
Qed.

(** Times 1000000: between 400000 and 600000. *)
Lemma mul_million_bound (qx : positive) (ex : Z) :
  normal qx ex ->
  le_pair (7205759403792794, -54) (Z.pos qx, ex) ->
  le_pair (Z.pos qx, ex) (5404319552844595, -53) ->
  exists qy ey,
    JS.mul (S754_finite false qx ex) (JS.of_Z 1000000) = S754_finite false qy ey /\
    normal qy ey /\
    le_pair (6871947673600000, -34) (Z.pos qy, ey) /\
    le_pair (Z.pos qy, ey) (5153960755200000, -33).
Proof.
  intros Hn Hlo Hhi. rewrite of_Z_million.
  unfold le_pair in Hlo, Hhi; cbn [fst snd] in Hlo, Hhi.
  destruct (mul_normal false qx ex false 8589934592000000 (-33) Hn)
    as (q & e' & Hres & Hnorm & Hrp & Hexp & Hpos & Hdig);
    [unfold normal; lia | lia | lia |].
  exists q, e'. split; [exact Hres|]. split; [exact Hnorm|].
  rewrite <- Hrp. destruct Hn as [Hq _].
  assert (Hex : ex = -54 \/ ex = -53) by lia.
  split.
  - apply (round_pair_lower _ _ 6871947673600000 (-34) (ex + -33)); try lia.
    + destruct Hex as [-> | ->]; cbn; lia.
    + destruct Hex as [-> | ->]; cbn; lia.
  - apply (round_pair_upper _ _ 5153960755200000 (-33) (ex + -33)); try lia.
    + destruct Hex as [-> | ->]; cbn; lia.
    + destruct Hex as [-> | ->]; cbn; lia.
Qed.

(** [Math.round]: an integer between 400000 and 600000. *)
Lemma Math_round_bound (qy : positive) (ey : Z) :
  normal qy ey ->
  le_pair (6871947673600000, -34) (Z.pos qy, ey) ->
  le_pair (Z.pos qy, ey) (5153960755200000, -33) ->
  exists N,
    JS.Math_round (S754_finite false qy ey) = JS.of_Z N /\ 400000 <= N <= 600000.
Proof.
  intros [Hq _] Hlo Hhi.
  unfold le_pair in Hlo, Hhi; cbn [fst snd] in Hlo, Hhi.
  assert (Hey : ey = -34 \/ ey = -33) by lia.
  unfold JS.Math_round.
  destruct Hey as [-> | ->].
  - change (0 <=? -34) with false. cbv iota.
    change (2 ^ (- -34 - 1)) with 8589934592. change (2 ^ (- -34)) with 17179869184.
    set (N := (Z.pos qy + 8589934592) / 17179869184).
    assert (HN : 400000 <= N <= 600000).
    { unfold N. split.
      - apply Z.div_le_lower_bound; lia.
      - apply Z.lt_succ_r, Z.div_lt_upper_bound; lia. }
    exists N. split; [|exact HN].
    destruct (Z.eqb_spec N 0); [lia | reflexivity].
  - change (0 <=? -33) with false. cbv iota.
    change (2 ^ (- -33 - 1)) with 4294967296. change (2 ^ (- -33)) with 8589934592.
    set (N := (Z.pos qy + 4294967296) / 8589934592).
    assert (HN : 400000 <= N <= 600000).
    { unfold N. split.
      - apply Z.div_le_lower_bound; lia.
      - apply Z.lt_succ_r, Z.div_lt_upper_bound; lia. }
    exists N. split; [|exact HN].
    destruct (Z.eqb_spec N 0); [lia | reflexivity].
Qed.

(** On numbers that are not negative [Math.round] rounds ties away from
    zero. *)
Lemma Math_round_half_away (x : JS.number) :
  match x with S754_finite true _ _ => False | _ => True end ->
  JS.Math_round x = round_half_away x.
Proof. destruct x as [| | |[] m e]; intros H; try reflexivity. destruct H. Qed.

(** Divided by 1000000: a positive number that is at most 1. *)
Lemma div_million_bound (N : Z) :
  400000 <= N <= 600000 ->
  exists qs es,
    JS.div (JS.of_Z N) (JS.of_Z 1000000) = S754_finite false qs es /\
    normal qs es /\ le_pair (Z.pos qs, es) (2 ^ 52, -52).
Proof.
  intros HN.
  destruct (of_Z_normal N ltac:(lia)) as (qN & Hof & HqN & Hnorm).
  rewrite Hof, of_Z_million.
  assert (Hd : (Zdigits2 N = 19 /\ N < 524288) \/ (Zdigits2 N = 20 /\ 524288 <= N)).
  { destruct (Z.lt_ge_cases N 524288); [left | right]; (split; [|assumption]);
      apply Zdigits2_unique; lia. }
  assert (Hm6 : normal 8589934592000000 (-33)) by (unfold normal; lia).
  unfold JS.div, SFdiv, JS.prec, JS.emax.
  rewrite div_core_normal; [|exact Hnorm|exact Hm6|destruct Hd as [[-> _]|[-> _]]; lia].
  cbn [xorb].
  set (Q := Z.pos qN * 2 ^ 53 / Z.pos 8589934592000000).
  set (l := new_location _ _).
  destruct Hnorm as [HqNr _].
  assert (HQ : 2 ^ 52 <= Q < 2 ^ 54).
  { unfold Q. split.
    - apply Z.div_le_lower_bound; lia.
    - apply Z.div_lt_upper_bound; lia. }
  assert (HdQ : 53 <= Zdigits2 Q <= 54).
  { split.
    - destruct (Z.le_gt_cases 53 (Zdigits2 Q)); [assumption|].
      pose proof (Zdigits2_bounds Q ltac:(lia)) as [_ Hhi].
      assert (2 ^ Zdigits2 Q <= 2 ^ 52) by (apply Z.pow_le_mono_r; lia). lia.
    - apply Zdigits2_le; lia. }
  destruct (binary_round_aux_normal false Q (Zdigits2 N - 53 - -33 - 53) l)
    as (qs & es & Hres & Hnorms & Hcase);
    [lia | lia | destruct Hd as [[-> _]|[-> _]]; lia | destruct Hd as [[-> _]|[-> _]]; lia |].
  exists qs, es. split; [exact Hres|]. split; [exact Hnorms|].
  unfold le_pair; cbn [fst snd].
  destruct Hd as [[E HN19]|[E HN20]]; rewrite E in *.
  - destruct Hcase as [(Ees & _)|(Ees & Eq & _)]; lia.
  - assert (HQ53 : Q < 2 ^ 53).
    { unfold Q. apply Z.div_lt_upper_bound; [lia|].
      rewrite HqN. change (2 ^ (53 - 20)) with 8589934592. lia. }
    assert (Zdigits2 Q = 53) by (apply Zdigits2_unique; lia).
    destruct Hcase as [(Ees & _)|(Ees & Eq & _)]; lia.
Qed.

(** ** What a draw and the peg built from it satisfy *)

Lemma leb_zero_finite (q : positive) (e : Z) :
  JS.leb (JS.of_Z 0) (S754_finite false q e) = true.
Proof. reflexivity. Qed.

Lemma ltb_zero_finite (q : positive) (e : Z) :
  JS.ltb (JS.of_Z 0) (S754_finite false q e) = true.
Proof. reflexivity. Qed.

(** The exact value of a draw is [z / 2^32]. *)
Lemma Qvalue_scaled (q : positive) (z k : Z) :
  0 < z -> 0 <= k -> Z.pos q = z * 2 ^ k ->
  (Qvalue (S754_finite false q (- k - 32)) == z # 4294967296)%Q.
Proof.
  intros Hz Hk Hq. unfold Qvalue.
  replace (- k - 32) with (- (k + 32)) by lia.
  rewrite Qpower_opp.
  rewrite <- (Zpower_Qpower 2 (k + 32)) by lia.
  assert (HP : 0 < 2 ^ (k + 32)) by (apply Z.pow_pos_nonneg; lia).
  assert (E : 2 ^ (k + 32) = 2 ^ k * 4294967296)
    by (rewrite Z.pow_add_r by lia; reflexivity).
  destruct (2 ^ (k + 32)) as [|p|p] eqn:Ep; try lia.
  unfold Qeq, Qmult, Qinv, inject_Z; cbn [Qnum Qden].
  rewrite Hq. rewrite !Pos2Z.inj_mul.
  change (Z.pos 1) with 1. rewrite E. change (Z.pos 4294967296) with 4294967296. lia.
Qed.

(** A draw from a nonzero 32-bit state [z]: strictly between 0 and 1,
    exactly [z / 2^32]. *)
Lemma draw_facts (z : Z) :
  0 < z < 2 ^ 32 ->
  let d := JS.div (JS.of_Z z) Xorshift32.two32 in
  JS.ltb (JS.of_Z 0) d = true /\ JS.ltb d (JS.of_Z 1) = true /\
  (Qvalue d == z # 4294967296)%Q.
Proof.
  intros Hz d. subst d.
  destruct (draw_value z Hz) as (q & -> & Hq & Hnorm & Hd).
  split; [reflexivity|]. split.
  - rewrite of_Z_1. apply ltb_normal. left. lia.
  - replace (Zdigits2 z - 85) with (- (53 - Zdigits2 z) - 32) by lia.
    apply Qvalue_scaled; [lia | lia | exact Hq].
Qed.

Lemma Qvalue_bias_bound (qx : positive) (ex : Z) :
  normal qx ex ->
  le_pair (7205759403792794, -54) (Z.pos qx, ex) ->
  le_pair (Z.pos qx, ex) (5404319552844595, -53) ->
  (4 # 10 <= Qvalue (S754_finite false qx ex) <= 6 # 10)%Q.
Proof.
  intros [Hq _] Hlo Hhi.
  unfold le_pair in Hlo, Hhi; cbn [fst snd] in Hlo, Hhi.
  assert (Hex : ex = -54 \/ ex = -53) by lia.
  unfold Qvalue.
  destruct Hex as [-> | ->].
  - change ((2 # 1) ^ (-54))%Q with (1 # 18014398509481984)%Q.
    unfold Qle, Qmult, inject_Z; cbn [Qnum Qden Pos.mul]. lia.
  - change ((2 # 1) ^ (-53))%Q with (1 # 9007199254740992)%Q.
    unfold Qle, Qmult, inject_Z; cbn [Qnum Qden Pos.mul]. lia.
Qed.

Lemma unroundedBias_eq (d : JS.number) :
  unroundedBias d = JS.add (JS.dec 5 1) (JS.mul (JS.sub d (JS.dec 5 1)) (JS.dec 2 1)).
Proof. reflexivity. Qed.

(** The peg built from the draw of a nonzero 32-bit state. *)
Lemma peg_bias_facts (z : Z) :
  0 < z < 2 ^ 32 ->
  let d := JS.div (JS.of_Z z) Xorshift32.two32 in
  let bias := unroundedBias d in
  let stored := roundedBias bias in
  JS.leb (JS.dec 4 1) bias = true /\ JS.leb bias (JS.dec 6 1) = true /\
  (4 # 10 <= Qvalue bias <= 6 # 10)%Q /\
  stored = JS.div (round_half_away (JS.mul bias (JS.of_Z 1000000))) (JS.of_Z 1000000) /\
  JS.leb (JS.of_Z 0) stored = true /\ JS.leb stored (JS.of_Z 1) = true.
Proof.
  intros Hz d bias stored. subst stored bias d.
  destruct (draw_value z Hz) as (qd & -> & _ & Hnd & Hdz).
  destruct (unroundedBias_bound qd (Zdigits2 z - 85) Hnd ltac:(lia))
    as (qx & ex & -> & Hnx & Hlo & Hhi).
  split; [rewrite dec_4_1; apply leb_normal; exact Hlo|].
  split; [rewrite dec_6_1; apply leb_normal; exact Hhi|].
  split; [apply Qvalue_bias_bound; assumption|].
  unfold roundedBias.
  destruct (mul_million_bound qx ex Hnx Hlo Hhi) as (qy & ey & -> & Hny & Hylo & Hyhi).
  split; [now rewrite Math_round_half_away|].
  destruct (Math_round_bound qy ey Hny Hylo Hyhi) as (N & -> & HN).
  destruct (div_million_bound N HN) as (qs & es & -> & Hns & Hs).
  split; [reflexivity|]. rewrite of_Z_1. apply leb_normal. exact Hs.
Qed.

(** ** The stream of draws *)

Lemma nextFloat_draw (g : Xorshift32.t) :
  Xorshift32.nextFloat g = (draw 0 g, skip 1 g).
Proof. unfold draw; cbn [skip]. now destruct (Xorshift32.nextFloat g). Qed.

Lemma skip_add (n m : nat) (g : Xorshift32.t) :
  skip (n + m) g = skip m (skip n g).
Proof. revert g; induction n as [|n IH]; intros g; simpl; [reflexivity | apply IH]. Qed.

Lemma skip_S (n : nat) (g : Xorshift32.t) :
  skip (S n) g = skip n (skip 1 g).
Proof. cbn [skip]. reflexivity. Qed.

Lemma draw_skip (n m : nat) (g : Xorshift32.t) :
  draw m (skip n g) = draw (n + m) g.
Proof. unfold draw. now rewrite skip_add. Qed.

Lemma draw_S (n : nat) (g : Xorshift32.t) :
  draw (S n) g = draw n (skip 1 g).
Proof. unfold draw. now rewrite skip_S. Qed.

(** ** Paths *)

Lemma countRight_app (p q : list Move) :
  countRight (p ++ q) = (countRight p + countRight q)%nat.
Proof. induction p as [|m p IH]; cbn [countRight app]; [reflexivity | rewrite IH; lia]. Qed.

Lemma countRight_le_length (p : list Move) : (countRight p <= List.length p)%nat.
Proof. induction p as [|[] p IH]; simpl; lia. Qed.

Lemma countRight_firstn_S (p : list Move) (k : nat) :
  (countRight (firstn k p) <= countRight (firstn (S k) p) <= countRight (firstn k p) + 1)%nat.
Proof.
  revert k; induction p as [|m p IH]; intros k.
  - rewrite !firstn_nil; simpl; lia.
  - destruct k as [|k].
    + simpl. destruct m; simpl; lia.
    + specialize (IH k). simpl in *. lia.
Qed.

Lemma countRight_firstn_nth (p : list Move) (r : nat) :
  (r < List.length p)%nat ->
  countRight (firstn (S r) p)
  = (countRight (firstn r p)
     + match nth_error p r with Some Right => 1 | _ => 0 end)%nat.
Proof.
  revert r; induction p as [|m p IH]; intros r Hlt; [cbn in Hlt; lia|].
  destruct r as [|r].
  - rewrite firstn_cons, !firstn_O. cbn. destruct m; reflexivity.
  - cbn [List.length] in Hlt.
    rewrite (firstn_cons (S r)), (firstn_cons r). cbn [countRight nth_error].
    rewrite (IH r) by lia. lia.
Qed.

(** ** Building the field *)

Lemma genRow_S (n : nat) (g : Xorshift32.t) :
  genRow (S n) g
  = (pegOf (draw 0 g) :: fst (genRow n (skip 1 g)), snd (genRow n (skip 1 g))).
Proof.
  cbn [genRow]. rewrite nextFloat_draw.
  now destruct (genRow n (skip 1 g)).
Qed.

Lemma genRows_S (n r : nat) (g : Xorshift32.t) :
  genRows r (S n) g
  = (fst (genRow (S r) g) :: fst (genRows (S r) n (snd (genRow (S r) g))),
     snd (genRows (S r) n (snd (genRow (S r) g)))).
Proof.
  cbn [genRows]. destruct (genRow (S r) g) as [row g1]; cbn [fst snd].
  now destruct (genRows (S r) n g1).
Qed.

Lemma genRow_length (n : nat) (g : Xorshift32.t) :
  List.length (fst (genRow n g)) = n.
Proof.
  revert g; induction n as [|n IH]; intros g; [reflexivity|].
  rewrite genRow_S; cbn [fst List.length]. now rewrite IH.
Qed.

Lemma genRow_prng (n : nat) (g : Xorshift32.t) :
  snd (genRow n g) = skip n g.
Proof.
  revert g; induction n as [|n IH]; intros g; [reflexivity|].
  rewrite genRow_S; cbn [snd]. now rewrite IH.
Qed.

Lemma genRow_nth (n : nat) (g : Xorshift32.t) (c : nat) :
  (c < n)%nat -> nth_error (fst (genRow n g)) c = Some (pegOf (draw c g)).
Proof.
  revert g c; induction n as [|n IH]; intros g c Hc; [lia|].
  rewrite genRow_S; cbn [fst].
  destruct c as [|c]; [reflexivity|].
  cbn [nth_error]. rewrite IH by lia. now rewrite draw_S.
Qed.

Lemma genRows_length (n r : nat) (g : Xorshift32.t) :
  List.length (fst (genRows r n g)) = n.
Proof.
  revert r g; induction n as [|n IH]; intros r g; [reflexivity|].
  rewrite genRows_S; cbn [fst List.length]. now rewrite IH.
Qed.

Lemma genRows_prng (n r : nat) (g : Xorshift32.t) :
  snd (genRows r n g) = skip (offset r n) g.
Proof.
  revert r g; induction n as [|n IH]; intros r g; [reflexivity|].
  rewrite genRows_S; cbn [snd offset].
  rewrite IH, genRow_prng. now rewrite <- skip_add.
Qed.

Lemma genRows_nth (n r : nat) (g : Xorshift32.t) (i : nat) :
  (i < n)%nat ->
  nth_error (fst (genRows r n g)) i
  = Some (fst (genRow (S (r + i)) (skip (offset r i) g))).
Proof.
  revert r g i; induction n as [|n IH]; intros r g i Hi; [lia|].
  rewrite genRows_S; cbn [fst].
  destruct i as [|i].
  - cbn [nth_error offset skip]. now rewrite Nat.add_0_r.
  - cbn [nth_error offset]. rewrite IH by lia.
    rewrite genRow_prng, <- skip_add.
    replace (S r + i)%nat with (r + S i)%nat by lia. reflexivity.
Qed.

Lemma offset_closed (n r : nat) : (2 * offset r n = 2 * n * r + n * (n + 1))%nat.
Proof. revert r; induction n as [|n IH]; intros r; simpl; [lia|]. specialize (IH (S r)). nia. Qed.

Lemma offset_triangle (n : nat) : offset 0 n = (n * (n + 1) / 2)%nat.
Proof.
  pose proof (offset_closed n 0) as H.
  apply Nat.div_unique_exact; lia.
Qed.

(** Every peg of the field built from [g]: row [r] has [r + 1] pegs and the
    peg in column [c] comes from draw [r (r + 1) / 2 + c]. *)
Lemma genRows_pegAt (g : Xorshift32.t) (r c : nat) :
  (r < ROWS)%nat -> (c <= r)%nat ->
  pegAt (fst (genRows 0 ROWS g)) r c = Some (pegOf (draw (r * (r + 1) / 2 + c) g)).
Proof.
  intros Hr Hc. unfold pegAt.
  rewrite genRows_nth by exact Hr.
  rewrite genRow_nth by lia.
  rewrite draw_skip, offset_triangle. reflexivity.
Qed.

Lemma genRows_row (g : Xorshift32.t) (r : nat) :
  (r < ROWS)%nat ->
  exists row, nth_error (fst (genRows 0 ROWS g)) r = Some row /\ List.length row = S r.
Proof.
  intros Hr. eexists; split; [apply genRows_nth; exact Hr|].
  now rewrite genRow_length.
Qed.

(** ** The digest and the seed *)

Lemma round_length (v : list Z) (kw : Z * Z) :
  List.length (SHA256.round v kw) = List.length v.
Proof.
  unfold SHA256.round.
  destruct v as [|a [|b [|c [|d [|e [|f [|g [|h [|i v]]]]]]]]]; reflexivity.
Qed.

Lemma rounds_length (l : list (Z * Z)) (v : list Z) :
  List.length (fold_left SHA256.round l v) = List.length v.
Proof.
  revert v; induction l as [|kw l IH]; intros v; cbn [fold_left]; [reflexivity|].
  now rewrite IH, round_length.
Qed.

Lemma add_words_length (a b : list Z) :
  List.length a = List.length b -> List.length (SHA256.add_words a b) = List.length a.
Proof.
  revert b; induction a as [|x a IH]; intros [|y b] H; cbn in *; try congruence.
  now rewrite IH by congruence.
Qed.

Lemma compress_length (h block : list Z) :
  List.length (SHA256.compress h block) = List.length h.
Proof.
  unfold SHA256.compress. apply add_words_length. now rewrite rounds_length.
Qed.

Lemma blocks_length (n : nat) (bs h : list Z) :
  List.length (SHA256.blocks n bs h) = List.length h.
Proof.
  revert bs h; induction n as [|n IH]; intros bs h; cbn [SHA256.blocks]; [reflexivity|].
  now rewrite IH, compress_length.
Qed.

Lemma digest_length (msg : list Z) : List.length (SHA256.digest msg) = 8%nat.
Proof. unfold SHA256.digest. now rewrite blocks_length. Qed.

Lemma unhex_hexdigit (n : Z) :
  0 <= n < 16 -> Buffer.unhex (SHA256.hexdigit n) = Some n.
Proof.
  intros H. destruct n as [|p|p]; [reflexivity| |lia].
  repeat (destruct p as [p|p|]; try lia); reflexivity.
Qed.

(** The hexadecimal digest decodes to at least four bytes. *)
Lemma hex_decode_sha256 (s : string) :
  exists b0 b1 b2 b3 rest, Buffer.hex_decode (sha256 s) = b0 :: b1 :: b2 :: b3 :: rest.
Proof.
  unfold sha256.
  pose proof (digest_length (SHA256.bytes_of_string s)) as Hl.
  destruct (SHA256.digest (SHA256.bytes_of_string s)) as [|w ws]; [discriminate|].
  cbn [SHA256.hex_words SHA256.hex_word Buffer.hex_decode].
  repeat rewrite unhex_hexdigit by (apply Z.mod_pos_bound; lia).
  do 5 eexists. reflexivity.
Qed.

Lemma readUInt32BE_long (buf : list Z) :
  (4 <= List.length buf)%nat -> exists n, Buffer.readUInt32BE buf = Ok n.
Proof.
  destruct buf as [|b0 [|b1 [|b2 [|b3 rest]]]]; cbn [List.length]; try lia.
  intros _. eexists; reflexivity.
Qed.

(** Reading the seed never throws. *)
Lemma seedInt_total (s : string) : exists seed, seedInt s = Ok seed.
Proof.
  unfold seedInt, seedBuffer, Buffer.from_hex; cbn [bind try_catch].
  destruct (hex_decode_sha256 s) as (b0 & b1 & b2 & b3 & rest & Hh).
  destruct (List.length (Buffer.hex_decode s) <? 4)%nat eqn:E; cbn [bind try_catch].
  - rewrite Hh. eexists; reflexivity.
  - apply Nat.ltb_ge in E. exact (readUInt32BE_long _ E).
Qed.

Lemma offset_rows : offset 0 ROWS = 78%nat.
Proof. reflexivity. Qed.

Lemma createGameEngine_seed (s : string) (seed : Z) :
  seedInt s = Ok seed ->
  createGameEngine s
  = Ok (mkEngine (fst (genRows 0 ROWS (Xorshift32.new seed)))
                 (skip 78 (Xorshift32.new seed))).
Proof.
  intros H. unfold createGameEngine. rewrite H; cbn [bind].
  rewrite <- offset_rows, <- genRows_prng.
  now destruct (genRows 0 ROWS (Xorshift32.new seed)).
Qed.

(** ** The walk *)

Lemma half_rows : Z.of_nat ROWS / 2 = 6.
Proof. reflexivity. Qed.

(** The two conditionals of [run] are the clamp to [0, 1]. *)
Lemma clamp_steps (b : JS.number) :
  (let b1 := if JS.ltb b (JS.of_Z 0) then JS.of_Z 0 else b in
   if JS.gtb b1 (JS.of_Z 1) then JS.of_Z 1 else b1)
  = clamp b (JS.of_Z 0) (JS.of_Z 1).
Proof.
  unfold clamp; cbv zeta.
  destruct (JS.ltb b (JS.of_Z 0)); [|reflexivity].
  replace (JS.gtb (JS.of_Z 0) (JS.of_Z 1)) with false by (now vm_compute).
  reflexivity.
Qed.

Lemma step_decision (pm : PegMap) (dc : JS.number) (r : nat) (w : walk) (peg : Peg) :
  pegAt pm r (Nat.min (w_pos w) r) = Some peg ->
  step pm dc r w
  = Ok (mkWalk (w_path w ++ [decision (leftBias peg) dc (draw 0 (w_prng w))])
               (w_pos w + rights (decision (leftBias peg) dc (draw 0 (w_prng w))))
               (skip 1 (w_prng w))).
Proof.
  unfold pegAt, step, index. intros H.
  destruct (nth_error pm r) as [row|]; [|discriminate].
  cbn [bind]. rewrite H. cbn [bind].
  rewrite nextFloat_draw, half_rows.
  fold (adjustment dc). rewrite clamp_steps.
  unfold decision.
  destruct (JS.ltb _ _); cbn [rights]; rewrite ?Nat.add_0_r; reflexivity.
Qed.

Lemma wide_enough_pegAt (pm : PegMap) (r c : nat) :
  wide_enough pm -> (r < ROWS)%nat -> (c <= r)%nat ->
  exists peg, pegAt pm r c = Some peg.
Proof.
  intros Hpm Hr Hc. destruct (Hpm r Hr) as (row & Hrow & Hlen).
  unfold pegAt. rewrite Hrow.
  destruct (nth_error row c) as [peg|] eqn:E; [now exists peg|].
  apply nth_error_None in E. lia.
Qed.

Lemma genRows_wide_enough (g : Xorshift32.t) : wide_enough (fst (genRows 0 ROWS g)).
Proof.
  intros r Hr. destruct (genRows_row g r Hr) as (row & H1 & H2).
  exists row; split; [exact H1 | lia].
Qed.

(** [n] iterations from row [r]: the moves they append, the position, the
    generator, and the rule that each appended move obeys. *)
Lemma loop_trace (pm : PegMap) (dc : JS.number) (Hpm : wide_enough pm) :
  forall (n r : nat) (w : walk), (r + n <= ROWS)%nat ->
  exists ms : list Move,
    List.length ms = n /\
    loop pm dc r n w
    = Ok (mkWalk (w_path w ++ ms) (w_pos w + countRight ms) (skip n (w_prng w))) /\
    forall k, (k < n)%nat ->
      exists peg,
        pegAt pm (r + k) (Nat.min (w_pos w + countRight (firstn k ms)) (r + k)) = Some peg /\
        nth_error ms k = Some (decision (leftBias peg) dc (draw k (w_prng w))).
Proof.
  induction n as [|n IH]; intros r w Hn.
  - exists []. cbn [loop countRight skip List.length]. rewrite app_nil_r, Nat.add_0_r.
    destruct w. repeat split. intros k Hk; lia.
  - destruct (wide_enough_pegAt pm r (Nat.min (w_pos w) r) Hpm) as [peg Hpeg]; [lia | lia |].
    cbn [loop]. rewrite (step_decision _ _ _ _ _ Hpeg). cbn [bind].
    set (m := decision (leftBias peg) dc (draw 0 (w_prng w))).
    set (w1 := mkWalk _ _ _).
    destruct (IH (S r) w1) as (ms & Hlen & Hloop & Hrule); [lia|].
    exists (m :: ms). split; [cbn [List.length]; now rewrite Hlen|]. split.
    + rewrite Hloop. subst w1; cbn [w_path w_pos w_prng countRight].
      rewrite <- app_assoc. cbn [app]. rewrite <- skip_S.
      f_equal. f_equal. lia.
    + intros [|k] Hk.
      * exists peg. cbn [firstn countRight nth_error]. rewrite !Nat.add_0_r.
        split; [exact Hpeg | reflexivity].
      * destruct (Hrule k) as (peg' & Hp' & Hm'); [lia|].
        exists peg'. subst w1; cbn [w_path w_pos w_prng] in Hp', Hm'.
        cbn [firstn countRight nth_error]. rewrite draw_S.
        replace (r + S k)%nat with (S r + k)%nat by lia.
        replace (w_pos w + (rights m + countRight (firstn k ms)))%nat
          with (w_pos w + rights m + countRight (firstn k ms))%nat by lia.
        split; assumption.
Qed.

Lemma loop_prefix (pm : PegMap) (dc : JS.number) :
  forall (n r k : nat) (w w' : walk), (k <= n)%nat ->
  loop pm dc r n w = Ok w' ->
  exists wk, loop pm dc r k w = Ok wk /\ loop pm dc (r + k) (n - k) wk = Ok w'.
Proof.
  induction n as [|n IH]; intros r k w w' Hk H.
  - assert (k = 0)%nat by lia; subst. exists w. rewrite Nat.add_0_r. split; [reflexivity | exact H].
  - destruct k as [|k].
    + exists w. rewrite Nat.add_0_r. split; [reflexivity | exact H].
    + cbn [loop] in *. destruct (step pm dc r w) as [w1|e]; cbn [bind] in *; [|discriminate].
      destruct (IH (S r) k w1 w') as (wk & H1 & H2); [lia | exact H |].
      exists wk. split; [exact H1|].
      replace (r + S k)%nat with (S r + k)%nat by lia. exact H2.
Qed.

(** The whole walk from generator [g]: the path, the state after each row
    and the rule of each row. *)
Lemma run_trace (pm : PegMap) (dc : JS.number) (g : Xorshift32.t) :
  wide_enough pm ->
  exists p : list Move,
    List.length p = ROWS /\
    (forall k, (k <= ROWS)%nat ->
       loop pm dc 0 k (mkWalk [] 0 g)
       = Ok (mkWalk (firstn k p) (countRight (firstn k p)) (skip k g))) /\
    (forall r, (r < ROWS)%nat ->
       exists peg,
         pegAt pm r (Nat.min (countRight (firstn r p)) r) = Some peg /\
         nth_error p r = Some (decision (leftBias peg) dc (draw r g))).
Proof.
  intros Hpm.
  destruct (loop_trace pm dc Hpm ROWS 0 (mkWalk [] 0 g)) as (p & Hlen & Hloop & Hrule); [lia|].
  cbn [w_path w_pos w_prng app] in *.
  exists p. split; [exact Hlen|]. split.
  - intros k Hk.
    destruct (loop_prefix pm dc ROWS 0 k _ _ Hk Hloop) as (wk & H1 & H2).
    destruct (loop_trace pm dc Hpm k 0 (mkWalk [] 0 g)) as (q & Hq & Hk1 & _); [lia|].
    cbn [w_path w_pos w_prng app] in Hk1.
    rewrite Hk1 in H1. cbn [Nat.add] in H1. injection H1 as <-.
    destruct (loop_trace pm dc Hpm (ROWS - k) k (mkWalk q (countRight q) (skip k g)))
      as (q' & Hq' & Hk2 & _); [lia|].
    cbn [w_path w_pos w_prng] in Hk2. cbn [Nat.add] in H2. rewrite Hk2 in H2.
    apply (f_equal (fun x => match x with Ok w => w_path w | Throw _ => [] end)) in H2.
    cbn [w_path] in H2.
    rewrite Hk1. subst p.
    assert (Hf : firstn k (q ++ q') = q).
    { rewrite <- Hq. now rewrite firstn_app, Nat.sub_diag, firstn_all, firstn_O, app_nil_r. }
    rewrite Hf. reflexivity.
  - intros r Hr. destruct (Hrule r Hr) as (peg & H1 & H2).
    exists peg. cbn [Nat.add] in H1. split; assumption.
Qed.

Lemma run_of_trace (pm : PegMap) (dc : JS.number) (g : Xorshift32.t) (p : list Move) :
  List.length p = ROWS ->
  loop pm dc 0 ROWS (mkWalk [] 0 g)
  = Ok (mkWalk (firstn ROWS p) (countRight (firstn ROWS p)) (skip ROWS g)) ->
  run (mkEngine pm g) dc
  = Ok (mkPathResult p (countRight p), mkEngine pm (skip ROWS g)).
Proof.
  intros Hlen H. unfold run; cbn [pegMap prng]. rewrite H; cbn [bind w_path w_pos w_prng].
  rewrite <- Hlen at 1 2. now rewrite firstn_all.
Qed.

(** ** The draws of an engine *)

(** The draws of a generator made by the constructor come from nonzero
    32-bit states. *)
Lemma draw_of_stream (seed : Z) (n : nat) :
  exists z, 0 < z < 2 ^ 32 /\
            Xorshift32.state (skip (S n) (Xorshift32.new seed)) = z /\
            draw n (Xorshift32.new seed) = JS.div (JS.of_Z z) Xorshift32.two32.
Proof.
  pose proof (new_state_range seed) as H0.
  assert (Hn : 0 < Xorshift32.state (skip n (Xorshift32.new seed)) < 2 ^ 32).
  { rewrite skip_state. apply iterate_advance_range. lia. }
  set (g := skip n (Xorshift32.new seed)) in *.
  exists (Xorshift32.advance (Xorshift32.state g)).
  assert (Hz : 0 < Xorshift32.advance (Xorshift32.state g) < 2 ^ 32).
  { rewrite advance_xorshift32, u32_small by lia. apply xorshift32_nonzero. lia. }
  split; [exact Hz|]. split.
  - replace (S n) with (n + 1)%nat by lia. rewrite skip_add. reflexivity.
  - unfold draw. fold g. unfold Xorshift32.nextFloat. cbn [fst].
    rewrite js_shru_0, u32_small by lia. reflexivity.
Qed.

(** ** The model on the values of the test suite *)

Example sha256_of_test :
  sha256 "test"
  = "9f86d081884c7d659a2feaa0c55ad015a3bf4f1b2b0b822cd15d6c15b0f00a08"%string.
Proof. vm_compute. reflexivity. Qed.

Example commit_of_the_vector :
  generateCommit "b2a5f3f32a4d9c6ee7a8c1d33456677890abcdeffedcba0987654321ffeeddcc" "42"
  = "bb9acdc67f3f18f3345236a01f0e5072596657a9005c7d8a22cff061451a6b34"%string.
Proof. vm_compute. reflexivity. Qed.

Example combined_seed_of_the_vector :
  generateCombinedSeed
    "b2a5f3f32a4d9c6ee7a8c1d33456677890abcdeffedcba0987654321ffeeddcc"
    "candidate-hello" "42"
  = expectedCombined.
Proof. vm_compute. reflexivity. Qed.

(** [Math.round(2.5)] is 3, [Math.round(-2.5)] is -2 and [Math.round(-0.2)]
    is -0; rounding ties away from zero takes -2.5 to -3. *)
Example Math_round_ties :
  JS.Math_round (JS.dec 25 1) = JS.of_Z 3 /\
  JS.Math_round (SFopp (JS.dec 25 1)) = JS.of_Z (-2) /\
  JS.Math_round (SFopp (JS.dec 2 1)) = S754_zero true /\
  round_half_away (SFopp (JS.dec 25 1)) = JS.of_Z (-3).
Proof. repeat split; vm_compute; reflexivity. Qed.

(** [1 << 31] is negative and [-1 >>> 0] is 4294967295. *)
Example int32_operators :
  JS.shl 1 31 = -2147483648 /\ JS.shru (-1) 0 = 4294967295 /\
  JS.xor 4294967295 1 = -2.
Proof. repeat split; reflexivity. Qed.

(** ** The path simulator *)

(** C1. For every peg field built by the field builder (from any generator
    [g0]), every drop column and every generator state [g], [run] walks rows
    0..11 in increasing order: after [k] rows its path is the first [k]
    moves, its position is the number of [Right] among them and its generator
    has made exactly [k] draws; the move of row [r] is decided by the peg at
    index [min pos r] of row [r], whose bias plus
    [adj = (dropColumn - 6) * 0.01] is clamped to [0, 1] and compared with
    draw [r]: [Left] (position unchanged) when the draw is below it, [Right]
    (position plus one) otherwise.  The engine returned has the same field and
    a generator advanced by exactly 12 draws. *)
Theorem run_walks_by_the_rule (g0 g : Xorshift32.t) (dc : JS.number) :
  let pm := fst (genRows 0 ROWS g0) in
  exists p : list Move,
    run (mkEngine pm g) dc
    = Ok (mkPathResult p (countRight p), mkEngine pm (skip 12 g)) /\
    (forall k, (k <= 12)%nat ->
       loop pm dc 0 k (mkWalk [] 0 g)
       = Ok (mkWalk (firstn k p) (countRight (firstn k p)) (skip k g))) /\
    (forall r, (r < 12)%nat ->
       exists peg,
         pegAt pm r (Nat.min (countRight (firstn r p)) r) = Some peg /\
         nth_error p r
         = Some (if JS.ltb (draw r g)
                           (clamp (JS.add (leftBias peg)
                                          (JS.mul (JS.sub dc (JS.of_Z 6)) (JS.dec 1 2)))
                                  (JS.of_Z 0) (JS.of_Z 1))
                 then Left else Right) /\
         countRight (firstn (S r) p)
         = (countRight (firstn r p)
            + match nth_error p r with Some Right => 1 | _ => 0 end)%nat).
Proof.
  intros pm.
  destruct (run_trace pm dc g (genRows_wide_enough g0)) as (p & Hlen & Hst & Hrule).
  exists p. split; [|split].
  - apply run_of_trace; [exact Hlen | apply Hst; reflexivity].
  - exact Hst.
  - intros r Hr. destruct (Hrule r Hr) as (peg & H1 & H2).
    exists peg. split; [exact H1|]. split; [exact H2|].
    apply countRight_firstn_nth. rewrite Hlen; exact Hr.
Qed.

(** C2. For every combined seed and every drop column the engine is created
    and [run] returns a path of exactly 12 moves, each [Left] or [Right]; the
    bin index is the number of [Right] moves and lies in [0, 12]; the position
    after [k] rows is the number of [Right] among the first [k] moves, it
    starts at 0 and from one row to the next it never decreases and grows by
    at most 1. *)
Theorem run_outcome_well_formed (s : string) (dc : JS.number) :
  exists e res e',
    createGameEngine s = Ok e /\
    run e dc = Ok (res, e') /\
    List.length (path res) = 12%nat /\
    (forall m, In m (path res) -> m = Left \/ m = Right) /\
    binIndex res = countRight (path res) /\
    (0 <= binIndex res <= 12)%nat /\
    (forall k, (k <= 12)%nat ->
       exists wk, loop (pegMap e) dc 0 k (mkWalk [] 0 (prng e)) = Ok wk /\
                  w_pos wk = countRight (firstn k (path res))) /\
    countRight (firstn 0 (path res)) = 0%nat /\
    (forall k, (k < 12)%nat ->
       (countRight (firstn k (path res)) <= countRight (firstn (S k) (path res))
        <= countRight (firstn k (path res)) + 1)%nat).
Proof.
  destruct (seedInt_total s) as [seed Hseed].
  pose proof (createGameEngine_seed s seed Hseed) as He.
  set (g0 := Xorshift32.new seed) in *.
  destruct (run_trace (fst (genRows 0 ROWS g0)) dc (skip 78 g0) (genRows_wide_enough g0))
    as (p & Hlen & Hst & _).
  eexists _, _, _. split; [exact He|]. split.
  { apply run_of_trace; [exact Hlen | apply Hst; reflexivity]. }
  cbn [path binIndex pegMap prng].
  split; [exact Hlen|].
  split; [intros [] _; auto|].
  split; [reflexivity|].
  split; [pose proof (countRight_le_length p); change ROWS with 12%nat in Hlen; lia|].
  split; [intros k Hk; eexists; split; [apply Hst; exact Hk | reflexivity]|].
  split; [reflexivity|].
  intros k _. apply countRight_firstn_S.
Qed.

(** ** One stream for the field and the walk *)

(** C5. For every combined seed, with [g0] the generator seeded from it: the
    peg in row [r], column [c] of the field is built from draw
    [r (r + 1) / 2 + c] (counted from 0), these are the first 78 draws, the
    generator the engine keeps is [g0] after exactly 78 draws, and the
    decision of row [r] of the first walk is taken with draw [78 + r], that
    is the [(79 + r)]-th of the stream. *)
Theorem field_then_walk_one_stream (s : string) :
  exists seed e,
    seedInt s = Ok seed /\
    createGameEngine s = Ok e /\
    let g0 := Xorshift32.new seed in
    (forall r c, (r < 12)%nat -> (c <= r)%nat ->
       (r * (r + 1) / 2 + c < 78)%nat /\
       pegAt (pegMap e) r c = Some (pegOf (draw (r * (r + 1) / 2 + c) g0))) /\
    prng e = skip 78 g0 /\
    forall dc, exists res e',
      run e dc = Ok (res, e') /\
      prng e' = skip 90 g0 /\
      forall r, (r < 12)%nat ->
        exists peg,
          pegAt (pegMap e) r (Nat.min (countRight (firstn r (path res))) r) = Some peg /\
          nth_error (path res) r = Some (decision (leftBias peg) dc (draw (78 + r) g0)).
Proof.
  destruct (seedInt_total s) as [seed Hseed].
  pose proof (createGameEngine_seed s seed Hseed) as He.
  eexists seed, _. split; [exact Hseed|]. split; [exact He|].
  intros g0. cbn [pegMap prng]. split; [|split; [reflexivity|]].
  - intros r c Hr Hc. split.
    + assert (r * (r + 1) <= 11 * 12)%nat by nia.
      pose proof (Nat.Div0.div_le_mono (r * (r + 1)) (11 * 12) 2 H) as H2.
      change (11 * 12 / 2)%nat with 66%nat in H2. lia.
    + apply genRows_pegAt; assumption.
  - intros dc.
    destruct (run_trace (fst (genRows 0 ROWS g0)) dc (skip 78 g0) (genRows_wide_enough g0))
      as (p & Hlen & Hst & Hrule).
    eexists _, _. split.
    { apply run_of_trace; [exact Hlen | apply Hst; reflexivity]. }
    cbn [path prng]. split.
    + change ROWS with 12%nat. rewrite <- skip_add. reflexivity.
    + intros r Hr. destruct (Hrule r Hr) as (peg & H1 & H2).
      exists peg. split; [exact H1|]. now rewrite <- draw_skip.
Qed.

(** ** The generator *)

(** C3. The state of a generator is one unsigned 32-bit word: the constructor
    stores the seed reduced modulo 2^32, and 1 when that is 0; a draw
    replaces the state [x] (the word [state g mod 2^32], which is the state
    itself for a 32-bit state) by the result of [x ^= x << 13],
    [x ^= x >>> 17], [x ^= x << 5] computed on unsigned 32-bit words with
    wrap-around, stores it, and returns the number [state / 4294967296],
    whose exact value is [state / 2^32] and which lies in [0, 1). *)
Theorem xorshift32_draw (seed : Z) (g : Xorshift32.t) :
  Xorshift32.state (Xorshift32.new seed)
  = (if seed mod 2 ^ 32 =? 0 then 1 else seed mod 2 ^ 32) /\
  0 <= Xorshift32.state (Xorshift32.new seed) < 2 ^ 32 /\
  let x0 := Xorshift32.state g mod 2 ^ 32 in
  let x1 := Z.lxor x0 (Z.shiftl x0 13) mod 2 ^ 32 in
  let x2 := Z.lxor x1 (Z.shiftr x1 17) mod 2 ^ 32 in
  let x3 := Z.lxor x2 (Z.shiftl x2 5) mod 2 ^ 32 in
  let r := fst (Xorshift32.nextFloat g) in
  Xorshift32.nextFloat g
  = (JS.div (JS.of_Z x3) (JS.of_Z 4294967296), Xorshift32.mk x3) /\
  0 <= x3 < 2 ^ 32 /\
  (0 <= Xorshift32.state g < 2 ^ 32 -> x0 = Xorshift32.state g) /\
  (Qvalue r == x3 # 4294967296)%Q /\
  JS.leb (JS.of_Z 0) r = true /\ JS.ltb r (JS.of_Z 1) = true.
Proof.
  split; [apply new_state|]. split; [pose proof (new_state_range seed); lia|].
  intros x0 x1 x2 x3 r.
  assert (Hadv : Xorshift32.advance (Xorshift32.state g) = x3).
  { rewrite advance_xorshift32. reflexivity. }
  assert (Hx3 : 0 <= x3 < 2 ^ 32) by (apply Z.mod_pos_bound; lia).
  assert (Hnext : Xorshift32.nextFloat g
                  = (JS.div (JS.of_Z x3) (JS.of_Z 4294967296), Xorshift32.mk x3)).
  { unfold Xorshift32.nextFloat. rewrite Hadv, js_shru_0, u32_small by exact Hx3.
    reflexivity. }
  split; [exact Hnext|]. split; [exact Hx3|].
  split; [intros H; apply Z.mod_small; exact H|].
  subst r. rewrite Hnext. cbn [fst].
  destruct (Z.eq_dec x3 0) as [E|E].
  - rewrite E. split; [reflexivity|]. split; reflexivity.
  - destruct (draw_facts x3 ltac:(lia)) as (H1 & H2 & H3).
    split; [exact H3|]. split; [|exact H2].
    destruct (draw_value x3 ltac:(lia)) as (q & Hq & _).
    change (JS.of_Z 4294967296) with Xorshift32.two32. rewrite Hq. reflexivity.
Qed.

(** C9. For every seed and every number of draws already made, the state
    of the generator is a nonzero 32-bit word and the next draw lies
    strictly between 0 and 1.  The advance function maps nonzero 32-bit
    words to nonzero 32-bit words; on 32-bit words it is injective and
    onto, it maps 0 to 0 and it maps no other word to itself. *)
Theorem xorshift32_state_never_zero (seed : Z) (n : nat) :
  0 < Xorshift32.state (Xorshift32.new seed) < 2 ^ 32 /\
  0 < Xorshift32.state (skip n (Xorshift32.new seed)) < 2 ^ 32 /\
  (forall x, 0 < x < 2 ^ 32 -> 0 < Xorshift32.advance x < 2 ^ 32) /\
  (forall x y, 0 <= x < 2 ^ 32 -> 0 <= y < 2 ^ 32 ->
     Xorshift32.advance x = Xorshift32.advance y -> x = y) /\
  (forall y, 0 <= y < 2 ^ 32 ->
     exists x, 0 <= x < 2 ^ 32 /\ Xorshift32.advance x = y) /\
  Xorshift32.advance 0 = 0 /\
  (forall x, 0 <= x < 2 ^ 32 -> Xorshift32.advance x = x -> x = 0) /\
  JS.ltb (JS.of_Z 0) (draw n (Xorshift32.new seed)) = true /\
  JS.ltb (draw n (Xorshift32.new seed)) (JS.of_Z 1) = true /\
  draw n (Xorshift32.new seed) <> JS.of_Z 0.
Proof.
  pose proof (new_state_range seed) as H0.
  split; [lia|]. split.
  { rewrite skip_state. apply iterate_advance_range. lia. }
  split.
  { intros x Hx. rewrite advance_xorshift32, u32_small by lia.
    apply xorshift32_nonzero, Hx. }
  split.
  { intros x y Hx Hy. rewrite !advance_xorshift32, !u32_small by lia.
    apply xorshift32_injective; assumption. }
  split.
  { intros y Hy. exists (unxorshift32 y). split; [apply u32_range|].
    rewrite advance_xorshift32, u32_small by apply u32_range.
    apply xorshift32_unxorshift32, Hy. }
  split; [reflexivity|]. split.
  { intros x Hx. rewrite advance_xorshift32, u32_small by lia.
    apply xorshift32_fixpoint, Hx. }
  destruct (draw_of_stream seed n) as (z & Hz & _ & ->).
  destruct (draw_facts z Hz) as (H1 & H2 & _).
  split; [exact H1|]. split; [exact H2|].
  destruct (draw_value z Hz) as (q & -> & _). discriminate.
Qed.

(** ** The peg field *)

(** C4, the claim as stated fails: the stored bias is not always the bias
    rounded to 6 decimals.  The combined seed ["46202100"] makes the first
    draw 0.0078125; the bias before rounding is the binary64 number just
    below 0.4015625, whose rounding to 6 decimals is 0.401562; its product
    with 1000000 rounds, in binary64, to 401562.5, which [Math.round] takes
    to 401563: the peg in row 0 holds 0.401563. *)
Lemma stored_bias_is_not_the_exact_rounding :
  exists e bias,
    createGameEngine "46202100" = Ok e /\
    draw 0 (Xorshift32.new 0x46202100) = JS.dec 78125 7 /\
    bias = unroundedBias (JS.dec 78125 7) /\
    (Qvalue bias < 4015625 # 10000000)%Q /\
    decimals 6 bias = 401562 /\
    JS.mul bias (JS.of_Z 1000000) = JS.dec 4015625 1 /\
    pegAt (pegMap e) 0 0 = Some (mkPeg (JS.dec 401563 6)).
Proof.
  eexists _, _.
  split; [vm_compute; reflexivity|].
  split; [vm_compute; reflexivity|].
  split; [reflexivity|].
  split; [vm_compute; reflexivity|].
  split; [vm_compute; reflexivity|].
  split; vm_compute; reflexivity.
Qed.

(** C4, amended. For every combined seed the engine is created with a field
    of exactly 12 rows, row [r] holding exactly [r + 1] pegs.  The peg in row
    [r], column [c] is built from one draw [d]: its bias before rounding,
    [0.5 + (d - 0.5) * 0.2], lies between the numbers 0.4 and 0.6 (and its
    exact value between 4/10 and 6/10); the stored bias is the binary64
    product of that bias and 1000000, rounded to the nearest integer with
    ties away from zero, divided by 1000000; it lies in [0, 1]. *)
Theorem peg_field_shape_and_biases (s : string) :
  exists seed e,
    seedInt s = Ok seed /\
    createGameEngine s = Ok e /\
    List.length (pegMap e) = 12%nat /\
    forall r, (r < 12)%nat ->
      exists row,
        nth_error (pegMap e) r = Some row /\
        List.length row = (r + 1)%nat /\
        forall c, (c <= r)%nat ->
          let d := draw (r * (r + 1) / 2 + c) (Xorshift32.new seed) in
          let bias := JS.add (JS.dec 5 1) (JS.mul (JS.sub d (JS.dec 5 1)) (JS.dec 2 1)) in
          let stored :=
            JS.div (round_half_away (JS.mul bias (JS.of_Z 1000000))) (JS.of_Z 1000000) in
          nth_error row c = Some (mkPeg stored) /\
          JS.leb (JS.dec 4 1) bias = true /\ JS.leb bias (JS.dec 6 1) = true /\
          (4 # 10 <= Qvalue bias <= 6 # 10)%Q /\
          JS.leb (JS.of_Z 0) stored = true /\ JS.leb stored (JS.of_Z 1) = true.
Proof.
  destruct (seedInt_total s) as [seed Hseed].
  pose proof (createGameEngine_seed s seed Hseed) as He.
  eexists seed, _. split; [exact Hseed|]. split; [exact He|].
  cbn [pegMap]. set (g0 := Xorshift32.new seed).
  split; [apply genRows_length|].
  intros r Hr. destruct (genRows_row g0 r Hr) as (row & Hrow & Hlen).
  exists row. split; [exact Hrow|]. split; [lia|].
  intros c Hc.
  pose proof (genRows_pegAt g0 r c Hr Hc) as Hpeg.
  unfold pegAt in Hpeg. rewrite Hrow in Hpeg.
  destruct (draw_of_stream seed (r * (r + 1) / 2 + c)) as (z & Hz & _ & Hd).
  fold g0 in Hd.
  destruct (peg_bias_facts z Hz) as (H1 & H2 & H3 & H4 & H5 & H6).
  rewrite <- Hd in H1, H2, H3, H4, H5, H6.
  remember (draw (r * (r + 1) / 2 + c) g0) as d eqn:Ed. clear Ed Hd.
  rewrite <- !unroundedBias_eq.
  rewrite <- H4.
  split; [exact Hpeg|]. split; [exact H1|]. split; [exact H2|].
  split; [exact H3|]. split; [exact H5 | exact H6].
Qed.

(** ** The test vector *)

(** C6. The combined seed of the test vector decodes to bytes that start with
    e1 dd df 77, so the seed is 0xe1dddf77; the first five draws print as
    0.1106166649, 0.7625129214, 0.0439292176, 0.4578678815 and 0.3438999297
    with 10 decimals; rows 0, 1 and 2 of the field hold the numbers 0.422123,
    0.552503, 0.408786, 0.491574, 0.468780 and 0.436540; and [run] with drop
    column 6 returns bin index 6. *)
Theorem test_vector_reproduced :
  firstn 4 (Buffer.hex_decode expectedCombined) = [0xe1; 0xdd; 0xdf; 0x77] /\
  seedInt expectedCombined = Ok 0xe1dddf77 /\
  map (fun n => decimals 10 (draw n (Xorshift32.new 0xe1dddf77))) [0; 1; 2; 3; 4]%nat
  = [1106166649; 7625129214; 439292176; 4578678815; 3438999297] /\
  exists e res e',
    createGameEngine expectedCombined = Ok e /\
    firstn 3 (pegMap e)
    = [ [mkPeg (JS.dec 422123 6)];
        [mkPeg (JS.dec 552503 6); mkPeg (JS.dec 408786 6)];
        [mkPeg (JS.dec 491574 6); mkPeg (JS.dec 468780 6); mkPeg (JS.dec 436540 6)] ] /\
    run e (JS.of_Z 6) = Ok (res, e') /\
    binIndex res = 6%nat.
Proof.
  split; [vm_compute; reflexivity|].
  split; [vm_compute; reflexivity|].
  split; [vm_compute; reflexivity|].
  eexists _, _, _.
  split; [vm_compute; reflexivity|].
  split; [vm_compute; reflexivity|].
  split; [vm_compute; reflexivity|].
  reflexivity.
Qed.

(** ** Drop columns outside the range *)

(** C7, the claim as stated fails: on the engine of the test vector, [run]
    with drop column 13, which is outside [0, 12], raises nothing and returns
    a path of 12 moves with bin index 5. *)
Lemma run_out_of_range_completes :
  in_range (JS.of_Z 13) = false /\
  exists e e',
    createGameEngine expectedCombined = Ok e /\
    run e (JS.of_Z 13)
    = Ok (mkPathResult
            [Left; Left; Left; Right; Left; Left; Left; Right; Left; Right; Right; Right]
            5, e').
Proof.
  split; [vm_compute; reflexivity|].
  eexists _, _.
  split; [vm_compute; reflexivity|].
  vm_compute. reflexivity.
Qed.

(** C7, amended. For every combined seed and every drop column, inside or
    outside [0, 12] and not a number included, [run] raises nothing: it
    returns a path of 12 moves whose bin index is its number of [Right] moves,
    at most 12.  The drop column is not clamped: it enters every decision
    through [adj = (dropColumn - 6) * 0.01] as it is, and only the adjusted
    bias is clamped to [0, 1]. *)
Theorem run_never_raises (s : string) (dc : JS.number) :
  exists e res e',
    createGameEngine s = Ok e /\
    run e dc = Ok (res, e') /\
    List.length (path res) = 12%nat /\
    binIndex res = countRight (path res) /\
    (binIndex res <= 12)%nat /\
    forall r, (r < 12)%nat ->
      exists peg,
        pegAt (pegMap e) r (Nat.min (countRight (firstn r (path res))) r) = Some peg /\
        nth_error (path res) r
        = Some (if JS.ltb (draw r (prng e))
                          (clamp (JS.add (leftBias peg)
                                         (JS.mul (JS.sub dc (JS.of_Z 6)) (JS.dec 1 2)))
                                 (JS.of_Z 0) (JS.of_Z 1))
                then Left else Right).
Proof.
  destruct (seedInt_total s) as [seed Hseed].
  pose proof (createGameEngine_seed s seed Hseed) as He.
  set (g0 := Xorshift32.new seed) in *.
  destruct (run_trace (fst (genRows 0 ROWS g0)) dc (skip 78 g0) (genRows_wide_enough g0))
    as (p & Hlen & Hst & Hrule).
  eexists _, _, _. split; [exact He|]. split.
  { apply run_of_trace; [exact Hlen | apply Hst; reflexivity]. }
  cbn [path binIndex pegMap prng].
  split; [exact Hlen|]. split; [reflexivity|].
  split; [pose proof (countRight_le_length p); change ROWS with 12%nat in Hlen; lia|].
  exact Hrule.
Qed.

(** ** Malformed combined seeds *)

(** C8, at the failing input: ["aabbccddzz"] is not valid hex, yet its four
    leading pairs decode, so the seed is read from them (0xaabbccdd) and not
    from the digest of the input, which would give another seed.  In general
    the digest is used exactly when fewer than 4 bytes decode, and the seed
    is always read without an error. *)
Theorem seed_of_partly_hex_input :
  valid_hex "aabbccddzz" = false /\
  seedInt "aabbccddzz" = Ok 0xaabbccdd /\
  Buffer.readUInt32BE (Buffer.hex_decode (sha256 "aabbccddzz")) = Ok 2070834320 /\
  (forall s,
     seedInt s
     = if (List.length (Buffer.hex_decode s) <? 4)%nat
       then Buffer.readUInt32BE (Buffer.hex_decode (sha256 s))
       else Buffer.readUInt32BE (Buffer.hex_decode s)) /\
  (forall s, exists seed, seedInt s = Ok seed).
Proof.
  split; [vm_compute; reflexivity|].
  split; [vm_compute; reflexivity|].
  split; [vm_compute; reflexivity|].
  split; [|exact seedInt_total].
  intros s. unfold seedInt, seedBuffer, Buffer.from_hex; cbn [bind try_catch].
  now destruct (List.length (Buffer.hex_decode s) <? 4)%nat.
Qed.

(** ** Running an engine twice *)

(** C10. [run] advances the generator of the engine: on the engine of the
    test vector two consecutive calls with drop column 6 return different
    paths and different bin indexes (6, then 3), the second call drawing where
    the first stopped; a fresh engine from the same seed returns the first
    outcome again. *)
Theorem run_twice_differs :
  exists (s : string) (dc : JS.number) e r1 e1 r2 e2,
    in_range dc = true /\
    createGameEngine s = Ok e /\
    run e dc = Ok (r1, e1) /\
    run e1 dc = Ok (r2, e2) /\
    path r1 <> path r2 /\
    binIndex r1 = 6%nat /\ binIndex r2 = 3%nat /\
    prng e1 = skip 12 (prng e) /\ prng e1 <> prng e /\
    prng e2 = skip 24 (prng e) /\
    (forall e', createGameEngine s = Ok e' -> exists e1', run e' dc = Ok (r1, e1')).
Proof.
  exists expectedCombined, (JS.of_Z 6).
  eexists _, _, _, _, _.
  split; [vm_compute; reflexivity|].
  split; [vm_compute; reflexivity|].
  split; [vm_compute; reflexivity|].
  split; [vm_compute; reflexivity|].
  cbn [path binIndex prng].
  split; [discriminate|]. split; [reflexivity|]. split; [reflexivity|].
  split; [vm_compute; reflexivity|].
  split; [vm_compute; discriminate|].
  split; [vm_compute; reflexivity|].
  intros e' He'. vm_compute in He'. injection He' as <-.
  eexists. vm_compute. reflexivity.
Qed.
(** ** The period of the generator *)

Lemma iterate_add (n m : nat) (f : Z -> Z) (x : Z) :
  iterate (n + m) f x = iterate m f (iterate n f x).
Proof.
  revert x; induction n as [|n IH]; intros x; cbn [iterate Nat.add]; [reflexivity|].
  apply IH.
Qed.

Lemma iterate_mul (n q : nat) (f : Z -> Z) (x : Z) :
  iterate n f x = x -> iterate (n * q) f x = x.
Proof.
  intros H. induction q as [|q IH].
  - now rewrite Nat.mul_0_r.
  - rewrite Nat.mul_succ_r, iterate_add, IH. exact H.
Qed.

Lemma iterate_agree (n : nat) (f g : Z -> Z) (P : Z -> Prop) (x : Z) :
  (forall y, P y -> f y = g y) -> (forall y, P y -> P (g y)) -> P x ->
  iterate n f x = iterate n g x.
Proof.
  intros Hfg HP. revert x; induction n as [|n IH]; intros x Hx; cbn [iterate]; [reflexivity|].
  rewrite (Hfg x Hx). apply IH, HP, Hx.
Qed.

(** The exponents that bring [x] back to itself are closed under the
    greatest common divisor. *)
Lemma iterate_gcd (f : Z -> Z) (x : Z) (a : Z) :
  0 <= a -> forall b, 0 <= b ->
  iterate (Z.to_nat a) f x = x -> iterate (Z.to_nat b) f x = x ->
  iterate (Z.to_nat (Z.gcd a b)) f x = x.
Proof.
  intros Ha. revert a Ha.
  apply (Z.strong_right_induction
           (fun a => forall b, 0 <= b ->
              iterate (Z.to_nat a) f x = x -> iterate (Z.to_nat b) f x = x ->
              iterate (Z.to_nat (Z.gcd a b)) f x = x)).
  intros a Ha IH b Hb Hfa Hfb.
  destruct (Z.eq_dec a 0) as [->|Hne].
  - rewrite Z.gcd_0_l, Z.abs_eq by exact Hb. exact Hfb.
  - pose proof (Z.mod_pos_bound b a ltac:(lia)) as Hr.
    rewrite <- Z.gcd_mod by exact Hne.
    apply IH; [lia | lia | lia | | exact Hfa].
    pose proof (Z.div_mod b a Hne) as Hdiv.
    assert (Hq : 0 <= b / a) by (apply Z.div_pos; lia).
    rewrite Hdiv in Hfb.
    rewrite Z2Nat.inj_add, Z2Nat.inj_mul, iterate_add in Hfb by nia.
    rewrite (iterate_mul _ _ _ _ Hfa) in Hfb. exact Hfb.
Qed.

(** *** Powers by matrices *)

Lemma apply_columns_compose (a b : list Z) (i x : Z) :
  apply_columns (map (apply_columns a 0) b) i x
  = apply_columns a 0 (apply_columns b i x).
Proof.
  revert i; induction b as [|c b IH]; intros i; cbn [map apply_columns].
  - symmetry. apply xor_linear_0, apply_columns_linear.
  - rewrite IH, (apply_columns_linear a 0).
    destruct (Z.testbit x i); [reflexivity|].
    now rewrite (xor_linear_0 _ (apply_columns_linear a 0)).
Qed.

Lemma power_columns_spec (t : list Z) (n : positive) (x : Z) :
  apply_columns (power_columns t n) 0 x
  = iterate (Pos.to_nat n) (apply_columns t 0) x.
Proof.
  revert x; induction n as [p IH|p IH|]; intros x; cbn [power_columns].
  - unfold compose_columns. rewrite !apply_columns_compose, !IH, Pos2Nat.inj_xI.
    replace (S (2 * Pos.to_nat p)) with (Pos.to_nat p + Pos.to_nat p + 1)%nat by lia.
    rewrite !iterate_add. reflexivity.
  - unfold compose_columns. rewrite apply_columns_compose, !IH, Pos2Nat.inj_xO.
    replace (2 * Pos.to_nat p)%nat with (Pos.to_nat p + Pos.to_nat p)%nat by lia.
    rewrite iterate_add. reflexivity.
  - reflexivity.
Qed.

(** The advance function is the map of its columns. *)
Lemma xorshift32_columns (x : Z) :
  0 <= x < 2 ^ 32 -> xorshift32 x = apply_columns (columns_of xorshift32) 0 x.
Proof.
  exact (linear_agree xorshift32 (apply_columns (columns_of xorshift32) 0)
           xorshift32_linear (apply_columns_linear _ 0) 32
           (basis_checked xorshift32 (apply_columns (columns_of xorshift32) 0) 32
              ltac:(vm_compute; reflexivity)) x).
Qed.

Lemma iterate_xorshift32_range (n : nat) (x : Z) :
  0 <= x < 2 ^ 32 -> 0 <= iterate n xorshift32 x < 2 ^ 32.
Proof.
  revert x; induction n as [|n IH]; intros x Hx; cbn [iterate]; [exact Hx|].
  apply IH, xorshift32_range.
Qed.

Lemma iterate_xorshift32_columns (n : positive) (x : Z) :
  0 <= x < 2 ^ 32 ->
  iterate (Pos.to_nat n) xorshift32 x
  = apply_columns (power_columns (columns_of xorshift32) n) 0 x.
Proof.
  intros Hx. rewrite power_columns_spec.
  apply (iterate_agree _ _ _ (fun y => 0 <= y < 2 ^ 32)); [| |exact Hx].
  - intros y Hy. apply xorshift32_columns, Hy.
  - intros y Hy. rewrite <- xorshift32_columns by exact Hy. apply xorshift32_range.
Qed.

(** After [2^32 - 1] steps every word is back. *)
Lemma xorshift32_period_returns (x : Z) :
  0 <= x < 2 ^ 32 -> iterate (Z.to_nat period) xorshift32 x = x.
Proof.
  intros Hx.
  change (Z.to_nat period) with (Pos.to_nat 4294967295).
  rewrite iterate_xorshift32_columns by exact Hx.
  replace (power_columns (columns_of xorshift32) 4294967295)
    with (columns_of (fun x => x)) by (vm_compute; reflexivity).
  exact (linear_agree (apply_columns (columns_of (fun x => x)) 0)
           (fun x => x) (apply_columns_linear _ 0) xor_linear_id 32
           (basis_checked (apply_columns (columns_of (fun x => x)) 0)
              (fun x => x) 32 ltac:(vm_compute; reflexivity)) x Hx).
Qed.

Lemma fixes_only_zero_sound (m : list Z) (x : Z) :
  fixes_only_zero m = true ->
  0 <= x < 2 ^ 32 -> apply_columns m 0 x = x -> x = 0.
Proof.
  unfold fixes_only_zero. intros Hc Hx Hfix.
  set (inv := power_columns (plus_identity m) (Z.to_pos (2 ^ 32 - 2))) in Hc.
  pose (g := fun x => apply_columns inv 0 (Z.lxor x (apply_columns m 0 x))).
  assert (Hg : xor_linear g).
  { apply (xor_linear_compose (apply_columns inv 0) (fun x => Z.lxor x (apply_columns m 0 x))).
    - apply apply_columns_linear.
    - apply (xor_linear_lxor (fun x => x) _ xor_linear_id (apply_columns_linear m 0)). }
  assert (Hid : g x = x).
  { exact (linear_agree g (fun x => x) Hg xor_linear_id 32
             (basis_checked g (fun x => x) 32 Hc) x Hx). }
  rewrite <- Hid. unfold g. rewrite Hfix, Z.lxor_nilpotent.
  apply xor_linear_0, apply_columns_linear.
Qed.

(** *** The divisors of the period *)

Lemma no_divisor_below_spec (p : Z) (n : nat) (k : Z) :
  no_divisor_below p n = true -> 2 <= k < 2 + Z.of_nat n -> ~ (k | p).
Proof.
  unfold no_divisor_below. rewrite forallb_forall. intros H Hk Hdiv.
  specialize (H (Z.to_nat k)). rewrite in_seq, Z2Nat.id in H by lia.
  assert (Hm : p mod k = 0) by (apply Z.mod_divide; [lia | exact Hdiv]).
  rewrite Hm in H. discriminate H. lia.
Qed.

Lemma prime_by_trial_spec (p k : Z) :
  prime_by_trial p = true -> 0 < k -> (k | p) -> k = 1 \/ k = p.
Proof.
  unfold prime_by_trial. rewrite andb_true_iff, Z.ltb_lt. intros [Hp Hnd] Hk [q Hq].
  pose proof (Z.sqrt_spec p ltac:(lia)) as Hs.
  pose proof (Z.sqrt_nonneg p) as Hn.
  remember (Z.sqrt p) as s eqn:Es. cbv zeta in Hs.
  assert (Hs0 : 1 <= s) by nia.
  assert (Hq0 : 0 < q) by nia.
  destruct (Z.eq_dec k 1) as [|Hk1]; [now left|].
  destruct (Z.eq_dec q 1) as [->|Hq1]; [right; lia|].
  exfalso.
  destruct (Z.le_gt_cases k s) as [Hle|Hgt].
  - apply (no_divisor_below_spec p _ k Hnd); [lia | now exists q].
  - assert (q <= s) by nia.
    apply (no_divisor_below_spec p _ q Hnd); [lia | exists k; lia].
Qed.

Lemma period_primes_product : period = fold_right Z.mul 1 period_primes.
Proof. reflexivity. Qed.

Lemma period_primes_checked : forallb prime_by_trial period_primes = true.
Proof. vm_compute. reflexivity. Qed.

(** A divisor of a product of primes, other than 1, is divisible by one
    of them. *)
Lemma divisor_of_primes (ps : list Z) (q : Z) :
  forallb prime_by_trial ps = true ->
  1 < q -> (q | fold_right Z.mul 1 ps) -> exists p, In p ps /\ (p | q).
Proof.
  intros Hps Hq. induction ps as [|p ps IH]; cbn [fold_right forallb] in *.
  - intros H. apply Z.divide_1_r in H. lia.
  - apply andb_true_iff in Hps as [Hp Hps]. intros Hdiv.
    pose proof (Z.gcd_divide_l q p) as Hgq.
    pose proof (Z.gcd_divide_r q p) as Hgp.
    pose proof (Z.gcd_nonneg q p) as Hg0.
    assert (Hgne : Z.gcd q p <> 0).
    { intros E. apply Z.gcd_eq_0_l in E. lia. }
    destruct (prime_by_trial_spec p (Z.gcd q p) Hp ltac:(lia) Hgp) as [E|E].
    + destruct (IH Hps) as (p' & Hin & Hd).
      { apply (Z.gauss q p); [exact Hdiv | exact E]. }
      exists p'. split; [now right | exact Hd].
    + exists p. split; [now left|]. rewrite <- E. exact Hgq.
Qed.

(** A proper divisor of the period divides the period over one of its
    primes. *)
Lemma proper_divisor_of_period (d : Z) :
  0 < d < period -> (d | period) ->
  exists p, In p period_primes /\ 0 < p /\ (p | period) /\ (d | period / p).
Proof.
  intros Hd [q Hq].
  assert (Hq1 : 1 < q) by nia.
  destruct (divisor_of_primes period_primes q period_primes_checked Hq1) as (p & Hin & [c Hc]).
  { rewrite <- period_primes_product. exists d. lia. }
  assert (Hp : 0 < p).
  { cbn [period_primes In] in Hin. lia. }
  exists p. split; [exact Hin|]. split; [exact Hp|]. split.
  - exists (c * d). nia.
  - exists c. symmetry. apply Z.div_unique_exact; [lia | nia].
Qed.

(** A nonzero word comes back to itself after [n] steps only when [n] is
    a multiple of the period. *)
Lemma xorshift32_no_early_return (x : Z) (n : Z) :
  0 < x < 2 ^ 32 -> 0 < n < period -> iterate (Z.to_nat n) xorshift32 x <> x.
Proof.
  intros Hx Hn Hfix.
  pose proof (xorshift32_period_returns x ltac:(lia)) as Hper.
  pose proof (iterate_gcd xorshift32 x n ltac:(lia) period ltac:(unfold period; lia) Hfix Hper)
    as Hg.
  pose proof (Z.gcd_divide_l n period) as Hgn.
  pose proof (Z.gcd_divide_r n period) as Hgp.
  pose proof (Z.gcd_nonneg n period) as Hg0.
  remember (Z.gcd n period) as d eqn:Ed.
  assert (Hd : 0 < d <= n).
  { split.
    - destruct (Z.eq_dec d 0) as [E|E]; [|lia].
      rewrite E in Ed. symmetry in Ed. apply Z.gcd_eq_0_l in Ed. lia.
    - apply Z.divide_pos_le; [lia | exact Hgn]. }
  destruct (proper_divisor_of_period d ltac:(lia) Hgp) as (p & Hin & Hp & Hpp & [c Hc]).
  assert (Hc0 : 0 <= c).
  { assert (0 <= period / p) by (apply Z.div_pos; unfold period; lia). nia. }
  assert (Hret : iterate (Z.to_nat (period / p)) xorshift32 x = x).
  { rewrite Hc, Z.mul_comm, Z2Nat.inj_mul by lia. apply iterate_mul, Hg. }
  assert (Hpos : 0 < period / p).
  { destruct Hpp as [k Hk]. rewrite Hk, Z.div_mul by lia. unfold period in Hk. nia. }
  rewrite <- (Z2Pos.id (period / p) Hpos), Z2Nat.inj_pos in Hret.
  rewrite iterate_xorshift32_columns in Hret by lia.
  assert (Hchk : fixes_only_zero
                   (power_columns (columns_of xorshift32) (Z.to_pos (period / p))) = true).
  { cbn [period_primes In] in Hin.
    destruct Hin as [<-|[<-|[<-|[<-|[<-|[]]]]]]; vm_compute; reflexivity. }
  pose proof (fixes_only_zero_sound _ x Hchk ltac:(lia) Hret). lia.
Qed.
(** ** Hexadecimal digests and the bytes read from them *)

Lemma hexdigit_lower (n : Z) : 0 <= n < 16 -> lower_hex (SHA256.hexdigit n) = true.
Proof.
  intros H. destruct n as [|p|p]; [reflexivity| |lia].
  repeat (destruct p as [p|p|]; try lia); reflexivity.
Qed.

Lemma byte_of_nibbles (v : Z) :
  16 * (Z.shiftr v 4 mod 16) + v mod 16 = v mod 256.
Proof.
  rewrite Z.shiftr_div_pow2 by lia. change (2 ^ 4) with 16.
  pose proof (Z.div_mod v 16 ltac:(lia)).
  pose proof (Z.mod_pos_bound v 16 ltac:(lia)).
  pose proof (Z.div_mod (v / 16) 16 ltac:(lia)).
  pose proof (Z.mod_pos_bound (v / 16) 16 ltac:(lia)).
  apply (Z.mod_unique v 256 (v / 16 / 16)); lia.
Qed.

(** Two hexadecimal characters per byte, most significant nibble first. *)
Lemma hex_word_bytes (n : nat) (w : Z) (k : string) :
  Buffer.hex_decode (SHA256.hex_word (2 * n) w k)
  = (SHA256.be_bytes n w ++ Buffer.hex_decode k)%list.
Proof.
  induction n as [|n IH]; [reflexivity|].
  replace (2 * S n)%nat with (S (S (2 * n))) by lia.
  cbn [SHA256.hex_word SHA256.be_bytes Buffer.hex_decode app].
  rewrite !unhex_hexdigit by (apply Z.mod_pos_bound; lia).
  rewrite IH. f_equal.
  replace (4 * Z.of_nat (S (2 * n))) with (8 * Z.of_nat n + 4) by lia.
  replace (4 * Z.of_nat (2 * n)) with (8 * Z.of_nat n) by lia.
  rewrite <- Z.shiftr_shiftr by lia.
  apply byte_of_nibbles.
Qed.

Lemma hex_words_bytes (ws : list Z) :
  Buffer.hex_decode (SHA256.hex_words ws) = bytes_of_words ws.
Proof.
  induction ws as [|w ws IH]; [reflexivity|].
  cbn [SHA256.hex_words bytes_of_words flat_map].
  rewrite (hex_word_bytes 4). f_equal. exact IH.
Qed.

Lemma hex_word_length (n : nat) (w : Z) (k : string) :
  String.length (SHA256.hex_word n w k) = (n + String.length k)%nat.
Proof. induction n as [|n IH]; cbn [SHA256.hex_word String.length Nat.add]; [reflexivity | now rewrite IH]. Qed.

Lemma hex_words_length (ws : list Z) :
  String.length (SHA256.hex_words ws) = (8 * List.length ws)%nat.
Proof.
  induction ws as [|w ws IH]; [reflexivity|].
  cbn [SHA256.hex_words List.length]. rewrite hex_word_length, IH. lia.
Qed.

Lemma hex_word_lower (n : nat) (w : Z) (k : string) :
  forallb lower_hex (list_ascii_of_string k) = true ->
  forallb lower_hex (list_ascii_of_string (SHA256.hex_word n w k)) = true.
Proof.
  intros Hk. induction n as [|n IH]; [exact Hk|].
  cbn [SHA256.hex_word list_ascii_of_string forallb].
  rewrite hexdigit_lower by (apply Z.mod_pos_bound; lia). exact IH.
Qed.

Lemma hex_words_lower (ws : list Z) :
  forallb lower_hex (list_ascii_of_string (SHA256.hex_words ws)) = true.
Proof.
  induction ws as [|w ws IH]; [reflexivity|].
  cbn [SHA256.hex_words]. apply hex_word_lower, IH.
Qed.

Lemma hex_word_valid (n : nat) (w : Z) (k : string) :
  valid_hex k = true -> valid_hex (SHA256.hex_word (2 * n) w k) = true.
Proof.
  intros Hk. induction n as [|n IH]; [exact Hk|].
  replace (2 * S n)%nat with (S (S (2 * n))) by lia.
  cbn [SHA256.hex_word valid_hex].
  rewrite !unhex_hexdigit by (apply Z.mod_pos_bound; lia). exact IH.
Qed.

Lemma hex_words_valid (ws : list Z) : valid_hex (SHA256.hex_words ws) = true.
Proof.
  induction ws as [|w ws IH]; [reflexivity|].
  cbn [SHA256.hex_words]. apply (hex_word_valid 4), IH.
Qed.

Lemma be_bytes_length (n : nat) (w : Z) : List.length (SHA256.be_bytes n w) = n.
Proof. induction n as [|n IH]; cbn [SHA256.be_bytes List.length]; [reflexivity | now rewrite IH]. Qed.

Lemma bytes_of_words_length (ws : list Z) :
  List.length (bytes_of_words ws) = (4 * List.length ws)%nat.
Proof.
  induction ws as [|w ws IH]; [reflexivity|].
  cbn [bytes_of_words flat_map List.length]. rewrite length_app, be_bytes_length.
  fold (bytes_of_words ws). rewrite IH. lia.
Qed.

(** Reading a word back from its four bytes. *)
Lemma readUInt32BE_be_bytes (w : Z) (rest : list Z) :
  0 <= w < 2 ^ 32 ->
  Buffer.readUInt32BE (SHA256.be_bytes 4 w ++ rest) = Ok w.
Proof.
  intros Hw. cbn [SHA256.be_bytes app Buffer.readUInt32BE]. f_equal.
  change (8 * Z.of_nat 3) with 24. change (8 * Z.of_nat 2) with 16.
  change (8 * Z.of_nat 1) with 8. change (8 * Z.of_nat 0) with 0.
  rewrite !Z.shiftr_div_pow2 by lia. rewrite Z.pow_0_r, Z.div_1_r.
  change (2 ^ 24) with 16777216. change (2 ^ 16) with 65536. change (2 ^ 8) with 256.
  change (2 ^ 32) with 4294967296 in Hw.
  pose proof (Z.div_mod w 256 ltac:(lia)).
  pose proof (Z.div_mod (w / 256) 256 ltac:(lia)).
  pose proof (Z.div_mod (w / 256 / 256) 256 ltac:(lia)).
  pose proof (Z.mod_pos_bound w 256 ltac:(lia)).
  pose proof (Z.mod_pos_bound (w / 256) 256 ltac:(lia)).
  pose proof (Z.mod_pos_bound (w / 256 / 256) 256 ltac:(lia)).
  replace (w / 65536) with (w / 256 / 256) by (rewrite Z.div_div by lia; reflexivity).
  replace (w / 16777216) with (w / 256 / 256 / 256)
    by (rewrite !Z.div_div by lia; reflexivity).
  assert (0 <= w / 256 / 256 / 256 < 256).
  { split; [repeat apply Z.div_pos; lia|].
    repeat (apply Z.div_lt_upper_bound; [lia|]). lia. }
  rewrite (Z.mod_small (w / 256 / 256 / 256)) by lia. lia.
Qed.

(** The words of a digest are 32-bit words. *)
Lemma add_words_range (a b : list Z) :
  Forall (fun w => 0 <= w < 2 ^ 32) (SHA256.add_words a b).
Proof.
  revert b; induction a as [|x a IH]; intros [|y b]; cbn [SHA256.add_words]; constructor.
  - apply Z.mod_pos_bound. lia.
  - apply IH.
Qed.

Lemma blocks_range (n : nat) (bs h : list Z) :
  Forall (fun w => 0 <= w < 2 ^ 32) h ->
  Forall (fun w => 0 <= w < 2 ^ 32) (SHA256.blocks n bs h).
Proof.
  revert bs h; induction n as [|n IH]; intros bs h Hh; cbn [SHA256.blocks]; [exact Hh|].
  apply IH. unfold SHA256.compress. apply add_words_range.
Qed.

Lemma digest_range (msg : list Z) :
  Forall (fun w => 0 <= w < 2 ^ 32) (SHA256.digest msg).
Proof.
  unfold SHA256.digest. apply blocks_range.
  unfold SHA256.H0. repeat constructor; lia.
Qed.

(** *** Decoding a string that starts with valid pairs *)

Lemma hex_decode_app (h t : string) :
  valid_hex h = true ->
  Buffer.hex_decode (h ++ t) = (Buffer.hex_decode h ++ Buffer.hex_decode t)%list.
Proof.
  revert h. fix IH 1. intros [|a [|b rest]] Hv.
  - reflexivity.
  - discriminate.
  - cbn [valid_hex] in Hv. cbn [append Buffer.hex_decode].
    destruct (Buffer.unhex a); [|discriminate].
    destruct (Buffer.unhex b); [|discriminate].
    cbn [app]. f_equal. apply IH, Hv.
Qed.

Lemma hex_decode_length (h : string) :
  valid_hex h = true -> String.length h = (2 * List.length (Buffer.hex_decode h))%nat.
Proof.
  revert h. fix IH 1. intros [|a [|b rest]] Hv.
  - reflexivity.
  - discriminate.
  - cbn [valid_hex] in Hv. cbn [Buffer.hex_decode String.length].
    destruct (Buffer.unhex a); [|discriminate].
    destruct (Buffer.unhex b); [|discriminate].
    cbn [List.length]. rewrite (IH rest Hv). lia.
Qed.

Lemma seedInt_long (s : string) (b0 b1 b2 b3 : Z) (rest : list Z) :
  Buffer.hex_decode s = b0 :: b1 :: b2 :: b3 :: rest ->
  seedInt s = Ok (b0 * 2 ^ 24 + b1 * 2 ^ 16 + b2 * 2 ^ 8 + b3).
Proof.
  intros H. unfold seedInt, seedBuffer, Buffer.from_hex; cbn [bind try_catch].
  rewrite H. reflexivity.
Qed.

Lemma createGameEngine_engineOfSeed (s : string) (seed : Z) :
  seedInt s = Ok seed -> createGameEngine s = Ok (engineOfSeed seed).
Proof. apply createGameEngine_seed. Qed.
(** ** The stored biases *)

(** The number nearest to [N / 1000000], for [N] from 400000 to 600000, lies
    between the numbers 0.4 and 0.6. *)
Lemma div_million_grid (N : Z) :
  400000 <= N <= 600000 ->
  exists qs es,
    JS.div (JS.of_Z N) (JS.of_Z 1000000) = S754_finite false qs es /\
    normal qs es /\
    le_pair (7205759403792794, -54) (Z.pos qs, es) /\
    le_pair (Z.pos qs, es) (5404319552844595, -53).
Proof.
  intros HN.
  destruct (Z.eq_dec N 400000) as [->|Hlo].
  { exists 7205759403792794%positive, (-54).
    split; [vm_compute; reflexivity|]. unfold normal, le_pair; cbn [fst snd]. lia. }
  destruct (Z.eq_dec N 600000) as [->|Hhi].
  { exists 5404319552844595%positive, (-53).
    split; [vm_compute; reflexivity|]. unfold normal, le_pair; cbn [fst snd]. lia. }
  destruct (of_Z_normal N ltac:(lia)) as (qN & Hof & HqN & Hnorm).
  rewrite Hof, of_Z_million.
  assert (Hd : (Zdigits2 N = 19 /\ N < 524288) \/ (Zdigits2 N = 20 /\ 524288 <= N)).
  { destruct (Z.lt_ge_cases N 524288); [left | right]; (split; [|assumption]);
      apply Zdigits2_unique; lia. }
  assert (Hm6 : normal 8589934592000000 (-33)) by (unfold normal; lia).
  unfold JS.div, SFdiv, JS.prec, JS.emax.
  rewrite div_core_normal; [|exact Hnorm|exact Hm6|destruct Hd as [[-> _]|[-> _]]; lia].
  cbn [xorb].
  set (Q := Z.pos qN * 2 ^ 53 / Z.pos 8589934592000000).
  set (l := new_location _ _).
  destruct Hnorm as [HqNr _].
  assert (HQ : 2 ^ 52 <= Q < 2 ^ 54).
  { unfold Q. split.
    - apply Z.div_le_lower_bound; lia.
    - apply Z.div_lt_upper_bound; lia. }
  assert (HdQ : 53 <= Zdigits2 Q <= 54).
  { split.
    - destruct (Z.le_gt_cases 53 (Zdigits2 Q)); [assumption|].
      pose proof (Zdigits2_bounds Q ltac:(lia)) as [_ Hhi'].
      assert (2 ^ Zdigits2 Q <= 2 ^ 52) by (apply Z.pow_le_mono_r; lia). lia.
    - apply Zdigits2_le; lia. }
  set (e := Zdigits2 N - 53 - -33 - 53).
  assert (He : -1074 <= Zdigits2 Q + e - 53 /\ Zdigits2 Q + e <= 1023)
    by (unfold e; destruct Hd as [[-> _]|[-> _]]; lia).
  destruct (binary_round_aux_normal false Q e l) as (qs & es & Hres & Hnorms & Hcase);
    [lia | lia | lia | lia |].
  destruct (first_round_bounds Q e l ltac:(lia) ltac:(lia) ltac:(lia)) as (_ & Hfr & _).
  exists qs, es. split; [exact Hres|]. split; [exact Hnorms|].
  unfold le_pair; cbn [fst snd].
  destruct Hd as [[E HN19]|[E HN20]]; unfold e in *; rewrite E in *.
  - (* N < 524288: the quotient is N * 2^54 / 10^6 *)
    assert (HQlo : 7205759403792794 <= Q).
    { unfold Q. apply Z.div_le_lower_bound; [lia|].
      rewrite HqN. change (2 ^ (53 - 19)) with 17179869184. lia. }
    assert (HQhi : Q < 9444732965739291).
    { unfold Q. apply Z.div_lt_upper_bound; [lia|].
      rewrite HqN. change (2 ^ (53 - 19)) with 17179869184. lia. }
    destruct (Z.eq_dec (Zdigits2 Q) 53) as [E53|E53].
    + rewrite E53 in *. change (53 - 53) with 0 in *.
      rewrite Z.pow_0_r, Z.div_1_r in *.
      destruct Hcase as [(Ees & Hq & _)|(Ees & Eq & _)]; split; lia.
    + assert (E54 : Zdigits2 Q = 54) by lia. rewrite E54 in *.
      change (54 - 53) with 1 in *. change (2 ^ 1) with 2 in *.
      assert (Q / 2 < 4722366482869646) by (apply Z.div_lt_upper_bound; lia).
      destruct Hcase as [(Ees & Hq & _)|(Ees & Eq & Hf)]; [split; lia|].
      rewrite Hf in Hfr. lia.
  - (* 524288 <= N: the quotient is N * 2^53 / 10^6 *)
    assert (HQ53 : Q < 5404319552844594).
    { unfold Q. apply Z.div_lt_upper_bound; [lia|].
      rewrite HqN. change (2 ^ (53 - 20)) with 8589934592. lia. }
    assert (E53 : Zdigits2 Q = 53) by (apply Zdigits2_unique; lia).
    rewrite E53 in *. change (53 - 53) with 0 in *.
    rewrite Z.pow_0_r, Z.div_1_r in *.
    destruct Hcase as [(Ees & Hq & _)|(Ees & Eq & Hf)]; [split; lia|].
    rewrite Hf in Hfr. lia.
Qed.

(** The bias stored for the draw of a nonzero 32-bit state is the number
    nearest to [N / 1000000] for an integer [N] from 400000 to 600000. *)
Lemma stored_bias_grid (z : Z) :
  0 < z < 2 ^ 32 ->
  exists N qs es,
    400000 <= N <= 600000 /\
    leftBias (pegOf (JS.div (JS.of_Z z) Xorshift32.two32)) = JS.dec N 6 /\
    JS.dec N 6 = S754_finite false qs es /\
    normal qs es /\
    le_pair (7205759403792794, -54) (Z.pos qs, es) /\
    le_pair (Z.pos qs, es) (5404319552844595, -53).
Proof.
  intros Hz. unfold pegOf; cbn [leftBias].
  destruct (draw_value z Hz) as (qd & -> & _ & Hnd & Hdz).
  destruct (unroundedBias_bound qd (Zdigits2 z - 85) Hnd ltac:(lia))
    as (qx & ex & -> & Hnx & Hlo & Hhi).
  unfold roundedBias.
  destruct (mul_million_bound qx ex Hnx Hlo Hhi) as (qy & ey & -> & Hny & Hylo & Hyhi).
  destruct (Math_round_bound qy ey Hny Hylo Hyhi) as (N & -> & HN).
  destruct (div_million_grid N HN) as (qs & es & Hdiv & Hns & Hs1 & Hs2).
  exists N, qs, es. split; [exact HN|].
  change (JS.dec N 6) with (JS.div (JS.of_Z N) (JS.of_Z 1000000)).
  split; [reflexivity|]. split; [exact Hdiv|]. split; [exact Hns|]. split; assumption.
Qed.
(** ** The adjusted bias *)

(** A stored bias plus an adjustment of at most 0.06 in absolute value: a
    positive number below 1. *)
Lemma add_adjustment_bound (qb : positive) (eb : Z) (sa : bool) (qa : positive) (ea : Z) :
  normal qb eb ->
  le_pair (7205759403792794, -54) (Z.pos qb, eb) ->
  le_pair (Z.pos qb, eb) (5404319552844595, -53) ->
  normal qa ea -> -59 <= ea ->
  le_pair (Z.pos qa, ea) (8646911284551352, -57) ->
  exists q e',
    JS.add (S754_finite false qb eb) (S754_finite sa qa ea) = S754_finite false q e' /\
    normal q e' /\ le_pair (Z.pos q, e') (2 ^ 53 - 1, -53).
Proof.
  intros [Hqb _] Hblo Hbhi [Hqa _] Hea Hale.
  unfold le_pair in Hblo, Hbhi, Hale; cbn [fst snd] in Hblo, Hbhi, Hale.
  assert (Heb : eb = -54 \/ eb = -53) by lia.
  assert (Hea' : ea <= -57) by lia.
  unfold JS.add, SFadd, JS.prec, JS.emax. cbn [cond_Zopp].
  rewrite Z.min_r by lia. rewrite !shl_align_fst by lia.
  rewrite Z.sub_diag, Z.pow_0_r, Z.mul_1_r.
  set (K := 2 ^ (-57 - ea)).
  assert (HK : 1 <= K <= 4).
  { unfold K. split.
    - change 1 with (2 ^ 0). apply Z.pow_le_mono_r; lia.
    - change 4 with (2 ^ 2). apply Z.pow_le_mono_r; lia. }
  assert (HqaK : Z.pos qa <= 8646911284551352 * K).
  { destruct Hale as [Hlt|[E Hle]].
    - assert (2 <= K) by (unfold K; change 2 with (2 ^ 1); apply Z.pow_le_mono_r; lia). lia.
    - assert (K = 1) by (unfold K; rewrite E; reflexivity). lia. }
  assert (HbK : 7205759403792794 * (8 * K) <= Z.pos qb * 2 ^ (eb - ea)
                <= 5404319552844595 * (16 * K)).
  { destruct Heb as [-> | ->].
    - replace (-54 - ea) with (3 + (-57 - ea)) by lia.
      rewrite Z.pow_add_r by lia. fold K. change (2 ^ 3) with 8. nia.
    - replace (-53 - ea) with (4 + (-57 - ea)) by lia.
      rewrite Z.pow_add_r by lia. fold K. change (2 ^ 4) with 16. nia. }
  set (B := Z.pos qb * 2 ^ (eb - ea)) in *.
  set (T := B + (if sa then Z.neg qa else Z.pos qa)).
  assert (HT : 48999163945791000 * K <= T <= 95116024130064872 * K).
  { unfold T. destruct sa; lia. }
  assert (HTabs : Z.abs T = T) by lia.
  assert (HKe : 2 ^ 57 * K = 2 ^ (- ea)).
  { unfold K. rewrite <- Z.pow_add_r by lia. f_equal. lia. }
  assert (Hd : 1 <= Zdigits2 T <= - ea).
  { split; [pose proof (Zdigits2_pos T); lia|].
    apply Zdigits2_le; [lia|]. rewrite <- HKe. lia. }
  destruct (binary_normalize_normal T ea) as (q & e' & Hres & Hnorm & Hrp & Hexp);
    [lia | rewrite HTabs; lia | rewrite HTabs; lia |].
  rewrite HTabs in Hrp.
  replace (T <? 0) with false in Hres by (symmetry; apply Z.ltb_ge; lia).
  exists q, e'. split; [exact Hres|]. split; [exact Hnorm|].
  rewrite <- Hrp.
  assert (E52 : 2 ^ (ea - (ea - 52)) = 2 ^ 52) by (f_equal; lia).
  assert (Eb : 2 ^ (-53 - (ea - 52)) = 2 ^ 56 * K).
  { unfold K. rewrite <- Z.pow_add_r by lia. f_equal. lia. }
  apply (norm_round_upper T ea (2 ^ 53 - 1) (-53) (ea - 52)); lia.
Qed.

(** The adjustments of the thirteen drop columns. *)
Lemma adjustment_cases (k : Z) :
  0 <= k <= 12 ->
  adjustment (JS.of_Z k) = S754_zero false \/
  exists sa qa ea,
    adjustment (JS.of_Z k) = S754_finite sa qa ea /\
    normal qa ea /\ -59 <= ea /\ le_pair (Z.pos qa, ea) (8646911284551352, -57).
Proof.
  intros Hk.
  assert (H : k = 0 \/ k = 1 \/ k = 2 \/ k = 3 \/ k = 4 \/ k = 5 \/ k = 6 \/ k = 7 \/
              k = 8 \/ k = 9 \/ k = 10 \/ k = 11 \/ k = 12) by lia.
  repeat (destruct H as [->|H]; [|]); try subst k;
    try (left; vm_compute; reflexivity);
    right; eexists _, _, _; (split; [vm_compute; reflexivity|]);
    unfold normal, le_pair; cbn [fst snd]; lia.
Qed.

(** For a drop column from 0 to 12 the adjusted bias of a stored bias lies
    strictly between 0 and 1, so that clamping changes nothing. *)
Lemma adjusted_bias_unclamped (z k : Z) :
  0 < z < 2 ^ 32 -> 0 <= k <= 12 ->
  let b := JS.add (leftBias (pegOf (JS.div (JS.of_Z z) Xorshift32.two32)))
                  (adjustment (JS.of_Z k)) in
  JS.ltb (JS.of_Z 0) b = true /\ JS.ltb b (JS.of_Z 1) = true /\
  clamp b (JS.of_Z 0) (JS.of_Z 1) = b.
Proof.
  intros Hz Hk b. subst b.
  destruct (stored_bias_grid z Hz) as (N & qs & es & _ & -> & -> & Hns & Hlo & Hhi).
  assert (Hfin : exists q e', JS.add (S754_finite false qs es) (adjustment (JS.of_Z k))
                              = S754_finite false q e' /\
                              normal q e' /\ le_pair (Z.pos q, e') (2 ^ 53 - 1, -53)).
  { destruct (adjustment_cases k Hk) as [->|(sa & qa & ea & -> & Hna & Hea & Hale)].
    - exists qs, es. split; [reflexivity|]. split; [exact Hns|].
      unfold le_pair in *; cbn [fst snd] in *. lia.
    - apply add_adjustment_bound; assumption. }
  destruct Hfin as (q & e' & -> & Hn & Hle).
  assert (H1 : JS.ltb (S754_finite false q e') (JS.of_Z 1) = true).
  { rewrite of_Z_1. apply ltb_normal.
    unfold le_pair in Hle; cbn [fst snd] in Hle. lia. }
  split; [reflexivity|]. split; [exact H1|].
  unfold clamp. rewrite of_Z_0 at 1. cbn [JS.ltb SFltb SFcompare].
  unfold JS.gtb. rewrite of_Z_1 in *.
  destruct (SFltb (S754_finite false 4503599627370496 (-52)) (S754_finite false q e')) eqn:E;
    [|reflexivity].
  exfalso. apply ltb_normal in E. apply ltb_normal in H1. lia.
Qed.
(** ** More on the walk *)

Lemma nth_error_all (A : Type) (x : A) (l : list A) :
  (forall r, (r < List.length l)%nat -> nth_error l r = Some x) ->
  l = repeat x (List.length l).
Proof.
  induction l as [|a l IH]; intros H; [reflexivity|].
  cbn [List.length repeat].
  assert (Ha : a = x).
  { specialize (H 0%nat ltac:(cbn; lia)). cbn in H. congruence. }
  rewrite Ha. f_equal. apply IH. intros r Hr.
  apply (H (S r)). cbn [List.length]. lia.
Qed.

Lemma countRight_repeat (m : Move) (n : nat) :
  countRight (repeat m n) = (n * rights m)%nat.
Proof. induction n as [|n IH]; cbn [repeat countRight]; [reflexivity | rewrite IH; lia]. Qed.

(** The position never exceeds the row, so the peg index [min pos r] is
    the position itself. *)
Lemma position_within_row (p : list Move) (r : nat) :
  Nat.min (countRight (firstn r p)) r = countRight (firstn r p).
Proof.
  pose proof (countRight_le_length (firstn r p)) as H1.
  pose proof (firstn_le_length r p) as H2. lia.
Qed.

(** A call of [run] on an engine with a built field, from any state. *)
Lemma run_built (pm : PegMap) (dc : JS.number) (g : Xorshift32.t) :
  wide_enough pm ->
  exists res,
    run (mkEngine pm g) dc = Ok (res, mkEngine pm (skip 12 g)) /\
    List.length (path res) = 12%nat /\
    binIndex res = countRight (path res) /\
    forall r, (r < 12)%nat ->
      exists peg,
        pegAt pm r (countRight (firstn r (path res))) = Some peg /\
        nth_error (path res) r = Some (decision (leftBias peg) dc (draw r g)).
Proof.
  intros Hpm.
  destruct (run_trace pm dc g Hpm) as (p & Hlen & Hst & Hrule).
  exists (mkPathResult p (countRight p)). split.
  { apply run_of_trace; [exact Hlen | apply Hst; reflexivity]. }
  cbn [path binIndex]. split; [exact Hlen|]. split; [reflexivity|].
  intros r Hr. destruct (Hrule r Hr) as (peg & H1 & H2).
  exists peg. rewrite position_within_row in H1. split; assumption.
Qed.

(** Successive calls: call [j] draws where call [j - 1] stopped. *)
Lemma runs_built (pm : PegMap) (Hpm : wide_enough pm) (dcs : list JS.number) :
  forall g : Xorshift32.t,
  exists rs,
    runs (mkEngine pm g) dcs = Ok (rs, mkEngine pm (skip (12 * List.length dcs) g)) /\
    List.length rs = List.length dcs /\
    forall j dc, nth_error dcs j = Some dc ->
      exists res,
        nth_error rs j = Some res /\
        List.length (path res) = 12%nat /\
        binIndex res = countRight (path res) /\
        forall r, (r < 12)%nat ->
          exists peg,
            pegAt pm r (countRight (firstn r (path res))) = Some peg /\
            nth_error (path res) r
            = Some (decision (leftBias peg) dc (draw (12 * j + r) g)).
Proof.
  induction dcs as [|dc dcs IH]; intros g.
  - exists []. cbn [runs List.length]. rewrite Nat.mul_0_r. cbn [skip].
    split; [reflexivity|]. split; [reflexivity|].
    intros [|j] dc' H; discriminate H.
  - destruct (run_built pm dc g Hpm) as (res & Hrun & Hlen & Hbin & Hrule).
    destruct (IH (skip 12 g)) as (rs & Hruns & Hlens & Hall).
    exists (res :: rs). cbn [runs]. rewrite Hrun; cbn [bind]. rewrite Hruns; cbn [bind].
    split.
    { rewrite <- skip_add.
      replace (12 + 12 * List.length dcs)%nat with (12 * List.length (dc :: dcs))%nat
        by (cbn [List.length]; lia).
      reflexivity. }
    split; [cbn [List.length]; now rewrite Hlens|].
    intros [|j] dc' Hdc; cbn [nth_error] in *.
    + injection Hdc as <-. exists res. rewrite Nat.mul_0_r.
      split; [reflexivity|]. split; [exact Hlen|]. split; [exact Hbin | exact Hrule].
    + destruct (Hall j dc' Hdc) as (res' & H1 & H2 & H3 & H4).
      exists res'. split; [exact H1|]. split; [exact H2|]. split; [exact H3|].
      intros r Hr. destruct (H4 r Hr) as (peg & Hp & Hm).
      exists peg. split; [exact Hp|].
      rewrite Hm, draw_skip.
      replace (12 + (12 * j + r))%nat with (12 * S j + r)%nat by lia. reflexivity.
Qed.

(** The pegs of a field built from a generator made by the constructor. *)
Lemma built_peg (seed : Z) (r c : nat) (peg : Peg) :
  pegAt (fst (genRows 0 ROWS (Xorshift32.new seed))) r c = Some peg ->
  exists z, 0 < z < 2 ^ 32 /\ peg = pegOf (JS.div (JS.of_Z z) Xorshift32.two32).
Proof.
  intros H.
  assert (Hr : (r < ROWS)%nat).
  { unfold pegAt in H. destruct (nth_error _ r) as [row|] eqn:E; [|discriminate].
    rewrite <- (genRows_length ROWS 0 (Xorshift32.new seed)).
    apply nth_error_Some. congruence. }
  assert (Hc : (c <= r)%nat).
  { destruct (genRows_row (Xorshift32.new seed) r Hr) as (row & Hrow & Hlen).
    unfold pegAt in H. rewrite Hrow in H.
    assert (c < List.length row)%nat by (apply nth_error_Some; congruence). lia. }
  rewrite (genRows_pegAt _ r c Hr Hc) in H.
  destruct (draw_of_stream seed (r * (r + 1) / 2 + c)) as (z & Hz & _ & Hd).
  rewrite Hd in H. exists z. split; [exact Hz | congruence].
Qed.
(** ** Further properties of the generator *)

Lemma iterate_advance_xorshift32 (n : nat) (s : Z) :
  0 <= s < 2 ^ 32 -> iterate n Xorshift32.advance s = iterate n xorshift32 s.
Proof.
  intros Hs. apply (iterate_agree _ _ _ (fun y => 0 <= y < 2 ^ 32)); [| |exact Hs].
  - intros y Hy. now rewrite advance_xorshift32, u32_small.
  - intros y _. apply xorshift32_range.
Qed.

(** Two nonzero 32-bit states give the same draw only when they are equal. *)
Lemma draw_injective (z1 z2 : Z) :
  0 < z1 < 2 ^ 32 -> 0 < z2 < 2 ^ 32 ->
  JS.div (JS.of_Z z1) Xorshift32.two32 = JS.div (JS.of_Z z2) Xorshift32.two32 ->
  z1 = z2.
Proof.
  intros H1 H2 E.
  destruct (draw_value z1 H1) as (q1 & E1 & Hq1 & _ & Hd1).
  destruct (draw_value z2 H2) as (q2 & E2 & Hq2 & _ & Hd2).
  rewrite E1, E2 in E. injection E as Eq Ee.
  assert (Hd : Zdigits2 z1 = Zdigits2 z2) by lia.
  rewrite Eq, Hd in Hq1. rewrite Hq1 in Hq2.
  assert (0 < 2 ^ (53 - Zdigits2 z2)) by (apply Z.pow_pos_nonneg; lia).
  nia.
Qed.

(** X1. The generator has full period.  For every seed, the state after
    [i + n] draws differs from the state after [i] draws whenever
    [0 < n < 2^32 - 1], and so do the numbers drawn; after exactly
    [2^32 - 1] further draws the generator is back in the same state.  A
    generator therefore goes through all [2^32 - 1] nonzero 32-bit states
    before it repeats one. *)
Theorem xorshift32_full_period (seed : Z) (i n : nat) :
  let g := Xorshift32.new seed in
  (Z.of_nat n = 2 ^ 32 - 1 -> skip (i + n) g = skip i g) /\
  (0 < Z.of_nat n < 2 ^ 32 - 1 ->
     Xorshift32.state (skip (i + n) g) <> Xorshift32.state (skip i g) /\
     draw (i + n) g <> draw i g).
Proof.
  intros g.
  assert (Hst : forall j, 0 < Xorshift32.state (skip j g) < 2 ^ 32).
  { intros j. rewrite skip_state. apply iterate_advance_range.
    pose proof (new_state_range seed). unfold g. lia. }
  assert (Hstep : forall j, Xorshift32.state (skip (j + n) g)
                            = iterate n xorshift32 (Xorshift32.state (skip j g))).
  { intros j. rewrite skip_add, skip_state. apply iterate_advance_xorshift32.
    pose proof (Hst j). lia. }
  split.
  - intros Hn.
    assert (E : Xorshift32.state (skip (i + n) g) = Xorshift32.state (skip i g)).
    { rewrite Hstep, <- (Nat2Z.id n), Hn.
      apply xorshift32_period_returns. pose proof (Hst i). lia. }
    destruct (skip (i + n) g), (skip i g). cbn [Xorshift32.state] in E. now rewrite E.
  - intros Hn.
    assert (Hne : forall j, Xorshift32.state (skip (j + n) g) <> Xorshift32.state (skip j g)).
    { intros j. rewrite Hstep. rewrite <- (Nat2Z.id n).
      apply xorshift32_no_early_return; [apply Hst | unfold period; lia]. }
    split; [apply Hne|].
    destruct (draw_of_stream seed (i + n)) as (z1 & Hz1 & Es1 & Ed1).
    destruct (draw_of_stream seed i) as (z2 & Hz2 & Es2 & Ed2).
    fold g in Es1, Es2, Ed1, Ed2. rewrite Ed1, Ed2.
    intros E. apply draw_injective in E; [|assumption|assumption].
    apply (Hne (S i)). cbn [Nat.add]. now rewrite Es1, Es2.
Qed.
(** ** Further properties of the digests and of the seed *)

Lemma append_assoc (a b c : string) : ((a ++ b) ++ c = a ++ (b ++ c))%string.
Proof. induction a as [|x a IH]; cbn [append]; [reflexivity | now rewrite IH]. Qed.

(** X2. For every input, [sha256] returns a string of 64 characters, all of
    them among [0-9a-f]; [Buffer.from(..., 'hex')] decodes all of it, to the
    32 bytes that are the eight words of the digest, most significant byte
    first. *)
Theorem sha256_is_the_hex_of_32_bytes (data : string) :
  let d := SHA256.digest (SHA256.bytes_of_string data) in
  String.length (sha256 data) = 64%nat /\
  forallb lower_hex (list_ascii_of_string (sha256 data)) = true /\
  valid_hex (sha256 data) = true /\
  Buffer.from_hex (sha256 data) = Ok (bytes_of_words d) /\
  List.length (bytes_of_words d) = 32%nat /\
  List.length d = 8%nat /\
  Forall (fun w => 0 <= w < 2 ^ 32) d.
Proof.
  cbv zeta. unfold sha256.
  pose proof (digest_length (SHA256.bytes_of_string data)) as Hl.
  split; [rewrite hex_words_length, Hl; reflexivity|].
  split; [apply hex_words_lower|].
  split; [apply hex_words_valid|].
  split; [unfold Buffer.from_hex; now rewrite hex_words_bytes|].
  split; [rewrite bytes_of_words_length, Hl; reflexivity|].
  split; [exact Hl | apply digest_range].
Qed.

(** X3. The combined seed that the routes hand to [createGameEngine] is
    never hashed again: its 64 characters decode to 32 bytes, the seed
    integer is the first word of the SHA-256 digest of
    [serverSeed:clientSeed:nonce], and the engine is the one built from that
    word. *)
Theorem combined_seed_is_read_directly (serverSeed clientSeed nonce : string) :
  let combined := generateCombinedSeed serverSeed clientSeed nonce in
  let d := SHA256.digest
             (SHA256.bytes_of_string (serverSeed ++ ":" ++ clientSeed ++ ":" ++ nonce)) in
  seedBuffer combined = Ok (bytes_of_words d) /\
  exists w rest,
    d = w :: rest /\ 0 <= w < 2 ^ 32 /\
    seedInt combined = Ok w /\
    createGameEngine combined = Ok (engineOfSeed w).
Proof.
  cbv zeta. unfold generateCombinedSeed, sha256.
  pose proof (digest_length (SHA256.bytes_of_string
                               (serverSeed ++ ":" ++ clientSeed ++ ":" ++ nonce))) as Hl.
  pose proof (digest_range (SHA256.bytes_of_string
                              (serverSeed ++ ":" ++ clientSeed ++ ":" ++ nonce))) as Hr.
  remember (SHA256.digest (SHA256.bytes_of_string
                             (serverSeed ++ ":" ++ clientSeed ++ ":" ++ nonce))) as d eqn:Ed.
  clear Ed.
  assert (Hbuf : seedBuffer (SHA256.hex_words d) = Ok (bytes_of_words d)).
  { unfold seedBuffer, Buffer.from_hex; cbn [bind try_catch].
    rewrite hex_words_bytes, bytes_of_words_length, Hl. reflexivity. }
  split; [exact Hbuf|].
  destruct d as [|w rest]; [discriminate Hl|].
  exists w, rest. split; [reflexivity|].
  assert (Hw : 0 <= w < 2 ^ 32) by (inversion Hr; assumption).
  split; [exact Hw|].
  assert (Hseed : seedInt (SHA256.hex_words (w :: rest)) = Ok w).
  { unfold seedInt. rewrite Hbuf; cbn [bind bytes_of_words flat_map].
    apply readUInt32BE_be_bytes, Hw. }
  split; [exact Hseed | apply createGameEngine_engineOfSeed, Hseed].
Qed.

(** X4. [createGameEngine] reads the first eight hexadecimal characters of
    its argument and nothing else: two arguments that start with the same
    eight hexadecimal characters give the same engine, whatever follows
    them. *)
Theorem engine_reads_eight_characters (h t1 t2 : string) :
  String.length h = 8%nat -> valid_hex h = true ->
  createGameEngine (h ++ t1) = createGameEngine (h ++ t2).
Proof.
  intros Hlen Hv.
  pose proof (hex_decode_length h Hv) as Hl. rewrite Hlen in Hl.
  destruct (Buffer.hex_decode h) as [|b0 [|b1 [|b2 [|b3 [|b4 rest]]]]] eqn:E;
    cbn [List.length] in Hl; try lia.
  assert (H : forall t, seedInt (h ++ t)
                        = Ok (b0 * 2 ^ 24 + b1 * 2 ^ 16 + b2 * 2 ^ 8 + b3)).
  { intros t. apply (seedInt_long _ b0 b1 b2 b3 (Buffer.hex_decode t)).
    rewrite hex_decode_app, E by exact Hv. reflexivity. }
  now rewrite (createGameEngine_engineOfSeed _ _ (H t1)),
              (createGameEngine_engineOfSeed _ _ (H t2)).
Qed.

Lemma engine_reads_eight_characters_witness :
  String.length "e1dddf77" = 8%nat /\ valid_hex "e1dddf77" = true /\
  createGameEngine ("e1dddf77" ++ "de27d395") = createGameEngine ("e1dddf77" ++ "zz").
Proof.
  split; [reflexivity|]. split; [reflexivity|].
  apply (engine_reads_eight_characters "e1dddf77" "de27d395" "zz"); reflexivity.
Defined.

(** X5. Whatever the argument, the engine that [createGameEngine] returns
    is the one built from a generator in a nonzero 32-bit state: there are
    at most [2^32 - 1] different engines. *)
Theorem engine_comes_from_a_32_bit_state (s : string) :
  exists z,
    0 < z < 2 ^ 32 /\
    createGameEngine s
    = Ok (mkEngine (fst (genRows 0 ROWS (Xorshift32.mk z))) (skip 78 (Xorshift32.mk z))).
Proof.
  destruct (seedInt_total s) as [seed Hseed].
  exists (Xorshift32.state (Xorshift32.new seed)).
  split; [pose proof (new_state_range seed); lia|].
  rewrite (createGameEngine_engineOfSeed s seed Hseed). unfold engineOfSeed.
  now destruct (Xorshift32.new seed).
Qed.

(** X6. The commit and the combined seed are digests of the arguments
    joined by colons, so that they depend on the joined text only: the
    combined seed of [(serverSeed, clientSeed, nonce)] is the commit of
    [(serverSeed, clientSeed:nonce)], and moving a part across a colon
    between two arguments changes neither. *)
Theorem digests_depend_on_the_joined_text (serverSeed clientSeed nonce x : string) :
  generateCombinedSeed serverSeed clientSeed nonce
  = generateCommit serverSeed (clientSeed ++ ":" ++ nonce) /\
  generateCombinedSeed serverSeed (clientSeed ++ ":" ++ x) nonce
  = generateCombinedSeed serverSeed clientSeed (x ++ ":" ++ nonce) /\
  generateCommit (serverSeed ++ ":" ++ x) nonce
  = generateCommit serverSeed (x ++ ":" ++ nonce).
Proof.
  unfold generateCombinedSeed, generateCommit.
  split; [reflexivity|].
  split; now rewrite !append_assoc.
Qed.
(** ** Further properties of the field and of the walk *)

(** What the engine of a seed is made of. *)
Lemma engine_of_string (s : string) :
  exists seed,
    seedInt s = Ok seed /\
    createGameEngine s = Ok (engineOfSeed seed) /\
    wide_enough (pegMap (engineOfSeed seed)).
Proof.
  destruct (seedInt_total s) as [seed Hseed].
  exists seed. split; [exact Hseed|].
  split; [apply createGameEngine_engineOfSeed, Hseed | apply genRows_wide_enough].
Qed.

(** X7. Every bias stored in the field of an engine is the number nearest
    to [N / 1000000] for an integer [N] from 400000 to 600000: a number of
    six decimals between the numbers 0.4 and 0.6. *)
Theorem stored_biases_have_six_decimals (s : string) :
  exists e,
    createGameEngine s = Ok e /\
    forall r c peg, pegAt (pegMap e) r c = Some peg ->
      exists N,
        400000 <= N <= 600000 /\
        leftBias peg = JS.dec N 6 /\
        JS.leb (JS.dec 4 1) (leftBias peg) = true /\
        JS.leb (leftBias peg) (JS.dec 6 1) = true.
Proof.
  destruct (engine_of_string s) as (seed & _ & He & _).
  eexists. split; [exact He|].
  unfold engineOfSeed; cbn [pegMap]. intros r c peg Hpeg.
  destruct (built_peg seed r c peg Hpeg) as (z & Hz & ->).
  destruct (stored_bias_grid z Hz) as (N & qs & es & HN & Hb & Hd & Hn & Hlo & Hhi).
  exists N. split; [exact HN|]. split; [exact Hb|].
  rewrite Hb, Hd, dec_4_1, dec_6_1. split; apply leb_normal; assumption.
Qed.

(** X8. For a drop column from 0 to 12 the clamp of [run] never acts: for
    every peg of the field the adjusted bias lies strictly between 0 and 1,
    and every row of the walk compares its draw with the adjusted bias
    itself. *)
Theorem clamp_is_idle_for_columns_0_to_12 (s : string) (k : Z) :
  0 <= k <= 12 ->
  exists e res e',
    createGameEngine s = Ok e /\
    run e (JS.of_Z k) = Ok (res, e') /\
    (forall r c peg, pegAt (pegMap e) r c = Some peg ->
       let b := JS.add (leftBias peg) (adjustment (JS.of_Z k)) in
       JS.ltb (JS.of_Z 0) b = true /\ JS.ltb b (JS.of_Z 1) = true /\
       clamp b (JS.of_Z 0) (JS.of_Z 1) = b) /\
    forall r, (r < 12)%nat ->
      exists peg,
        pegAt (pegMap e) r (countRight (firstn r (path res))) = Some peg /\
        nth_error (path res) r
        = Some (if JS.ltb (draw r (prng e))
                          (JS.add (leftBias peg) (adjustment (JS.of_Z k)))
                then Left else Right).
Proof.
  intros Hk.
  destruct (engine_of_string s) as (seed & _ & He & Hwide).
  unfold engineOfSeed in *; cbn [pegMap] in Hwide.
  destruct (run_built _ (JS.of_Z k) (skip 78 (Xorshift32.new seed)) Hwide)
    as (res & Hrun & _ & _ & Hrule).
  assert (Hpegs : forall r c peg,
             pegAt (fst (genRows 0 ROWS (Xorshift32.new seed))) r c = Some peg ->
             let b := JS.add (leftBias peg) (adjustment (JS.of_Z k)) in
             JS.ltb (JS.of_Z 0) b = true /\ JS.ltb b (JS.of_Z 1) = true /\
             clamp b (JS.of_Z 0) (JS.of_Z 1) = b).
  { intros r c peg Hpeg. destruct (built_peg seed r c peg Hpeg) as (z & Hz & ->).
    apply adjusted_bias_unclamped; assumption. }
  eexists _, res, _. split; [exact He|]. split; [exact Hrun|].
  cbn [pegMap prng]. split; [exact Hpegs|].
  intros r Hr. destruct (Hrule r Hr) as (peg & Hp & Hm).
  exists peg. split; [exact Hp|]. rewrite Hm. unfold decision.
  destruct (Hpegs _ _ _ Hp) as (_ & _ & ->). reflexivity.
Qed.

Lemma clamp_is_idle_for_columns_0_to_12_witness :
  0 <= 6 <= 12 /\
  exists e res e',
    createGameEngine expectedCombined = Ok e /\
    run e (JS.of_Z 6) = Ok (res, e') /\
    (forall r c peg, pegAt (pegMap e) r c = Some peg ->
       let b := JS.add (leftBias peg) (adjustment (JS.of_Z 6)) in
       JS.ltb (JS.of_Z 0) b = true /\ JS.ltb b (JS.of_Z 1) = true /\
       clamp b (JS.of_Z 0) (JS.of_Z 1) = b) /\
    forall r, (r < 12)%nat ->
      exists peg,
        pegAt (pegMap e) r (countRight (firstn r (path res))) = Some peg /\
        nth_error (path res) r
        = Some (if JS.ltb (draw r (prng e))
                          (JS.add (leftBias peg) (adjustment (JS.of_Z 6)))
                then Left else Right).
Proof.
  split; [lia|]. apply (clamp_is_idle_for_columns_0_to_12 expectedCombined 6). lia.
Defined.

(** The decisions for a drop column that is not a number or is infinite. *)
Lemma decision_nan (b rnd : JS.number) : decision b S754_nan rnd = Right.
Proof.
  unfold decision. change (adjustment S754_nan) with S754_nan.
  replace (JS.add b S754_nan) with S754_nan by (destruct b; reflexivity).
  change (clamp S754_nan (JS.of_Z 0) (JS.of_Z 1)) with S754_nan.
  destruct rnd; reflexivity.
Qed.

Lemma decision_minus_infinity (sb : bool) (qb : positive) (eb : Z) (q : positive) (e : Z) :
  decision (S754_finite sb qb eb) (S754_infinity true) (S754_finite false q e) = Right.
Proof. reflexivity. Qed.

Lemma decision_plus_infinity (sb : bool) (qb : positive) (eb : Z) (rnd : JS.number) :
  JS.ltb rnd (JS.of_Z 1) = true ->
  decision (S754_finite sb qb eb) (S754_infinity false) rnd = Left.
Proof.
  intros H. unfold decision. change (adjustment (S754_infinity false)) with (S754_infinity false).
  change (JS.add (S754_finite sb qb eb) (S754_infinity false)) with (S754_infinity false).
  change (clamp (S754_infinity false) (JS.of_Z 0) (JS.of_Z 1)) with (JS.of_Z 1).
  now rewrite H.
Qed.

(** A walk all of whose decisions are the same move. *)
Lemma run_constant (seed : Z) (dc : JS.number) (m : Move) :
  (forall peg z, 0 < z < 2 ^ 32 ->
     (exists qs es, leftBias peg = S754_finite false qs es) ->
     decision (leftBias peg) dc (JS.div (JS.of_Z z) Xorshift32.two32) = m) ->
  exists e',
    run (engineOfSeed seed) dc = Ok (mkPathResult (repeat m 12) (12 * rights m), e').
Proof.
  intros Hdec.
  pose proof (genRows_wide_enough (Xorshift32.new seed)) as Hwide.
  destruct (run_built _ dc (skip 78 (Xorshift32.new seed)) Hwide)
    as (res & Hrun & Hlen & Hbin & Hrule).
  assert (Hp : path res = repeat m 12).
  { rewrite <- Hlen. apply nth_error_all. rewrite Hlen. intros r Hr.
    destruct (Hrule r Hr) as (peg & Hpeg & ->). f_equal.
    destruct (built_peg seed _ _ peg Hpeg) as (zb & Hzb & Hb).
    rewrite draw_skip.
    destruct (draw_of_stream seed (78 + r)) as (z & Hz & _ & ->).
    apply Hdec; [exact Hz|].
    destruct (stored_bias_grid zb Hzb) as (N & qs & es & _ & Hb1 & Hb2 & _).
    exists qs, es. now rewrite Hb, Hb1, Hb2. }
  eexists. unfold engineOfSeed. rewrite Hrun. do 2 f_equal.
  destruct res as [p b]. cbn [path binIndex] in *.
  rewrite Hbin, Hp, countRight_repeat. reflexivity.
Qed.

(** X9. When the drop column is not a number (as [Number] returns for a
    text that is no number) or minus infinity, [run] returns twelve [Right]
    moves and bin 12 on every engine; when it is plus infinity, twelve
    [Left] moves and bin 0. *)
Theorem run_with_a_column_that_is_no_finite_number (s : string) :
  exists e,
    createGameEngine s = Ok e /\
    (exists e', run e S754_nan = Ok (mkPathResult (repeat Right 12) 12, e')) /\
    (exists e', run e (S754_infinity true) = Ok (mkPathResult (repeat Right 12) 12, e')) /\
    (exists e', run e (S754_infinity false) = Ok (mkPathResult (repeat Left 12) 0, e')).
Proof.
  destruct (engine_of_string s) as (seed & _ & He & _).
  eexists. split; [exact He|]. split; [|split].
  - apply (run_constant seed S754_nan Right). intros peg z _ _. apply decision_nan.
  - apply (run_constant seed (S754_infinity true) Right).
    intros peg z Hz (qs & es & ->).
    destruct (draw_value z Hz) as (q & -> & _). apply decision_minus_infinity.
  - apply (run_constant seed (S754_infinity false) Left).
    intros peg z Hz (qs & es & ->).
    apply decision_plus_infinity. apply (draw_facts z Hz).
Qed.

(** X10. Calls of [run] on one engine, one after the other, never fail and
    draw from one stream without a gap: with [g0] the generator seeded from
    the argument, call [j] (counted from 0) decides its row [r] with draw
    [78 + 12 j + r] of [g0], at the peg whose index is the number of [Right]
    moves made so far in that call; the field is never changed.  *)
Theorem successive_runs_share_the_stream (s : string) (dropColumns : list JS.number) :
  exists seed e rs e',
    seedInt s = Ok seed /\
    createGameEngine s = Ok e /\
    runs e dropColumns = Ok (rs, e') /\
    List.length rs = List.length dropColumns /\
    pegMap e' = pegMap e /\
    prng e' = skip (78 + 12 * List.length dropColumns) (Xorshift32.new seed) /\
    forall j dc, nth_error dropColumns j = Some dc ->
      exists res,
        nth_error rs j = Some res /\
        List.length (path res) = 12%nat /\
        binIndex res = countRight (path res) /\
        forall r, (r < 12)%nat ->
          exists peg,
            pegAt (pegMap e) r (countRight (firstn r (path res))) = Some peg /\
            nth_error (path res) r
            = Some (decision (leftBias peg) dc
                      (draw (78 + 12 * j + r) (Xorshift32.new seed))).
Proof.
  destruct (engine_of_string s) as (seed & Hseed & He & Hwide).
  unfold engineOfSeed in *; cbn [pegMap] in Hwide.
  destruct (runs_built _ Hwide dropColumns (skip 78 (Xorshift32.new seed)))
    as (rs & Hruns & Hlen & Hall).
  eexists seed, _, rs, _. split; [exact Hseed|]. split; [exact He|].
  split; [exact Hruns|]. split; [exact Hlen|]. cbn [pegMap prng].
  split; [reflexivity|]. split; [now rewrite <- skip_add|].
  intros j dc Hdc. destruct (Hall j dc Hdc) as (res & H1 & H2 & H3 & H4).
  exists res. split; [exact H1|]. split; [exact H2|]. split; [exact H3|].
  intros r Hr. destruct (H4 r Hr) as (peg & Hp & Hm).
  exists peg. split; [exact Hp|]. rewrite Hm, draw_skip.
  now rewrite Nat.add_assoc.
Qed.

(** X11. The start route looks the payout up in a table of 13 multipliers
    by the bin index of [run]: for every seed and every drop column the
    lookup is defined, the multiplier lies between 0.2 and 10, and the
    mirrored bin [12 - binIndex] pays the same. *)
Theorem payout_is_defined_and_symmetric (s : string) (dc : JS.number) :
  exists e res e' m,
    createGameEngine s = Ok e /\
    run e dc = Ok (res, e') /\
    payoutMultiplier (binIndex res) = Some m /\
    payoutMultiplier (12 - binIndex res) = Some m /\
    JS.leb (JS.dec 2 1) m = true /\ JS.leb m (JS.of_Z 10) = true.
Proof.
  destruct (engine_of_string s) as (seed & _ & He & Hwide).
  unfold engineOfSeed in *; cbn [pegMap] in Hwide.
  destruct (run_built _ dc (skip 78 (Xorshift32.new seed)) Hwide)
    as (res & Hrun & Hlen & Hbin & _).
  assert (Hb : (binIndex res <= 12)%nat).
  { rewrite Hbin, <- Hlen. apply countRight_le_length. }
  assert (Hm : exists m, payoutMultiplier (binIndex res) = Some m /\
                         payoutMultiplier (12 - binIndex res) = Some m /\
                         JS.leb (JS.dec 2 1) m = true /\ JS.leb m (JS.of_Z 10) = true).
  { destruct (binIndex res) as [|[|[|[|[|[|[|[|[|[|[|[|[|n]]]]]]]]]]]]]; [..|lia];
      eexists; (split; [reflexivity|]); (split; [reflexivity|]);
      split; vm_compute; reflexivity. }
  destruct Hm as (m & H1 & H2 & H3 & H4).
  eexists _, res, _, m. split; [exact He|]. split; [exact Hrun|].
  split; [exact H1|]. split; [exact H2|]. split; assumption.
Qed.
(** * Properties of the routes *)

Import Routes.

(** ** The store *)

Lemma findUnique_In (db : Store) (id : string) (r : Round.t) :
  findUnique db id = Some r -> In r db /\ Round.id r = id.
Proof.
  unfold findUnique. intros H. apply find_some in H as [H1 H2].
  split; [exact H1 | now apply String.eqb_eq].
Qed.

Lemma findUnique_app (db : Store) (r : Round.t) (id : string) :
  findUnique (db ++ [r]) id
  = match findUnique db id with
    | Some x => Some x
    | None => if (Round.id r =? id)%string then Some r else None
    end.
Proof.
  unfold findUnique. induction db as [|x db IH]; cbn [app find]; [reflexivity|].
  destruct (Round.id x =? id)%string; [reflexivity | exact IH].
Qed.

Lemma create_spec (db db' : Store) (r : Round.t) :
  create db r = Some db' -> db' = (db ++ [r])%list /\ findUnique db (Round.id r) = None.
Proof.
  unfold create. destruct (findUnique db (Round.id r)); [discriminate|].
  intros H. injection H as <-. split; reflexivity.
Qed.

Lemma update_spec (db db' : Store) (id : string) (f : Round.t -> Round.t) (u : Round.t) :
  update db id f = Some (u, db') ->
  exists r,
    findUnique db id = Some r /\ u = f r /\ In u db' /\
    (forall x, In x db' -> x = u \/ In x db) /\
    (Round.id (f r) = Round.id r ->
     forall id', findUnique db' id'
                 = if (id =? id')%string then Some u else findUnique db id').
Proof.
  revert db'. induction db as [|x db IH]; intros db' H; cbn [update] in H; [discriminate|].
  unfold findUnique; cbn [find]. fold (findUnique db id).
  destruct (Round.id x =? id)%string eqn:E.
  - injection H as <- <-. exists x. split; [reflexivity|]. split; [reflexivity|].
    split; [now left|]. split.
    + intros y [<-|Hy]; [now left | right; now right].
    + intros Hid id'. unfold findUnique; cbn [find]. rewrite Hid.
      apply String.eqb_eq in E. rewrite E. now destruct (id =? id')%string.
  - destruct (update db id f) as [[u' rest']|] eqn:Eu; [|discriminate].
    injection H as <- <-.
    destruct (IH rest' eq_refl) as (r & H1 & H2 & H3 & H4 & H5).
    exists r. split; [exact H1|]. split; [exact H2|]. split; [now right|]. split.
    + intros y [<-|Hy]; [right; now left|].
      destruct (H4 y Hy) as [->|Hin]; [now left | right; now right].
    + intros Hid id'. unfold findUnique; cbn [find].
      fold (findUnique rest' id'). fold (findUnique db id'). rewrite (H5 Hid id').
      destruct (id =? id')%string eqn:E'; [|reflexivity].
      apply String.eqb_eq in E'. subst id'. now rewrite E.
Qed.

Lemma update_total (db : Store) (id : string) (f : Round.t -> Round.t) (r : Round.t) :
  findUnique db id = Some r -> exists db', update db id f = Some (f r, db').
Proof.
  unfold findUnique. induction db as [|x db IH]; cbn [find update]; [discriminate|].
  destruct (Round.id x =? id)%string.
  - intros H. injection H as <-. eexists; reflexivity.
  - intros H. destruct (IH H) as [db' ->]. eexists; reflexivity.
Qed.

Lemma update_Forall (Q : Round.t -> Prop) (db db' : Store) (id : string)
    (f : Round.t -> Round.t) (u : Round.t) :
  update db id f = Some (u, db') -> Forall Q db -> Q u -> Forall Q db'.
Proof.
  intros H Hall Hu. destruct (update_spec _ _ _ _ _ H) as (r & _ & _ & _ & Hin & _).
  rewrite Forall_forall in *. intros x Hx.
  destruct (Hin x Hx) as [->|Hx']; [exact Hu | apply Hall, Hx'].
Qed.

(** ** Stores that keep what they had *)

Lemma keeps_refl (db : Store) : keeps db db.
Proof. intros id r H. exists r. repeat split; auto. Qed.

Lemma keeps_create (db db' : Store) (r : Round.t) : create db r = Some db' -> keeps db db'.
Proof.
  intros H. apply create_spec in H as [-> _]. intros id x Hx.
  exists x. rewrite findUnique_app, Hx. repeat split; auto.
Qed.

Lemma keeps_update (db db' : Store) (id : string) (f : Round.t -> Round.t) (u : Round.t) :
  (forall r, Round.id (f r) = Round.id r /\ Round.nonce (f r) = Round.nonce r /\
             Round.commitHex (f r) = Round.commitHex r /\
             Round.serverSeed (f r) = Round.serverSeed r /\
             (Round.status r <> "CREATED"%string -> Round.status (f r) <> "CREATED"%string)) ->
  update db id f = Some (u, db') -> keeps db db'.
Proof.
  intros Hf H. destruct (update_spec _ _ _ _ _ H) as (r & Hr & -> & _ & _ & Hfind).
  intros id' x Hx. rewrite (Hfind (proj1 (Hf r)) id').
  destruct (id =? id')%string eqn:E.
  - apply String.eqb_eq in E. subst id'. rewrite Hr in Hx. injection Hx as <-.
    exists (f r). split; [reflexivity|]. apply (Hf r).
  - exists x. repeat split; auto.
Qed.

Section RoutesFacts.

Context `{P : Platform}.

Lemma waits_keeps (db db' : Store) (t : Task) : keeps db db' -> waits db t -> waits db' t.
Proof.
  intros Hk. destruct t; cbn [waits]; auto.
  - intros (H1 & H2 & r & ss & e & e' & Hr & Hss & Hrest).
    destruct (Hk _ _ Hr) as (r' & Hr' & Hn & _ & Hs & _).
    split; [exact H1|]. split; [exact H2|].
    exists r', ss, e, e'. split; [exact Hr'|]. split; [congruence|].
    rewrite Hn. exact Hrest.
  - intros (r & Hr & Hst). destruct (Hk _ _ Hr) as (r' & Hr' & _ & _ & _ & Hst').
    exists r'. split; [exact Hr' | apply Hst', Hst].
Qed.

(** ** What [run] returns on a created engine *)

Lemma run_created (s : string) (dc : JS.number) (e : Engine) :
  createGameEngine s = Ok e ->
  exists res e',
    run e dc = Ok (res, e') /\
    List.length (path res) = 12%nat /\ (binIndex res <= 12)%nat /\
    exists m, payoutMultiplier (binIndex res) = Some m.
Proof.
  intros He. destruct (engine_of_string s) as (seed & _ & He' & Hwide).
  rewrite He' in He. injection He as <-.
  unfold engineOfSeed in *; cbn [pegMap] in Hwide.
  destruct (run_built _ dc (skip 78 (Xorshift32.new seed)) Hwide)
    as (res & Hrun & Hlen & Hbin & _).
  assert (Hb : (binIndex res <= 12)%nat).
  { rewrite Hbin, <- Hlen. apply countRight_le_length. }
  eexists res, _. split; [exact Hrun|]. split; [exact Hlen|]. split; [exact Hb|].
  destruct (binIndex res) as [|[|[|[|[|[|[|[|[|[|[|[|[|n]]]]]]]]]]]]]; [..|lia];
    eexists; reflexivity.
Qed.

(** ** The invariant *)

Lemma toHex_nonempty (bytes : list Z) : bytes <> [] -> toHex bytes <> EmptyString.
Proof. destruct bytes as [|b bytes]; [congruence | discriminate]. Qed.

Lemma falsy_false (x : option string) :
  falsy x = false -> exists s, x = Some s /\ s <> EmptyString.
Proof.
  destruct x as [s|]; cbn [falsy]; [|discriminate].
  intros H. exists s. split; [reflexivity | now apply String.eqb_neq].
Qed.

Lemma receive_waits (env : Env) (rq : Request) (t : Task) (db : Store) :
  List.length (randomBytes32 env) = 32%nat ->
  List.length (randomBytes8 env) = 8%nat ->
  receive env rq = Pending t -> waits db t.
Proof.
  intros H32 H8. destruct rq as [|id body|id|id|ss cs n dc]; cbn [receive].
  - intros H. injection H as <-. cbn [waits].
    split; [apply toHex_nonempty; destruct (randomBytes32 env); [discriminate H32 | congruence]|].
    split; [apply toHex_nonempty; destruct (randomBytes8 env); [discriminate H8 | congruence]|].
    reflexivity.
  - unfold StartRoundSchema_parse.
    destruct body as [[[| | | |cs|] [| | |bc| |] [| | |dc| |]]|];
      cbn [body_clientSeed body_betCents body_dropColumn]; try discriminate.
    match goal with |- context [if ?c then _ else _] => destruct c eqn:E end;
      [|discriminate].
    intros H. injection H as <-. cbn [waits StartRound.clientSeed StartRound.dropColumn].
    apply andb_true_iff in E as [E Hdc]. apply andb_true_iff in E as [Hcs _].
    split; [|exact Hdc].
    intros ->. discriminate Hcs.
  - intros H. injection H as <-. exact I.
  - intros H. injection H as <-. exact I.
  - discriminate.
Qed.

Lemma startData_keeps body comb hash res pay (r : Round.t) :
  Round.id (startData body comb hash res pay r) = Round.id r /\
  Round.nonce (startData body comb hash res pay r) = Round.nonce r /\
  Round.commitHex (startData body comb hash res pay r) = Round.commitHex r /\
  Round.serverSeed (startData body comb hash res pay r) = Round.serverSeed r /\
  (Round.status r <> "CREATED"%string ->
   Round.status (startData body comb hash res pay r) <> "CREATED"%string).
Proof. repeat split. intros _. discriminate. Qed.

Lemma revealData_keeps (time : Z) (r : Round.t) :
  Round.id (revealData time r) = Round.id r /\
  Round.nonce (revealData time r) = Round.nonce r /\
  Round.commitHex (revealData time r) = Round.commitHex r /\
  Round.serverSeed (revealData time r) = Round.serverSeed r /\
  (Round.status r <> "CREATED"%string ->
   Round.status (revealData time r) <> "CREATED"%string).
Proof. repeat split. intros _. discriminate. Qed.

Lemma sound_started (body : StartRound.t) (comb hash : string) (res : PathResult)
    (pay : option JS.number) (r : Round.t) (ss : string) (e e' : Engine) :
  sound r ->
  StartRound.clientSeed body <> EmptyString ->
  in_range (StartRound.dropColumn body) = true ->
  Round.serverSeed r = Some ss ->
  comb = generateCombinedSeed ss (StartRound.clientSeed body) (Round.nonce r) ->
  createGameEngine comb = Ok e ->
  run e (StartRound.dropColumn body) = Ok (res, e') ->
  hash = pegMapHash (pegMap e) ->
  pay = payoutMultiplier (binIndex res) ->
  sound (startData body comb hash res pay r).
Proof.
  intros [Hc _] Hcs Hdc Hss Hcomb He Hrun Hhash Hpay. split.
  - destruct Hc as (s & H1 & H2 & H3 & H4). exists s. repeat split; assumption.
  - right. split; [now left|].
    exists ss, (StartRound.clientSeed body), (StartRound.dropColumn body), e, res, e'.
    cbn [startData Round.serverSeed Round.clientSeed Round.dropColumn Round.combinedSeed
         Round.nonce Round.pegMapHash Round.binIndex Round.payoutMultiplier Round.pathJson].
    rewrite <- Hcomb.
    split; [exact Hss|]. split; [reflexivity|]. split; [exact Hcs|].
    split; [reflexivity|]. split; [exact Hdc|]. split; [reflexivity|].
    split; [exact He|]. split; [exact Hrun|]. split; [now rewrite Hhash|].
    split; [reflexivity|]. split; [|reflexivity].
    destruct (run_created comb (StartRound.dropColumn body) e He)
      as (res' & e'' & Hrun' & _ & _ & m & Hm).
    rewrite Hrun in Hrun'. injection Hrun' as <- _.
    rewrite Hpay, Hm. reflexivity.
Qed.

Lemma sound_revealed (time : Z) (r : Round.t) :
  sound r -> Round.status r <> "CREATED"%string -> sound (revealData time r).
Proof.
  intros [Hc [Hs|[_ Ho]]] Hst; [contradiction|]. split.
  - destruct Hc as (s & H1 & H2 & H3 & H4). exists s. repeat split; assumption.
  - right. split; [now right|].
    destruct Ho as (ss & cs & dc & e & res & e' & H). exists ss, cs, dc, e, res, e'. exact H.
Qed.

(** One step of a waiting handler keeps the rounds sound and what the
    other handlers rely on. *)
Lemma step_invariant (env : Env) (db db' : Store) (t : Task) (s : Stage) :
  Forall sound db -> waits db t -> step env db t = (db', s) ->
  Forall sound db' /\ keeps db db' /\ (forall t', s = Pending t' -> waits db' t').
Proof.
  intros Hdb Hw Hstep. destruct t as [ss n c|id ss n c|id body|id body comb hash res pay|id|id time|id];
    cbn [step waits] in *.
  - (* the create of the commit route *)
    destruct Hw as (Hss & Hn & Hc).
    destruct (create db (newRound env ss n c)) as [db1|] eqn:E.
    + replace (falsy (Some ss)) with false in Hstep
        by (symmetry; cbn [falsy]; now apply String.eqb_neq).
      injection Hstep as <- <-. pose proof (keeps_create _ _ _ E) as Hk.
      apply create_spec in E as [-> _]. split; [|split; [exact Hk | discriminate]].
      apply Forall_app. split; [exact Hdb|]. constructor; [|constructor].
      split; [|now left]. exists ss. repeat split; assumption.
    + injection Hstep as <- <-. split; [exact Hdb|]. split; [apply keeps_refl | discriminate].
  - destruct Hw.
  - (* the findUnique of the start route *)
    destruct Hw as (Hcs & Hdc).
    assert (Hsame : db' = db).
    { destruct (findUnique db id) as [round|]; [|now injection Hstep as <- _].
      destruct (negb _); [now injection Hstep as <- _|].
      destruct (falsy _); [now injection Hstep as <- _|].
      destruct (bind _ _); now injection Hstep as <- _. }
    subst db'. split; [exact Hdb|]. split; [apply keeps_refl|].
    intros t' ->.
    destruct (findUnique db id) as [round|] eqn:Hr; [|discriminate Hstep].
    destruct (negb _); [discriminate Hstep|].
    destruct (falsy (Round.serverSeed round)) eqn:Hf; [discriminate Hstep|].
    destruct (falsy_false _ Hf) as (ss & Hss & _). rewrite Hss in Hstep. cbn [text] in Hstep.
    set (comb := generateCombinedSeed ss (StartRound.clientSeed body) (Round.nonce round)) in *.
    destruct (createGameEngine comb) as [e|err] eqn:He; cbn [bind] in Hstep;
      [|discriminate Hstep].
    destruct (run e (StartRound.dropColumn body)) as [[res e']|err] eqn:Hrun;
      cbn [bind] in Hstep; [|discriminate Hstep].
    injection Hstep as <-. cbn [waits].
    split; [exact Hcs|]. split; [exact Hdc|].
    exists round, ss, e, e'. repeat split; assumption.
  - (* the update of the start route *)
    destruct Hw as (Hcs & Hdc & r & ss & e & e' & Hr & Hss & Hcomb & He & Hrun & Hhash & Hpay).
    destruct (prismaInt _ && prismaInt _).
    + destruct (update db id (startData body comb hash res pay)) as [[u db1]|] eqn:E.
      * injection Hstep as <- <-.
        pose proof (keeps_update _ _ _ _ _ (startData_keeps body comb hash res pay) E) as Hk.
        split; [|split; [exact Hk | discriminate]].
        apply (update_Forall _ _ _ _ _ _ E Hdb).
        destruct (update_spec _ _ _ _ _ E) as (r0 & Hr0 & -> & _).
        rewrite Hr in Hr0. injection Hr0 as <-.
        apply (sound_started body comb hash res pay r ss e e'); try assumption.
        rewrite Forall_forall in Hdb. apply Hdb. apply (findUnique_In _ _ _ Hr).
      * injection Hstep as <- <-. split; [exact Hdb|]. split; [apply keeps_refl | discriminate].
    + injection Hstep as <- <-. split; [exact Hdb|]. split; [apply keeps_refl | discriminate].
  - (* the findUnique of the reveal route *)
    destruct (findUnique db id) as [round|] eqn:Hr.
    + destruct (Round.status round =? "CREATED")%string eqn:Hst.
      * injection Hstep as <- <-. split; [exact Hdb|]. split; [apply keeps_refl | discriminate].
      * injection Hstep as <- <-. split; [exact Hdb|]. split; [apply keeps_refl|].
        intros t' H. injection H as <-. cbn [waits].
        exists round. split; [exact Hr | now apply String.eqb_neq].
    + injection Hstep as <- <-. split; [exact Hdb|]. split; [apply keeps_refl | discriminate].
  - (* the update of the reveal route *)
    destruct Hw as (r & Hr & Hst).
    destruct (update db id (revealData time)) as [[u db1]|] eqn:E.
    + injection Hstep as <- <-.
      pose proof (keeps_update _ _ _ _ _ (revealData_keeps time) E) as Hk.
      split; [|split; [exact Hk | discriminate]].
      apply (update_Forall _ _ _ _ _ _ E Hdb).
      destruct (update_spec _ _ _ _ _ E) as (r0 & Hr0 & -> & _).
      rewrite Hr in Hr0. injection Hr0 as <-.
      apply sound_revealed; [|exact Hst].
      rewrite Forall_forall in Hdb. apply Hdb. apply (findUnique_In _ _ _ Hr).
    + injection Hstep as <- <-. split; [exact Hdb|]. split; [apply keeps_refl | discriminate].
  - (* the findUnique of the route GET /rounds/:id *)
    destruct (findUnique db id) as [round|]; injection Hstep as <- <-;
      (split; [exact Hdb|]; split; [apply keeps_refl | discriminate]).
Qed.

Lemma transition_invariant (sv sv' : Server) (sent : option Response) :
  invariant sv -> transition sv sent sv' -> invariant sv'.
Proof.
  intros [Hdb Hts] Htr. destruct Htr as [env rq t db ts H32 H8 Hrec|env rq r db ts Hrec
                                         |env db db' ts1 ts2 t t' Hstep
                                         |env db db' ts1 ts2 t r Hstep];
    cbn [store tasks] in *.
  - split; [exact Hdb|]. constructor; [|exact Hts].
    apply (receive_waits env rq); assumption.
  - split; assumption.
  - apply Forall_app in Hts as [H1 H2]. inversion H2 as [|? ? Ht H2']; subst.
    destruct (step_invariant env db db' t _ Hdb Ht Hstep) as (Hdb' & Hk & Hnew).
    split; [exact Hdb'|]. apply Forall_app. split.
    + apply (Forall_impl _ (fun x => waits_keeps db db' x Hk) H1).
    + constructor; [now apply Hnew|].
      apply (Forall_impl _ (fun x => waits_keeps db db' x Hk) H2').
  - apply Forall_app in Hts as [H1 H2]. inversion H2 as [|? ? Ht H2']; subst.
    destruct (step_invariant env db db' t _ Hdb Ht Hstep) as (Hdb' & Hk & _).
    split; [exact Hdb'|]. apply Forall_app. split.
    + apply (Forall_impl _ (fun x => waits_keeps db db' x Hk) H1).
    + apply (Forall_impl _ (fun x => waits_keeps db db' x Hk) H2').
Qed.

Lemma reachable_invariant (sv : Server) : reachable sv -> invariant sv.
Proof.
  induction 1 as [|sv sv' sent _ IH Htr].
  - split; constructor.
  - exact (transition_invariant sv sv' sent IH Htr).
Qed.

End RoutesFacts.

(** ** The example round, request by request *)

Lemma example_commit_waits :
  @reachable examplePlatform
    (mkServer [] [CommitCreate exampleServerSeed exampleNonce exampleCommit]).
Proof.
  eapply after; [apply at_start|].
  apply (@arrives examplePlatform exampleEnv PostCommit); vm_compute; reflexivity.
Qed.

Lemma example_commit_sent :
  @transition examplePlatform
    (mkServer [] [CommitCreate exampleServerSeed exampleNonce exampleCommit])
    (Some (CommitJson "round-1" exampleCommit exampleNonce))
    (mkServer exampleCommitted []).
Proof.
  apply (@responds examplePlatform exampleEnv [] exampleCommitted [] []).
  vm_compute; reflexivity.
Qed.

Lemma example_committed_reachable :
  @reachable examplePlatform (mkServer exampleCommitted []).
Proof. exact (after _ _ _ example_commit_waits example_commit_sent). Qed.

Lemma example_started_reachable :
  @reachable examplePlatform (mkServer exampleStarted []).
Proof.
  eapply after.
  - eapply after.
    + eapply after; [exact example_committed_reachable|].
      apply (@arrives examplePlatform exampleEnv (PostStart "round-1" exampleBody)
               (StartFind "round-1" exampleParsed));
        vm_compute; reflexivity.
    + apply (@proceeds examplePlatform exampleEnv exampleCommitted exampleCommitted [] []
               (StartFind "round-1" exampleParsed)).
      vm_compute; reflexivity.
  - apply (@responds examplePlatform exampleEnv exampleCommitted exampleStarted [] []).
    vm_compute; reflexivity.
Qed.

Lemma example_reveal_waits :
  @reachable examplePlatform
    (mkServer exampleStarted [RevealUpdate "round-1" (now exampleEnv)]).
Proof.
  eapply after.
  - eapply after; [exact example_started_reachable|].
    apply (@arrives examplePlatform exampleEnv (PostReveal "round-1") (RevealFind "round-1"));
      vm_compute; reflexivity.
  - apply (@proceeds examplePlatform exampleEnv exampleStarted exampleStarted [] []
             (RevealFind "round-1")).
    vm_compute; reflexivity.
Qed.

Lemma example_reveal_sent :
  @transition examplePlatform
    (mkServer exampleStarted [RevealUpdate "round-1" (now exampleEnv)])
    (Some (RevealJson (Some exampleServerSeed) (Some "candidate-hello"%string) exampleNonce
                      (Some exampleCombined)))
    (mkServer exampleRevealed []).
Proof.
  apply (@responds examplePlatform exampleEnv exampleStarted exampleRevealed [] []).
  vm_compute; reflexivity.
Qed.
(** ** Properties of the routes, stated *)

(** A step whose response carries no round: the equation is absurd or the
    response is plain. *)
Ltac plain_response H :=
  first [discriminate H | injection H as _ <-; exact I].

Section RoutesStated.

Context `{P : Platform}.

(** X12. GET /verify answers every request whose four query parameters are
    each a text or missing, without an error reaching the error middleware:
    with status 400 when [serverSeed], [clientSeed] or [nonce] is missing
    or empty or [dropColumn] is missing, and otherwise
    with [valid: true], the commit and the combined seed of the three
    texts, and the bin index and path that a new engine returns for
    [Number(dropColumn)], whatever number that is.  The route compares its
    result with nothing: no answer has [valid: false]. *)
Theorem verify_always_answers_valid (serverSeed clientSeed nonce dropColumn : option string) :
  (falsy serverSeed || falsy clientSeed || falsy nonce || undefined dropColumn = true ->
   verify serverSeed clientSeed nonce dropColumn = ErrorJson 400 "Missing parameters") /\
  (falsy serverSeed || falsy clientSeed || falsy nonce || undefined dropColumn = false ->
   exists ss cs n dc engine result engine',
     serverSeed = Some ss /\ clientSeed = Some cs /\ nonce = Some n /\
     dropColumn = Some dc /\
     createGameEngine (generateCombinedSeed ss cs n) = Ok engine /\
     run engine (toNumber dc) = Ok (result, engine') /\
     List.length (path result) = 12%nat /\ (binIndex result <= 12)%nat /\
     verify serverSeed clientSeed nonce dropColumn
     = VerifyJson true (generateCommit ss n) (generateCombinedSeed ss cs n)
                  (pegMapHash (pegMap engine)) (binIndex result) (path result)) /\
  (forall hex seed hash bin p,
     verify serverSeed clientSeed nonce dropColumn <> VerifyJson false hex seed hash bin p).
Proof.
  unfold verify.
  destruct (falsy serverSeed || falsy clientSeed || falsy nonce || undefined dropColumn) eqn:E.
  - split; [reflexivity|]. split; [discriminate | discriminate].
  - apply orb_false_iff in E as [E Hdc]. apply orb_false_iff in E as [E Hn].
    apply orb_false_iff in E as [Hss Hcs].
    destruct (falsy_false _ Hss) as (ss & -> & _).
    destruct (falsy_false _ Hcs) as (cs & -> & _).
    destruct (falsy_false _ Hn) as (n & -> & _).
    destruct dropColumn as [dc|]; [|discriminate Hdc]. cbn [text].
    destruct (seedInt_total (generateCombinedSeed ss cs n)) as [seed Hseed].
    pose proof (createGameEngine_engineOfSeed _ _ Hseed) as He.
    destruct (run_created _ (toNumber dc) _ He) as (res & e' & Hrun & Hlen & Hbin & _).
    rewrite He; cbn [bind]. rewrite Hrun; cbn [bind].
    split; [discriminate|]. split; [|discriminate].
    intros _. exists ss, cs, n, dc, (engineOfSeed seed), res, e'.
    repeat split; assumption || reflexivity.
Qed.

(** X13. In every state that the server can reach, by any interleaving of
    its handlers, every stored round is sound: its commit is the SHA-256
    digest of its server seed and nonce, both not empty; and once it has
    left the status CREATED its status is STARTED or REVEALED and the stored
    combined seed, peg map hash, bin index, payout multiplier and path are
    those that a new engine computes from the stored seeds and the stored
    drop column, which lies in [0, 12]. *)
Theorem stored_rounds_stay_sound (sv : Server) (r : Round.t) :
  reachable sv -> In r (store sv) ->
  committed r /\
  (Round.status r = "CREATED"%string \/
   ((Round.status r = "STARTED"%string \/ Round.status r = "REVEALED"%string) /\
    outcomeStored r)).
Proof.
  intros Hreach Hin. destruct (reachable_invariant sv Hreach) as [Hdb _].
  rewrite Forall_forall in Hdb. exact (Hdb r Hin).
Qed.

(** X14. The server seed leaves the server only after the start: in every
    reachable state, a response of the reveal route carries the seeds of a
    stored round that is REVEALED, sound and has its outcome stored; a
    response of GET /rounds/:id either has [serverSeed] and [combinedSeed]
    null or is such a round. *)
Theorem server_seed_is_sent_after_the_start (sv sv' : Server) (sent : Response) :
  reachable sv -> transition sv (Some sent) sv' ->
  match sent with
  | RevealJson serverSeed clientSeed nonce combinedSeed =>
      exists r,
        In r (store sv') /\ Round.status r = "REVEALED"%string /\
        Round.serverSeed r = serverSeed /\ Round.clientSeed r = clientSeed /\
        Round.nonce r = nonce /\ Round.combinedSeed r = combinedSeed /\
        committed r /\ outcomeStored r
  | RoundJson round =>
      (Round.serverSeed round = None /\ Round.combinedSeed round = None) \/
      (In round (store sv') /\ Round.status round = "REVEALED"%string /\
       committed round /\ outcomeStored round)
  | _ => True
  end.
Proof.
  intros Hreach Htr. destruct (reachable_invariant sv Hreach) as [Hdb Hts].
  inversion Htr as [|env rq r db ts Hrec|
                    |env db db' ts1 ts2 t r Hstep]; subst; cbn [store tasks] in *.
  - (* answered at once *)
    destruct rq as [|id body|id|id|ss cs n dc]; cbn [receive] in Hrec; try discriminate Hrec.
    + destruct (StartRoundSchema_parse body); [discriminate Hrec|].
      injection Hrec as <-. exact I.
    + injection Hrec as <-. unfold verify.
      destruct (_ || _); [exact I|].
      destruct (createGameEngine _) as [e|err]; cbn [bind]; [|exact I].
      destruct (run e _) as [[res e']|err]; cbn [bind]; exact I.
  - (* answered after an awaited call *)
    apply Forall_app in Hts as [_ Hts]. inversion Hts as [|? ? Ht _]; subst.
    destruct (step_invariant env db db' t _ Hdb Ht Hstep) as (Hdb' & _ & _).
    rewrite Forall_forall in Hdb'.
    destruct t as [ss n c|id ss n c|id body|id body comb hash res pay|id|id time|id];
      cbn [step waits] in *.
    + destruct (create _ _); [destruct (falsy _)|]; plain_response Hstep.
    + destruct Ht.
    + destruct (findUnique db id) as [round|]; [|plain_response Hstep].
      destruct (negb _); [plain_response Hstep|].
      destruct (falsy _); [plain_response Hstep|].
      destruct (bind _ _); plain_response Hstep.
    + destruct (_ && _); [|plain_response Hstep].
      destruct (update _ _ _) as [[u db1]|]; plain_response Hstep.
    + destruct (findUnique db id) as [round|]; [|plain_response Hstep].
      destruct (_ =? _)%string; plain_response Hstep.
    + destruct (update db id (revealData time)) as [[u db1]|] eqn:E;
        [|plain_response Hstep].
      injection Hstep as <- <-.
      destruct (update_spec _ _ _ _ _ E) as (r0 & _ & Hu & Hin & _).
      exists u. split; [exact Hin|].
      destruct (Hdb' u Hin) as [Hc [Hs|[_ Ho]]]; [rewrite Hu in Hs; discriminate Hs|].
      split; [now rewrite Hu|]. repeat split; assumption || reflexivity.
    + destruct (findUnique db id) as [round|] eqn:Hr; [|plain_response Hstep].
      injection Hstep as <- <-. unfold safeRound.
      destruct (Round.status round =? "REVEALED")%string eqn:Hst.
      * right. apply String.eqb_eq in Hst.
        pose proof (proj1 (findUnique_In _ _ _ Hr)) as Hin.
        destruct (Hdb' round Hin) as [Hc [Hs|[_ Ho]]]; [rewrite Hst in Hs; discriminate Hs|].
        repeat split; assumption.
      * left. split; reflexivity.
Qed.

(** X15. A commit cannot be changed: in every reachable state, no
    transition changes the nonce, the commit or the server seed of a stored
    round, removes a round, or brings a round back to the status CREATED;
    and a response of the commit route carries the id, the commit and the
    nonce of a round that has just been stored with status CREATED. *)
Theorem commit_cannot_be_changed (sv sv' : Server) (sent : option Response) :
  reachable sv -> transition sv sent sv' ->
  (forall id r, findUnique (store sv) id = Some r ->
     exists r',
       findUnique (store sv') id = Some r' /\
       Round.nonce r' = Round.nonce r /\
       Round.commitHex r' = Round.commitHex r /\
       Round.serverSeed r' = Round.serverSeed r /\
       (Round.status r <> "CREATED"%string -> Round.status r' <> "CREATED"%string)) /\
  (forall roundId commitHex nonce,
     sent = Some (CommitJson roundId commitHex nonce) ->
     findUnique (store sv) roundId = None /\
     exists r,
       findUnique (store sv') roundId = Some r /\
       Round.status r = "CREATED"%string /\
       Round.commitHex r = commitHex /\ Round.nonce r = nonce).
Proof.
  intros Hreach Htr. destruct (reachable_invariant sv Hreach) as [Hdb Hts].
  inversion Htr as [env rq t db ts H32 H8 Hrec|env rq r db ts Hrec
                    |env db db' ts1 ts2 t t' Hstep
                    |env db db' ts1 ts2 t r Hstep]; subst; cbn [store tasks] in *.
  - split; [apply keeps_refl | discriminate].
  - split; [apply keeps_refl|]. intros roundId c n H. injection H as ->. exfalso.
    destruct rq as [|id body|id|id|ss cs n' dc]; cbn [receive] in Hrec; try discriminate Hrec.
    + destruct (StartRoundSchema_parse body); discriminate Hrec.
    + injection Hrec as Hrec. unfold verify in Hrec.
      destruct (_ || _); [discriminate Hrec|].
      destruct (createGameEngine _) as [e|err]; cbn [bind] in Hrec; [|discriminate Hrec].
      destruct (run e _) as [[res e']|err]; cbn [bind] in Hrec; discriminate Hrec.
  - apply Forall_app in Hts as [_ Hts]. inversion Hts as [|? ? Ht _]; subst.
    destruct (step_invariant env db db' t _ Hdb Ht Hstep) as (_ & Hk & _).
    split; [exact Hk | discriminate].
  - apply Forall_app in Hts as [_ Hts]. inversion Hts as [|? ? Ht _]; subst.
    destruct (step_invariant env db db' t _ Hdb Ht Hstep) as (_ & Hk & _).
    split; [exact Hk|]. intros roundId c n H. injection H as ->.
    destruct t as [ss n0 c0|id ss n0 c0|id body|id body comb hash res pay|id|id time|id];
      cbn [step waits] in *.
    + destruct (create db (newRound env ss n0 c0)) as [db1|] eqn:E; [|discriminate Hstep].
      destruct (falsy _); [discriminate Hstep|]. injection Hstep as <- <- <- <-.
      apply create_spec in E as [-> Hnone]. cbn [newRound Round.id] in Hnone.
      split; [exact Hnone|].
      exists (newRound env ss n0 c0). rewrite findUnique_app, Hnone.
      cbn [newRound Round.id Round.status Round.commitHex Round.nonce].
      rewrite String.eqb_refl. repeat split.
    + destruct Ht.
    + destruct (findUnique db id) as [round|]; [|discriminate Hstep].
      destruct (negb _); [discriminate Hstep|].
      destruct (falsy _); [discriminate Hstep|].
      destruct (bind _ _); discriminate Hstep.
    + destruct (_ && _); [|discriminate Hstep].
      destruct (update _ _ _) as [[u db1]|]; discriminate Hstep.
    + destruct (findUnique db id) as [round|]; [|discriminate Hstep].
      destruct (_ =? _)%string; discriminate Hstep.
    + destruct (update _ _ _) as [[u db1]|]; discriminate Hstep.
    + destruct (findUnique db id) as [round|]; discriminate Hstep.
Qed.

(** X16. Every round that has been started can be verified: in every
    reachable state, GET /verify with the server seed, the client seed and
    the nonce of a stored round that has left the status CREATED, and with a
    text that [Number] reads as the stored drop column, answers
    [valid: true] with the stored commit, combined seed, peg map hash, bin
    index and path. *)
Theorem verify_reproduces_a_started_round (sv : Server) (r : Round.t) (column : string) :
  reachable sv -> In r (store sv) -> Round.status r <> "CREATED"%string ->
  Round.dropColumn r = Some (toNumber column) ->
  exists seed hash bin p,
    verify (Round.serverSeed r) (Round.clientSeed r) (Some (Round.nonce r)) (Some column)
    = VerifyJson true (Round.commitHex r) seed hash bin p /\
    Round.combinedSeed r = Some seed /\
    Round.pegMapHash r = Some hash /\
    Round.binIndex r = Some bin /\
    Round.payoutMultiplier r = payoutMultiplier bin /\
    Round.pathJson r = Some (stringifyPath p).
Proof.
  intros Hreach Hin Hst Hcol. destruct (reachable_invariant sv Hreach) as [Hdb _].
  rewrite Forall_forall in Hdb.
  destruct (Hdb r Hin) as [Hc [Hs|[_ Ho]]]; [contradiction|].
  destruct Hc as (ss & Hss & Hss0 & Hn0 & Hcommit).
  destruct Ho as (ss' & cs & dc & e & res & e' & Hss' & Hcs & Hcs0 & Hdc & _ & Hcomb & He
                  & Hrun & Hhash & Hbin & Hpay & Hpath).
  rewrite Hss in Hss'. injection Hss' as <-.
  rewrite Hdc in Hcol. injection Hcol as ->.
  exists (generateCombinedSeed ss cs (Round.nonce r)), (pegMapHash (pegMap e)),
         (binIndex res), (path res).
  split; [|repeat split; assumption].
  unfold verify. rewrite Hss, Hcs. cbn [falsy undefined text].
  apply String.eqb_neq in Hss0, Hcs0, Hn0. rewrite Hss0, Hcs0, Hn0. cbn [orb].
  rewrite He; cbn [bind]. rewrite Hrun; cbn [bind]. now rewrite Hcommit.
Qed.

(** What the two steps of the start route do on a round that is CREATED. *)
Lemma start_finds (env : Env) (db : Store) (id : string) (r : Round.t) (b : StartRound.t)
    (ss : string) :
  findUnique db id = Some r -> Round.status r = "CREATED"%string ->
  Round.serverSeed r = Some ss -> ss <> EmptyString ->
  exists engine result engine',
    createGameEngine (generateCombinedSeed ss (StartRound.clientSeed b) (Round.nonce r))
    = Ok engine /\
    run engine (StartRound.dropColumn b) = Ok (result, engine') /\
    step env db (StartFind id b)
    = (db, Pending (StartUpdate id b
                      (generateCombinedSeed ss (StartRound.clientSeed b) (Round.nonce r))
                      (pegMapHash (pegMap engine)) result
                      (payoutMultiplier (binIndex result)))).
Proof.
  intros Hr Hst Hss Hne.
  destruct (seedInt_total (generateCombinedSeed ss (StartRound.clientSeed b) (Round.nonce r)))
    as [seed Hseed].
  pose proof (createGameEngine_engineOfSeed _ _ Hseed) as He.
  destruct (run_created _ (StartRound.dropColumn b) _ He) as (res & e' & Hrun & _).
  exists (engineOfSeed seed), res, e'. split; [exact He|]. split; [exact Hrun|].
  cbn [step]. rewrite Hr, Hst, Hss. cbn [negb String.eqb Ascii.eqb Bool.eqb falsy text].
  apply String.eqb_neq in Hne. rewrite Hne.
  rewrite He; cbn [bind]. rewrite Hrun; cbn [bind]. reflexivity.
Qed.

Lemma start_updates (env : Env) (db : Store) (id : string) (r : Round.t) (b : StartRound.t)
    (comb hash : string) (res : PathResult) (pay : option JS.number) :
  findUnique db id = Some r ->
  prismaInt (StartRound.dropColumn b) && prismaInt (StartRound.betCents b) = true ->
  exists db',
    step env db (StartUpdate id b comb hash res pay)
    = (db', Done (StartJson id hash (binIndex res) pay (path res))) /\
    findUnique db' id = Some (startData b comb hash res pay r).
Proof.
  intros Hr Hp. cbn [step]. rewrite Hp.
  destruct (update_total db id (startData b comb hash res pay) r Hr) as [db' Hu].
  rewrite Hu. exists db'.
  destruct (update_spec _ _ _ _ _ Hu) as (r0 & Hr0 & _ & _ & _ & Hfind).
  rewrite Hr in Hr0. injection Hr0 as <-.
  split.
  - cbn [startData Round.id]. now rewrite (proj2 (findUnique_In _ _ _ Hr)).
  - rewrite (Hfind eq_refl id), String.eqb_refl. reflexivity.
Qed.

(** X17. The start route is not atomic.  On a round that is CREATED, when
    the [findUnique] calls of two start requests are both performed before
    the [update] of either, both requests are answered with an outcome and
    the round keeps the client seed and the bin index of the second; whereas
    a start request whose [findUnique] comes after the first [update] is
    refused with status 400. *)
Theorem two_starts_in_flight_both_succeed (env : Env) (db : Store) (id : string)
    (r : Round.t) (b1 b2 : StartRound.t) :
  findUnique db id = Some r -> Round.status r = "CREATED"%string ->
  falsy (Round.serverSeed r) = false ->
  prismaInt (StartRound.dropColumn b1) && prismaInt (StartRound.betCents b1) = true ->
  prismaInt (StartRound.dropColumn b2) && prismaInt (StartRound.betCents b2) = true ->
  exists t1 t2 db1 db2 hash1 hash2 res1 res2 pay1 pay2 r2,
    step env db (StartFind id b1) = (db, Pending t1) /\
    step env db (StartFind id b2) = (db, Pending t2) /\
    step env db t1 = (db1, Done (StartJson id hash1 (binIndex res1) pay1 (path res1))) /\
    step env db1 t2 = (db2, Done (StartJson id hash2 (binIndex res2) pay2 (path res2))) /\
    findUnique db2 id = Some r2 /\
    Round.clientSeed r2 = Some (StartRound.clientSeed b2) /\
    Round.binIndex r2 = Some (binIndex res2) /\
    step env db1 (StartFind id b2)
    = (db1, Done (ErrorJson 400 "Round already started or finished")).
Proof.
  intros Hr Hst Hf Hp1 Hp2. destruct (falsy_false _ Hf) as (ss & Hss & Hne).
  destruct (start_finds env db id r b1 ss Hr Hst Hss Hne) as (e1 & res1 & e1' & _ & _ & Hs1).
  destruct (start_finds env db id r b2 ss Hr Hst Hss Hne) as (e2 & res2 & e2' & _ & _ & Hs2).
  destruct (start_updates env db id r b1
              (generateCombinedSeed ss (StartRound.clientSeed b1) (Round.nonce r))
              (pegMapHash (pegMap e1)) res1 (payoutMultiplier (binIndex res1)) Hr Hp1)
    as (db1 & Hu1 & Hr1).
  destruct (start_updates env db1 id _ b2
              (generateCombinedSeed ss (StartRound.clientSeed b2) (Round.nonce r))
              (pegMapHash (pegMap e2)) res2 (payoutMultiplier (binIndex res2)) Hr1 Hp2)
    as (db2 & Hu2 & Hr2).
  eexists _, _, db1, db2, _, _, res1, res2, _, _, _.
  split; [exact Hs1|]. split; [exact Hs2|]. split; [exact Hu1|]. split; [exact Hu2|].
  split; [exact Hr2|]. split; [reflexivity|]. split; [reflexivity|].
  cbn [step]. rewrite Hr1. reflexivity.
Qed.

(** X18. A round from the commit to the reveal, each request served
    without another in between.  The commit route stores a new round and
    answers with its id, the nonce and the commit of the server seed; the
    start route, on a body that the schema and the database accept, answers
    with the outcome that a new engine computes from the combined seed of
    that server seed, the client seed and the nonce; and the reveal route
    answers with that server seed, whose commit is the one of the first
    answer. *)
Theorem a_round_from_commit_to_reveal (env1 env2 env3 : Env) (db : Store)
    (body : option StartBody) (b : StartRound.t) :
  List.length (randomBytes32 env1) = 32%nat ->
  List.length (randomBytes8 env1) = 8%nat ->
  findUnique db (newId env1) = None ->
  StartRoundSchema_parse body = Some b ->
  prismaInt (StartRound.dropColumn b) && prismaInt (StartRound.betCents b) = true ->
  let id := newId env1 in
  let serverSeed := toHex (randomBytes32 env1) in
  let nonce := toHex (randomBytes8 env1) in
  let combinedSeed := generateCombinedSeed serverSeed (StartRound.clientSeed b) nonce in
  exists db1 db2 db3 engine result engine',
    serve env1 db PostCommit
    = (db1, Done (CommitJson id (generateCommit serverSeed nonce) nonce)) /\
    createGameEngine combinedSeed = Ok engine /\
    run engine (StartRound.dropColumn b) = Ok (result, engine') /\
    serve env2 db1 (PostStart id body)
    = (db2, Done (StartJson id (pegMapHash (pegMap engine)) (binIndex result)
                            (payoutMultiplier (binIndex result)) (path result))) /\
    serve env3 db2 (PostReveal id)
    = (db3, Done (RevealJson (Some serverSeed) (Some (StartRound.clientSeed b)) nonce
                             (Some combinedSeed))).
Proof.
  intros H32 H8 Hfresh Hparse Hp id ss n comb.
  assert (Hss : ss <> EmptyString).
  { apply toHex_nonempty. destruct (randomBytes32 env1); [discriminate H32 | congruence]. }
  set (r0 := newRound env1 ss n (generateCommit ss n)).
  assert (Hr0 : findUnique (db ++ [r0]) id = Some r0).
  { rewrite findUnique_app. fold id in Hfresh. rewrite Hfresh.
    cbn [r0 newRound Round.id]. fold id. now rewrite String.eqb_refl. }
  destruct (start_finds env2 (db ++ [r0]) id r0 b ss Hr0 eq_refl eq_refl Hss)
    as (e & res & e' & He & Hrun & Hfind).
  destruct (start_updates env2 (db ++ [r0]) id r0 b comb (pegMapHash (pegMap e)) res
              (payoutMultiplier (binIndex res)) Hr0 Hp) as (db2 & Hupd & Hr1).
  set (r1 := startData b comb (pegMapHash (pegMap e)) res (payoutMultiplier (binIndex res)) r0)
    in *.
  destruct (update_total db2 id (revealData (now env3)) r1 Hr1) as [db3 Hu3].
  exists (db ++ [r0])%list, db2, db3, e, res, e'.
  split.
  { unfold serve; cbn [receive finish step]. fold ss n r0.
    unfold create. change (Round.id r0) with (newId env1). rewrite Hfresh.
    replace (falsy (Some ss)) with false
      by (symmetry; cbn [falsy]; now apply String.eqb_neq).
    reflexivity. }
  split; [exact He|]. split; [exact Hrun|]. split.
  { unfold serve; cbn [receive]. rewrite Hparse. cbn [finish].
    change (generateCombinedSeed ss (StartRound.clientSeed b) (Round.nonce r0)) with comb
      in Hfind.
    rewrite Hfind, Hupd. reflexivity. }
  unfold serve; cbn [receive finish step]. rewrite Hr1.
  replace (Round.status r1 =? "CREATED")%string with false by reflexivity.
  cbn [step]. rewrite Hu3. reflexivity.
Qed.

End RoutesStated.

(** ** The properties on the example round *)

Lemma stored_rounds_stay_sound_witness :
  @reachable examplePlatform (mkServer exampleStarted []) /\
  In exampleRoundStarted (store (mkServer exampleStarted [])) /\
  committed exampleRoundStarted /\
  (Round.status exampleRoundStarted = "CREATED"%string \/
   ((Round.status exampleRoundStarted = "STARTED"%string \/
     Round.status exampleRoundStarted = "REVEALED"%string) /\
    @outcomeStored examplePlatform exampleRoundStarted)).
Proof.
  split; [exact example_started_reachable|]. split; [left; reflexivity|].
  apply (@stored_rounds_stay_sound examplePlatform (mkServer exampleStarted [])
           exampleRoundStarted).
  - exact example_started_reachable.
  - left; reflexivity.
Defined.

Lemma server_seed_is_sent_after_the_start_witness :
  @reachable examplePlatform
    (mkServer exampleStarted [RevealUpdate "round-1" (now exampleEnv)]) /\
  @transition examplePlatform
    (mkServer exampleStarted [RevealUpdate "round-1" (now exampleEnv)])
    (Some (RevealJson (Some exampleServerSeed) (Some "candidate-hello"%string) exampleNonce
                      (Some exampleCombined)))
    (mkServer exampleRevealed []) /\
  exists r,
    In r exampleRevealed /\ Round.status r = "REVEALED"%string /\
    Round.serverSeed r = Some exampleServerSeed /\
    Round.clientSeed r = Some "candidate-hello"%string /\
    Round.nonce r = exampleNonce /\ Round.combinedSeed r = Some exampleCombined /\
    committed r /\ @outcomeStored examplePlatform r.
Proof.
  split; [exact example_reveal_waits|]. split; [exact example_reveal_sent|].
  exact (@server_seed_is_sent_after_the_start examplePlatform _ _ _
           example_reveal_waits example_reveal_sent).
Defined.

Lemma commit_cannot_be_changed_witness :
  @reachable examplePlatform
    (mkServer [] [CommitCreate exampleServerSeed exampleNonce exampleCommit]) /\
  @transition examplePlatform
    (mkServer [] [CommitCreate exampleServerSeed exampleNonce exampleCommit])
    (Some (CommitJson "round-1" exampleCommit exampleNonce))
    (mkServer exampleCommitted []) /\
  findUnique [] "round-1" = None /\
  exists r,
    findUnique exampleCommitted "round-1" = Some r /\
    Round.status r = "CREATED"%string /\
    Round.commitHex r = exampleCommit /\ Round.nonce r = exampleNonce.
Proof.
  split; [exact example_commit_waits|]. split; [exact example_commit_sent|].
  exact (proj2 (@commit_cannot_be_changed examplePlatform _ _ _
                  example_commit_waits example_commit_sent)
           "round-1"%string exampleCommit exampleNonce eq_refl).
Defined.

Lemma verify_reproduces_a_started_round_witness :
  @reachable examplePlatform (mkServer exampleStarted []) /\
  In exampleRoundStarted (store (mkServer exampleStarted [])) /\
  Round.status exampleRoundStarted <> "CREATED"%string /\
  Round.dropColumn exampleRoundStarted = Some (@toNumber examplePlatform "6") /\
  exists seed hash bin p,
    @verify examplePlatform (Round.serverSeed exampleRoundStarted)
      (Round.clientSeed exampleRoundStarted) (Some (Round.nonce exampleRoundStarted))
      (Some "6"%string)
    = VerifyJson true (Round.commitHex exampleRoundStarted) seed hash bin p /\
    Round.combinedSeed exampleRoundStarted = Some seed /\
    Round.pegMapHash exampleRoundStarted = Some hash /\
    Round.binIndex exampleRoundStarted = Some bin /\
    Round.payoutMultiplier exampleRoundStarted = payoutMultiplier bin /\
    Round.pathJson exampleRoundStarted = Some (stringifyPath p).
Proof.
  assert (Hin : In exampleRoundStarted (store (mkServer exampleStarted [])))
    by (left; reflexivity).
  assert (Hst : Round.status exampleRoundStarted <> "CREATED"%string) by discriminate.
  assert (Hcol : Round.dropColumn exampleRoundStarted = Some (@toNumber examplePlatform "6"))
    by (vm_compute; reflexivity).
  split; [exact example_started_reachable|]. split; [exact Hin|]. split; [exact Hst|].
  split; [exact Hcol|].
  exact (@verify_reproduces_a_started_round examplePlatform _ _ _
           example_started_reachable Hin Hst Hcol).
Defined.

Lemma two_starts_in_flight_both_succeed_witness :
  findUnique exampleCommitted "round-1" = Some exampleRoundCreated /\
  Round.status exampleRoundCreated = "CREATED"%string /\
  falsy (Round.serverSeed exampleRoundCreated) = false /\
  @prismaInt examplePlatform (StartRound.dropColumn exampleParsed)
  && @prismaInt examplePlatform (StartRound.betCents exampleParsed) = true /\
  @prismaInt examplePlatform (StartRound.dropColumn exampleSecond)
  && @prismaInt examplePlatform (StartRound.betCents exampleSecond) = true /\
  exists t1 t2 db1 db2 hash1 hash2 res1 res2 pay1 pay2 r2,
    @step examplePlatform exampleEnv exampleCommitted (StartFind "round-1" exampleParsed)
    = (exampleCommitted, Pending t1) /\
    @step examplePlatform exampleEnv exampleCommitted (StartFind "round-1" exampleSecond)
    = (exampleCommitted, Pending t2) /\
    @step examplePlatform exampleEnv exampleCommitted t1
    = (db1, Done (StartJson "round-1" hash1 (binIndex res1) pay1 (path res1))) /\
    @step examplePlatform exampleEnv db1 t2
    = (db2, Done (StartJson "round-1" hash2 (binIndex res2) pay2 (path res2))) /\
    findUnique db2 "round-1" = Some r2 /\
    Round.clientSeed r2 = Some (StartRound.clientSeed exampleSecond) /\
    Round.binIndex r2 = Some (binIndex res2) /\
    @step examplePlatform exampleEnv db1 (StartFind "round-1" exampleSecond)
    = (db1, Done (ErrorJson 400 "Round already started or finished")).
Proof.
  assert (Hr : findUnique exampleCommitted "round-1" = Some exampleRoundCreated)
    by reflexivity.
  assert (Hp1 : @prismaInt examplePlatform (StartRound.dropColumn exampleParsed)
                && @prismaInt examplePlatform (StartRound.betCents exampleParsed) = true)
    by (vm_compute; reflexivity).
  assert (Hp2 : @prismaInt examplePlatform (StartRound.dropColumn exampleSecond)
                && @prismaInt examplePlatform (StartRound.betCents exampleSecond) = true)
    by (vm_compute; reflexivity).
  split; [exact Hr|]. split; [reflexivity|]. split; [reflexivity|].
  split; [exact Hp1|]. split; [exact Hp2|].
  exact (@two_starts_in_flight_both_succeed examplePlatform exampleEnv exampleCommitted
           "round-1"%string exampleRoundCreated exampleParsed exampleSecond
           Hr eq_refl eq_refl Hp1 Hp2).
Defined.

Lemma a_round_from_commit_to_reveal_witness :
  List.length (randomBytes32 exampleEnv) = 32%nat /\
  List.length (randomBytes8 exampleEnv) = 8%nat /\
  findUnique [] (newId exampleEnv) = None /\
  @StartRoundSchema_parse examplePlatform exampleBody = Some exampleParsed /\
  @prismaInt examplePlatform (StartRound.dropColumn exampleParsed)
  && @prismaInt examplePlatform (StartRound.betCents exampleParsed) = true /\
  exists db1 db2 db3 engine result engine',
    @serve examplePlatform exampleEnv [] PostCommit
    = (db1, Done (CommitJson "round-1"
                    (generateCommit (toHex (randomBytes32 exampleEnv))
                                    (toHex (randomBytes8 exampleEnv)))
                    (toHex (randomBytes8 exampleEnv)))) /\
    createGameEngine
      (generateCombinedSeed (toHex (randomBytes32 exampleEnv)) "candidate-hello"
                            (toHex (randomBytes8 exampleEnv)))
    = Ok engine /\
    run engine (JS.of_Z 6) = Ok (result, engine') /\
    @serve examplePlatform exampleEnv db1 (PostStart "round-1" exampleBody)
    = (db2, Done (StartJson "round-1" (@pegMapHash examplePlatform (pegMap engine))
                            (binIndex result) (payoutMultiplier (binIndex result))
                            (path result))) /\
    @serve examplePlatform exampleEnv db2 (PostReveal "round-1")
    = (db3, Done (RevealJson (Some (toHex (randomBytes32 exampleEnv)))
                             (Some "candidate-hello"%string)
                             (toHex (randomBytes8 exampleEnv))
                             (Some (generateCombinedSeed (toHex (randomBytes32 exampleEnv))
                                      "candidate-hello"
                                      (toHex (randomBytes8 exampleEnv)))))).
Proof.
  assert (Hparse : @StartRoundSchema_parse examplePlatform exampleBody = Some exampleParsed)
    by (vm_compute; reflexivity).
  assert (Hp : @prismaInt examplePlatform (StartRound.dropColumn exampleParsed)
               && @prismaInt examplePlatform (StartRound.betCents exampleParsed) = true)
    by (vm_compute; reflexivity).
  split; [reflexivity|]. split; [reflexivity|]. split; [reflexivity|].
  split; [exact Hparse|]. split; [exact Hp|].
  exact (@a_round_from_commit_to_reveal examplePlatform exampleEnv exampleEnv exampleEnv []
           exampleBody exampleParsed eq_refl eq_refl eq_refl Hparse Hp).
Defined.
